(** * GPU kernel suite of the GPT-2 forward pass (gpu/cuda_utils.cu)

    A shallow embedding of the CUDA kernels, their host wrappers and the
    CPU reference implementations, together with the properties the design
    document states about them and further properties of the code.

    Conventions of the embedding.
    - [float] is IEEE-754 binary32 and [double] binary64, both taken from
      the standard library's executable specification [SpecFloat]
      (round to nearest, ties to even).  Library functions whose
      implementation is not part of the repository ([exp], [tanh]) are
      section variables.
    - [int] values are integers in [Z]; C's [/] and [%] are [Z.quot] and
      [Z.rem].  Index arithmetic is assumed not to overflow [int].
    - Host code rounds every arithmetic operation on its own.  In device
      code nvcc contracts a product followed by a sum into one fused
      multiply-add, rounded once, unless the build says [-fmad=false]; the
      accumulation [value += x * y] of the matrix-multiply kernels takes
      the state of that option as the parameter [fmad], and what is proved
      about them holds for both builds.  The polynomial inside [GELU] is
      written without contraction; its value is only used at a zero entry,
      where contraction changes nothing.
    - A [float*] is the name of a buffer in a store [gmap ptr (list f32)];
      an access outside the buffer is undefined behaviour, rendered as
      [None].
    - A kernel launch runs the threads of the grid one after the other,
      block by block; inside a block every [__syncthreads()] splits the
      body into phases that are run for all threads of the block in turn.
      The kernels are free of data races, so this schedule is
      representative; the blocks of [findMaxKernel] meet only in
      [atomicMax], which is atomic. *)

From Stdlib Require Import ZArith Lia Bool.
From Stdlib Require Import Floats.SpecFloat.
From stdpp Require Import base option list gmap.

Open Scope Z_scope.

(** ** Floating-point numbers *)

Definition f32 : Type := spec_float.
Definition f64 : Type := spec_float.

Definition f32_zero : f32 := S754_zero false.
Definition f32_add : f32 -> f32 -> f32 := SFadd 24 128.
Definition f32_mul : f32 -> f32 -> f32 := SFmul 24 128.
Definition f32_div : f32 -> f32 -> f32 := SFdiv 24 128.
Definition f32_ltb : f32 -> f32 -> bool := SFltb.

(** [(float) z] for an [int] z. *)
Definition f32_of_int (z : Z) : f32 := binary_normalize 24 128 z 0 false.

(** [(int) x]: truncation toward zero; undefined for NaN, infinities and
    values outside the range of [int]. *)
Definition f32_to_int (x : f32) : option Z :=
  match x with
  | S754_zero _ => Some 0
  | S754_finite s m e =>
      let z := cond_Zopp s (Z.shiftl (Z.pos m) e) in
      if decide (- 2 ^ 31 <= z < 2 ^ 31) then Some z else None
  | _ => None
  end.

Definition f32_sqrt : f32 -> f32 := SFsqrt 24 128.

(** [fmaf(x, y, z)], the fused multiply-add: [x * y + z] with the product
    kept exact and one rounding at the end.  When a factor is not finite or
    is zero the product is exact as [SFmul] gives it. *)
Definition SFfma (prec emax : Z) (x y z : spec_float) : spec_float :=
  match x, y with
  | S754_finite sx mx ex, S754_finite sy my ey =>
      match z with
      | S754_finite sz mz ez =>
          let e := Z.min (ex + ey) ez in
          binary_normalize prec emax
            (cond_Zopp (xorb sx sy) (Z.pos (fst (shl_align (mx * my) (ex + ey) e)))
             + cond_Zopp sz (Z.pos (fst (shl_align mz ez e))))
            e false
      | S754_zero _ => SFmul prec emax x y
      | _ => z
      end
  | _, _ => SFadd prec emax (SFmul prec emax x y) z
  end.

Definition f32_fma : f32 -> f32 -> f32 -> f32 := SFfma 24 128.

(** [value += x * y] in device code, as built with [-fmad=true] (the
    default of nvcc) or with [-fmad=false]. *)
Definition f32_mac (fmad : bool) (value x y : f32) : f32 :=
  if fmad then f32_fma x y value else f32_add value (f32_mul x y).

Definition f64_zero : f64 := S754_zero false.
Definition f64_add : f64 -> f64 -> f64 := SFadd 53 1024.
Definition f64_mul : f64 -> f64 -> f64 := SFmul 53 1024.
Definition f64_div : f64 -> f64 -> f64 := SFdiv 53 1024.
Definition f64_of_int (z : Z) : f64 := binary_normalize 53 1024 z 0 false.

(** [(double) x] for a [float] x: exact, the value is renormalised to a
    53-bit mantissa. *)
Definition f64_of_f32 (x : f32) : f64 :=
  match x with
  | S754_finite s m e => binary_normalize 53 1024 (cond_Zopp s (Z.pos m)) e false
  | _ => x
  end.

(** [(float) x] for a [double] x: rounded to nearest. *)
Definition f32_of_f64 (x : f64) : f32 :=
  match x with
  | S754_finite s m e => binary_normalize 24 128 (cond_Zopp s (Z.pos m)) e false
  | _ => x
  end.

(** A decimal literal [n / 10^d] of type [double]. *)
Definition f64_lit (n : Z) (d : Z) : f64 := f64_div (f64_of_int n) (f64_of_int (10 ^ d)).

(** [x >= y] on doubles (false when either is NaN). *)
Definition f64_geb (x y : f64) : bool := SFleb y x.

Arguments f32_add : simpl never.
Arguments f32_mul : simpl never.
Arguments f32_div : simpl never.
Arguments f32_sqrt : simpl never.
Arguments f32_fma : simpl never.
Arguments f32_of_int : simpl never.
Arguments f32_to_int : simpl never.
Arguments f32_of_f64 : simpl never.
Arguments f64_add : simpl never.
Arguments f64_mul : simpl never.
Arguments f64_div : simpl never.
Arguments f64_of_int : simpl never.
Arguments f64_of_f32 : simpl never.

(** ** Buffers *)

(** [buf[i]] for an [int] index; [None] outside the buffer. *)
Definition load (buf : list f32) (i : Z) : option f32 :=
  if decide (0 <= i) then buf !! Z.to_nat i else None.

(** [buf[i] = v]; [None] outside the buffer. *)
Definition store (buf : list f32) (i : Z) (v : f32) : option (list f32) :=
  if decide (0 <= i < Z.of_nat (length buf)) then Some (<[Z.to_nat i := v]> buf)
  else None.

(** ** Softmax sampler: the inverse-CDF scan *)

Section WeightedSample.
Variable probs : list f32.
Variable rand_val : f64.

(** The [while (tmp < length)] loop of [weightedSampleKernel] with [n]
    iterations left, that is [n = length - tmp]. *)
Fixpoint weightedSample_scan (n : nat) (sum : f64) (tmp : Z) : option Z :=
  match n with
  | O => Some tmp
  | S n' =>
      p ← load probs tmp;
      let sum := f64_add sum (f64_of_f32 p) in
      if f64_geb sum rand_val then Some tmp
      else weightedSample_scan n' sum (tmp + 1)
  end.

(** The value the kernel leaves in [*output]. *)
Definition weightedSampleKernel (length : Z) : option Z :=
  weightedSample_scan (Z.to_nat length) f64_zero 0.
End WeightedSample.

(** ** Device store, descriptors and launches *)

Abbreviation mem := (gmap positive (list f32)).

(** [p[i]] and [p[i] = v] through a pointer. *)
Definition rd (m : mem) (p : positive) (i : Z) : option f32 :=
  buf ← m !! p; load buf i.

Definition wr (m : mem) (p : positive) (i : Z) (v : f32) : option mem :=
  buf ← m !! p; buf' ← store buf i v; Some (<[p := buf']> m).

(** [typedef struct { float* dat; int rows, cols; } Matrix;] *)
Record Matrix := { dat : positive; rows : Z; cols : Z }.

Record dim3 := Dim3 { dim_x : Z; dim_y : Z }.

Record thread := Thread
  { gridDim : dim3; blockDim : dim3; blockIdx : dim3; threadIdx : dim3 }.

Definition CEIL_DIV (a b : Z) : Z := (a + b - 1) `quot` b.

(** Sequential composition of the steps [step t], for [t] along [ts]. *)
Fixpoint run {T S : Type} (step : T -> S -> option S) (ts : list T) (s : S)
  : option S :=
  match ts with
  | [] => Some s
  | t :: ts' => s' ← step t s; run step ts' s'
  end.

(** The index vectors below [d], row by row. *)
Definition indices (d : dim3) : list dim3 :=
  j ← seqZ 0 (dim_y d); i ← seqZ 0 (dim_x d); [Dim3 i j].

Definition grid_threads (g b : dim3) : list thread :=
  bi ← indices g; ti ← indices b; [Thread g b bi ti].

(** [kernel<<<g, b>>>(...)] for a kernel without barriers. *)
Definition launch {S : Type} (g b : dim3) (kernel : thread -> S -> option S)
  : S -> option S :=
  run kernel (grid_threads g b).

(** [kernel<<<g, b>>>(...)] for a kernel given block by block. *)
Definition launch_blocks {S : Type} (g b : dim3)
  (body : dim3 -> dim3 -> dim3 -> S -> option S) : S -> option S :=
  run (body g b) (indices g).

(** ** Elementwise engine *)

(** The macro argument [opr] of [UNARY] is an expression over [a], [i],
    [aCols], [b] and [k]. *)
Definition unary_opr : Type :=
  (Z -> option f32) -> Z -> Z -> f32 -> f32 -> option f32.

(** The macro argument [opr] of [BINARY] stands between [a[i]] and [b[i]]:
    an expression over the value of [a[i]], [b], [i] and [aCols]. *)
Definition binary_opr : Type :=
  f32 -> (Z -> option f32) -> Z -> Z -> option f32.

Definition UNARY_Kernel_MTP (opr : unary_opr) (a : positive) (aRows aCols : Z)
  (out : positive) (k : f32) (t : thread) (m : mem) : option mem :=
  let row := dim_y (blockIdx t) * dim_y (blockDim t) + dim_y (threadIdx t) in
  let col := dim_x (blockIdx t) * dim_x (blockDim t) + dim_x (threadIdx t) in
  if decide (row < aRows /\ col < aCols) then
    let i := row * aCols + col in
    abuf ← m !! a;
    b ← load abuf i;
    let b := f32_add b (f32_of_int 0) in
    v ← opr (load abuf) i aCols b k;
    wr m out i v
  else Some m.

Definition UNARY_CUDA (opr : unary_opr) (hp : mem) (m : Matrix) (k : f32)
  : option (mem * Matrix) :=
  let a := dat m in
  let aRows := rows m in
  let aCols := cols m in
  let blockSize := Dim3 32 32 in
  let gridSize := Dim3 ((aCols + dim_x blockSize - 1) `quot` dim_x blockSize)
                       ((aRows + dim_y blockSize - 1) `quot` dim_y blockSize) in
  hp' ← launch gridSize blockSize (UNARY_Kernel_MTP opr a aRows aCols a k) hp;
  Some (hp', m).

Definition BINARY_Kernel_MTP (opr : binary_opr) (a : positive) (aRows aCols : Z)
  (b out : positive) (t : thread) (m : mem) : option mem :=
  let row := dim_y (blockIdx t) * dim_y (blockDim t) + dim_y (threadIdx t) in
  let col := dim_x (blockIdx t) * dim_x (blockDim t) + dim_x (threadIdx t) in
  if decide (row < aRows /\ col < aCols) then
    let i := row * aCols + col in
    x ← rd m a i;
    bbuf ← m !! b;
    v ← opr x (load bbuf) i aCols;
    wr m out i v
  else Some m.

Definition BINARY_CUDA (opr : binary_opr) (hp : mem) (a b : Matrix)
  : option (mem * Matrix) :=
  let blockSize := Dim3 32 32 in
  let gridSize := Dim3 ((cols a + dim_x blockSize - 1) `quot` dim_x blockSize)
                       ((rows a + dim_y blockSize - 1) `quot` dim_y blockSize) in
  hp' ← launch gridSize blockSize
          (BINARY_Kernel_MTP opr (dat a) (rows a) (cols a) (dat b) (dat a)) hp;
  Some (hp', a).

Section Operators.
Variable expf : f32 -> f32.
Variable tanh : f64 -> f64.

Definition divide_const_opr : unary_opr :=
  fun (_ : Z -> option f32) (_ _ : Z) (b k : f32) => Some (f32_div b k).
Definition add_const_opr : unary_opr :=
  fun (_ : Z -> option f32) (_ _ : Z) (b k : f32) => Some (f32_add b k).
Definition mat_isqrt_opr : unary_opr :=
  fun (_ : Z -> option f32) (_ _ : Z) (b _ : f32) =>
    Some (f32_of_f64 (f64_div (f64_of_int 1) (f64_of_f32 (f32_sqrt b)))).
Definition mat_exp_opr : unary_opr :=
  fun (_ : Z -> option f32) (_ _ : Z) (b _ : f32) => Some (expf b).
Definition broadcast_opr : unary_opr :=
  fun (a : Z -> option f32) (i aCols : Z) (_ _ : f32) => a ((i `quot` aCols) * aCols).

(** The condition [i / k < i % (int)k] of [tril]: a float division of the
    flat index by [k] against an integer remainder. *)
Definition tril_masked (i : Z) (k : f32) : option bool :=
  ki ← f32_to_int k;
  if decide (ki = 0) then None
  else Some (f32_ltb (f32_div (f32_of_int i) k) (f32_of_int (i `rem` ki))).

Definition tril_opr : unary_opr :=
  fun (_ : Z -> option f32) (i _ : Z) (b k : f32) =>
    match tril_masked i k with
    | Some masked =>
        Some (if masked then f32_of_int 0 else expf (f32_div b (f32_of_int 8)))
    | None => None
    end.

Definition GELU_opr : unary_opr :=
  fun (_ : Z -> option f32) (_ _ : Z) (b _ : f32) =>
    let b' := f64_of_f32 b in
    let cube := f64_mul (f64_mul (f64_mul (f64_lit 44715 6) b') b') b' in
    let arg := f64_mul (f64_lit 7978845 7) (f64_add b' cube) in
    Some (f32_of_f64
            (f64_mul (f64_of_f32 (f32_div b (f32_of_int 2)))
                     (f64_add (f64_of_int 1) (tanh arg)))).

Definition divide_constCUDA := UNARY_CUDA divide_const_opr.
Definition add_constCUDA := UNARY_CUDA add_const_opr.
Definition mat_isqrtCUDA := UNARY_CUDA mat_isqrt_opr.
Definition mat_expCUDA := UNARY_CUDA mat_exp_opr.
Definition broadcastCUDA := UNARY_CUDA broadcast_opr.
Definition trilCUDA := UNARY_CUDA tril_opr.
Definition GELUCUDA := UNARY_CUDA GELU_opr.

End Operators.

Definition add_opr : binary_opr :=
  fun (x : f32) (b : Z -> option f32) (i _ : Z) => y ← b i; Some (f32_add x y).
Definition multiply_opr : binary_opr :=
  fun (x : f32) (b : Z -> option f32) (i _ : Z) => y ← b i; Some (f32_mul x y).
Definition divide_opr : binary_opr :=
  fun (x : f32) (b : Z -> option f32) (i _ : Z) => y ← b i; Some (f32_div x y).

(** [BINARY(add_tile, +b[i % aCols];(void))] expands to
    [a[i] = a[i] +b[i % aCols]; (void) b[i];]: the trailing [b[i]] is a
    discarded expression and reads nothing. *)
Definition add_tile_opr : binary_opr :=
  fun (x : f32) (b : Z -> option f32) (i aCols : Z) => y ← b (i `rem` aCols); Some (f32_add x y).

Definition addCUDA := BINARY_CUDA add_opr.
Definition multiplyCUDA := BINARY_CUDA multiply_opr.
Definition divideCUDA := BINARY_CUDA divide_opr.

(** Cumulative sum of the first [n] probabilities, as the scan forms it. *)
Definition cumulative (probs : list f32) (n : nat) : f64 :=
  foldl (fun s p => f64_add s (f64_of_f32 p)) f64_zero (take n probs).

Definition uniform25 : list f32 :=
  replicate 25 (f32_div (f32_of_int 1) (f32_of_int 25)).


(** ** Reduction engine: row sum *)

(** The values of [i] in [for (int i = start; i < stop; i += step)]. *)
Fixpoint stride_loop (fuel : nat) (i stop step : Z) : list Z :=
  match fuel with
  | O => []
  | S fuel' =>
      if decide (i < stop) then i :: stride_loop fuel' (i + step) stop step
      else []
  end.

Definition for_stride (start stop step : Z) : list Z :=
  stride_loop (Z.to_nat (stop - start)) start stop step.

(** First phase of one row: the partial sum thread [tx] leaves in
    [sharedSum[tx]]. *)
Definition sum_partial (input : positive) (cols row : Z) (bdx tx : Z) (m : mem)
  : option f32 :=
  run (fun col sum => x ← rd m input (row * cols + col); Some (f32_add sum x))
      (for_stride tx cols bdx) f32_zero.

(** Second phase, thread 0 only: the serial fold of [sharedSum]. *)
Definition sum_total (sharedSum : list f32) (bdx : Z) : option f32 :=
  run (fun i totalSum => x ← load sharedSum i; Some (f32_add totalSum x))
      (seqZ 0 bdx) f32_zero.

Definition sum_row (input output : positive) (cols : Z) (bdx : Z) (row : Z)
  (m : mem) : option mem :=
  sharedSum ← mapM (fun tx => sum_partial input cols row bdx tx m) (seqZ 0 bdx);
  totalSum ← sum_total sharedSum bdx;
  wr m output (row * cols) totalSum.

(** One block of [sumCudaKernel]: the grid-stride loop over rows. *)
Definition sumCudaKernel (input output : positive) (rows cols : Z)
  (g b bi : dim3) (m : mem) : option mem :=
  run (sum_row input output cols (dim_x b))
      (for_stride (dim_x bi) rows (dim_x g)) m.

Definition sumCUDA (hp : mem) (a out : Matrix) : option mem :=
  let dimBlock := Dim3 256 1 in
  let dimGrid := Dim3 128 1 in
  launch_blocks dimGrid dimBlock
    (sumCudaKernel (dat a) (dat out) (rows a) (cols a)) hp.

(** Row [r] of a row-major buffer with [cols] columns. *)
Definition row_of (buf : list f32) (cols r : Z) : list f32 :=
  take (Z.to_nat cols) (drop (Z.to_nat (r * cols)) buf).

(** [sum_of add zero l v]: [v] is a sum of exactly the elements of [l],
    each taken once, added in some order and with some bracketing. *)
Inductive sum_of {A : Type} (add : A -> A -> A) (zero : A) : list A -> A -> Prop :=
  | sum_of_nil : sum_of add zero [] zero
  | sum_of_one (x : A) : sum_of add zero [x] x
  | sum_of_add (l1 l2 : list A) (a b : A) :
      sum_of add zero l1 a -> sum_of add zero l2 b ->
      sum_of add zero (l1 ++ l2) (add a b)
  | sum_of_perm (l l' : list A) (a : A) :
      l ≡ₚ l' -> sum_of add zero l a -> sum_of add zero l' a.

(** The value [sumCudaKernel] forms for row [r]: [bdx] strided partial
    sums, folded from left to right. *)
Definition row_partial (ci : list f32) (cols r bdx t : Z) : f32 :=
  foldl (fun s col => f32_add s (default f32_zero (ci !! Z.to_nat (r * cols + col))))
        f32_zero (for_stride t cols bdx).

Definition row_total (ci : list f32) (cols r bdx : Z) : f32 :=
  foldl (fun s t => f32_add s (row_partial ci cols r bdx t)) f32_zero (seqZ 0 bdx).

(** ** Matrix-multiply engine *)

Definition matMulCudaKernelNaive (fmad : bool) (A B C : positive)
  (aRows aCols bRows : Z) (t : thread) (m : mem) : option mem :=
  let row := dim_y (blockIdx t) * dim_y (blockDim t) + dim_y (threadIdx t) in
  let col := dim_x (blockIdx t) * dim_x (blockDim t) + dim_x (threadIdx t) in
  if decide (row < aRows /\ col < bRows) then
    value ← run (fun k value =>
                   x ← rd m A (row * aCols + k);
                   y ← rd m B (col * aCols + k);
                   Some (f32_mac fmad value x y))
                (seqZ 0 aCols) f32_zero;
    wr m C (row * bRows + col) value
  else Some m.

(** [cudaMemcpy] of [n] floats out of, and into, a host buffer. *)
Definition memcpy_from (hp : mem) (p : positive) (n : Z) : option (list f32) :=
  buf ← hp !! p;
  if decide (0 <= n <= Z.of_nat (length buf)) then Some (take (Z.to_nat n) buf)
  else None.

Definition memcpy_to (hp : mem) (p : positive) (src : list f32) (n : Z)
  : option mem :=
  buf ← hp !! p;
  if decide (0 <= n <= Z.of_nat (length buf) /\ n <= Z.of_nat (length src))
  then Some (<[p := take (Z.to_nat n) src ++ drop (Z.to_nat n) buf]> hp)
  else None.

(** The device buffers of [matMulCUDANaive]. *)
Definition d_A : positive := 1.
Definition d_B : positive := 2.
Definition d_C : positive := 3.

(** [junk] is what [cudaMalloc] happens to hand out for [d_C]. *)
Definition matMulCUDANaive (fmad : bool) (junk : list f32) (hp : mem)
  (a : positive) (aRows aCols : Z) (b : positive) (bRows bCols : Z)
  (out : positive) : option mem :=
  let sizeA := aRows * aCols in
  let sizeB := bRows * bCols in
  let sizeC := aRows * bRows in
  dA ← memcpy_from hp a sizeA;
  dB ← memcpy_from hp b sizeB;
  let dev : mem :=
    <[d_A := dA]> (<[d_B := dB]> {[ d_C := resize (Z.to_nat sizeC) f32_zero junk ]}) in
  let dimBlock := Dim3 32 32 in
  let dimGrid := Dim3 (CEIL_DIV bRows 32) (CEIL_DIV aRows 32) in
  dev' ← launch dimGrid dimBlock
           (matMulCudaKernelNaive fmad d_A d_B d_C aRows aCols bRows) dev;
  dC ← dev' !! d_C;
  memcpy_to hp out dC sizeC.

Definition TILE_SIZE : Z := 32.

(** A [__shared__ float [TILE_SIZE][TILE_SIZE]] array, by [(y, x)]. *)
Abbreviation tile := (gmap (Z * Z) f32).

(** Load phase of iteration [mi]: every thread of the block stores one
    element of [As] and one of [Bs]. *)
Definition load_tiles (A B : positive) (aRows aCols bRows : Z)
  (b bi : dim3) (mi : Z) (m : mem) : option (tile * tile) :=
  run (fun (ti : dim3) (tiles : tile * tile) =>
         let row := dim_y bi * dim_y b + dim_y ti in
         let col := dim_x bi * dim_x b + dim_x ti in
         av ← (if decide (mi * TILE_SIZE + dim_x ti < aCols /\ row < aRows)
               then rd m A (row * aCols + mi * TILE_SIZE + dim_x ti)
               else Some f32_zero);
         bv ← (if decide (mi * TILE_SIZE + dim_y ti < aCols /\ col < bRows)
               then rd m B (col * aCols + mi * TILE_SIZE + dim_y ti)
               else Some f32_zero);
         Some (<[(dim_y ti, dim_x ti) := av]> (fst tiles),
               <[(dim_y ti, dim_x ti) := bv]> (snd tiles)))
      (indices b) (∅, ∅).

(** Compute phase for one thread: [value += As[ty][k] * Bs[k][tx]]. *)
Definition tile_dot (fmad : bool) (As Bs : tile) (ti : dim3) (value : f32)
  : option f32 :=
  run (fun k value =>
         x ← As !! (dim_y ti, k);
         y ← Bs !! (k, dim_x ti);
         Some (f32_mac fmad value x y))
      (seqZ 0 TILE_SIZE) value.

(** One iteration of the loop over tiles, for a whole block; [values] holds
    the register [value] of every thread, in the order of [indices b]. *)
Definition tile_step (fmad : bool) (A B : positive) (aRows aCols bRows : Z)
  (b bi : dim3) (m : mem) (mi : Z) (values : list f32) : option (list f32) :=
  tiles ← load_tiles A B aRows aCols bRows b bi mi m;
  mapM (fun tv : dim3 * f32 =>
          tile_dot fmad (fst tiles) (snd tiles) (fst tv) (snd tv))
       (zip (indices b) values).

Definition matMulCudaKernelOptimized (fmad : bool) (A B C : positive)
  (aRows aCols bRows : Z) (g b bi : dim3) (m : mem) : option mem :=
  values ← run (tile_step fmad A B aRows aCols bRows b bi m)
               (seqZ 0 ((aCols - 1) `quot` TILE_SIZE + 1))
               ((fun _ => f32_zero) <$> indices b);
  run (fun (tv : dim3 * f32) (m : mem) =>
         let row := dim_y bi * dim_y b + dim_y (fst tv) in
         let col := dim_x bi * dim_x b + dim_x (fst tv) in
         if decide (row < aRows /\ col < bRows)
         then wr m C (row * bRows + col) (snd tv)
         else Some m)
      (zip (indices b) values) m.

(** [bCols] is accepted and never used. *)
Definition matMulCUDA (fmad : bool) (hp : mem) (a : positive) (aRows aCols : Z)
  (b : positive) (bRows bCols : Z) (out : positive) : option mem :=
  let dimBlock := Dim3 32 32 in
  let dimGrid := Dim3 (CEIL_DIV bRows 32) (CEIL_DIV aRows 32) in
  launch_blocks dimGrid dimBlock
    (matMulCudaKernelOptimized fmad a b out aRows aCols bRows) hp.

(** The dot product of two rows, accumulated from left to right as the
    device does. *)
Definition dot (fmad : bool) (u v : list f32) : f32 :=
  foldl (fun acc xy => f32_mac fmad acc (fst xy) (snd xy)) f32_zero (zip u v).

(** What the zero-filled elements of a partial last tile make of the sum [d]
    of [aCols] products: each of them accumulates [0 * 0]. *)
Definition zero_filled (aCols : Z) (d : f32) : f32 :=
  if decide (aCols `rem` TILE_SIZE = 0) then d else f32_add d f32_zero.

(** ** Facts about accumulators *)

(** A finite value whose exponent is not below the smallest exponent of the
    format, as every result of a rounding is. *)
Definition exp_ok (prec emax : Z) (x : spec_float) : Prop :=
  match x with S754_finite _ _ e => emin prec emax <= e | _ => True end.

(** An accumulator that is not the negative zero. *)
Definition f32_safe (x : f32) : Prop := exp_ok 24 128 x /\ x <> S754_zero true.

(** [C[i][j]] as the kernels accumulate it, by index. *)
Definition dot_cell (fmad : bool) (ca cb : list f32) (aCols i j : Z) : f32 :=
  foldl (fun v k =>
           f32_mac fmad v (default f32_zero (ca !! Z.to_nat (i * aCols + k)))
                          (default f32_zero (cb !! Z.to_nat (j * aCols + k))))
        f32_zero (seqZ 0 aCols).

(** The element thread [(ty, x)] of block row [row] loads into [As[ty][x]]
    at iteration [mi], and likewise for [Bs[y][tx]]: zero outside the
    matrix. *)
Definition As_val (ca : list f32) (aRows aCols mi row x : Z) : f32 :=
  if decide (mi * TILE_SIZE + x < aCols /\ row < aRows)
  then default f32_zero (ca !! Z.to_nat (row * aCols + mi * TILE_SIZE + x))
  else f32_zero.

Definition Bs_val (cb : list f32) (bRows aCols mi col y : Z) : f32 :=
  if decide (mi * TILE_SIZE + y < aCols /\ col < bRows)
  then default f32_zero (cb !! Z.to_nat (col * aCols + mi * TILE_SIZE + y))
  else f32_zero.

(** What one iteration adds to the register of the thread at [(row, col)]. *)
Definition tile_acc (fmad : bool) (ca cb : list f32)
  (aRows aCols bRows row col mi : Z) (v : f32) : f32 :=
  foldl (fun v k => f32_mac fmad v (As_val ca aRows aCols mi row k)
                                   (Bs_val cb bRows aCols mi col k))
        v (seqZ 0 TILE_SIZE).

(** The register of the thread at [(row, col)] after the loop over tiles. *)
Definition tiled_value (fmad : bool) (ca cb : list f32)
  (aRows aCols bRows row col : Z) : f32 :=
  foldl (fun v mi => tile_acc fmad ca cb aRows aCols bRows row col mi v)
        f32_zero (seqZ 0 ((aCols - 1) `quot` TILE_SIZE + 1)).

(** The last statement of the tiled kernel, as a kernel of its own. *)
Definition store_tiled (fmad : bool) (ca cb : list f32) (C : positive)
  (aRows aCols bRows : Z) (t : thread) (m : mem) : option mem :=
  let row := dim_y (blockIdx t) * dim_y (blockDim t) + dim_y (threadIdx t) in
  let col := dim_x (blockIdx t) * dim_x (blockDim t) + dim_x (threadIdx t) in
  if decide (row < aRows /\ col < bRows)
  then wr m C (row * bRows + col) (tiled_value fmad ca cb aRows aCols bRows row col)
  else Some m.

(** ** Concrete stores used in the examples *)

(** A = [[1,2,3],[4,5,6]] at 1, B at 2 and an [out] of 2 x 4 cells at 3. *)
Definition mm_store (b : list Z) : mem :=
  {[ 1%positive := f32_of_int <$> [1; 2; 3; 4; 5; 6];
     2%positive := f32_of_int <$> b;
     3%positive := f32_of_int <$> [9; 9; 9; 9; 9; 9; 9; 9] ]}.

(** A = [[2^-100]] at 1, B = [[-2^-100]] at 2 and an [out] of one cell at 3:
    the product is too small for a [float]. *)
Definition mm_tiny_store : mem :=
  {[ 1%positive := [S754_finite false (2 ^ 23) (-123)];
     2%positive := [S754_finite true (2 ^ 23) (-123)];
     3%positive := [f32_of_int 9] ]}.

(** B as 4 rows of 3, of 2 and of 4 columns. *)
Definition mm_B3 : list Z := [1; 0; 1; 0; 1; 0; 1; 1; 1; 2; 2; 2].
Definition mm_B2 : list Z := [1; 0; 0; 1; 1; 1; 2; 2].
Definition mm_B4 : list Z := [1; 0; 1; 0; 0; 1; 0; 1; 1; 1; 1; 1; 2; 2; 2; 2].

(** ** Transpose engine *)

Definition TILE_DIM : Z := 64.

(** [if (yIndex + j < rows) tile[localY * 4 + j][localX] = input[...]] *)
Definition transpose_read (input : positive) (rows cols : Z) (bi ti : dim3)
  (m : mem) (j : Z) (tl : tile) : option tile :=
  let xIndex := dim_x bi * TILE_DIM + dim_x ti in
  let yIndex := dim_y bi * TILE_DIM + 4 * dim_y ti in
  let localX := dim_x ti in
  let localY := dim_y ti in
  if decide (yIndex + j < rows) then
    v ← rd m input (xIndex + (yIndex + j) * cols);
    Some (<[(localY * 4 + j, localX) := v]> tl)
  else Some tl.

(** First phase of a thread: the four guarded reads. *)
Definition transpose_load (input : positive) (rows cols : Z) (bi : dim3)
  (m : mem) (ti : dim3) (tl : tile) : option tile :=
  let xIndex := dim_x bi * TILE_DIM + dim_x ti in
  if decide (xIndex < cols)
  then run (transpose_read input rows cols bi ti m) [0; 1; 2; 3] tl
  else Some tl.

(** [if (yIndex + j < cols) output[(yIndex + j) * rows + xIndex]
      = tile[localX][localY * 4 + j]] *)
Definition transpose_write (output : positive) (rows cols : Z) (bi ti : dim3)
  (tl : tile) (j : Z) (m : mem) : option mem :=
  let xIndex := dim_y bi * TILE_DIM + dim_x ti in
  let yIndex := dim_x bi * TILE_DIM + 4 * dim_y ti in
  let localX := dim_x ti in
  let localY := dim_y ti in
  if decide (yIndex + j < cols) then
    v ← tl !! (localX, localY * 4 + j);
    wr m output ((yIndex + j) * rows + xIndex) v
  else Some m.

(** Second phase of a thread: the four guarded writes. *)
Definition transpose_store (output : positive) (rows cols : Z) (bi : dim3)
  (tl : tile) (ti : dim3) (m : mem) : option mem :=
  let xIndex := dim_y bi * TILE_DIM + dim_x ti in
  if decide (xIndex < rows)
  then run (transpose_write output rows cols bi ti tl) [0; 1; 2; 3] m
  else Some m.

(** One block of [transposeKernel]: load, barrier, store. *)
Definition transposeKernel (input output : positive) (rows cols : Z)
  (g b bi : dim3) (m : mem) : option mem :=
  tl ← run (transpose_load input rows cols bi m) (indices b) ∅;
  run (transpose_store output rows cols bi tl) (indices b) m.

Definition transposeCUDA (hp : mem) (a out : Matrix) : option mem :=
  let dimBlock := Dim3 TILE_DIM (TILE_DIM `quot` 4) in
  let dimGrid := Dim3 (CEIL_DIV (cols a) TILE_DIM) (CEIL_DIV (rows a) TILE_DIM) in
  launch_blocks dimGrid dimBlock
    (transposeKernel (dat a) (dat out) (rows a) (cols a)) hp.

(** The element of [input] that ends up in [tile[y][x]] of block [bi]. *)
Definition tile_val (ci : list f32) (cols : Z) (bi : dim3) (yx : Z * Z) : f32 :=
  default f32_zero
    (ci !! Z.to_nat ((dim_x bi * TILE_DIM + snd yx)
                     + (dim_y bi * TILE_DIM + fst yx) * cols)).

(** One guarded read, and one guarded write, of a thread. *)
Definition transpose_read1 (input : positive) (rows cols : Z) (bi : dim3)
  (m : mem) (tj : dim3 * Z) (tl : tile) : option tile :=
  if decide (dim_x bi * TILE_DIM + dim_x (fst tj) < cols)
  then transpose_read input rows cols bi (fst tj) m (snd tj) tl
  else Some tl.

Definition transpose_write1 (ci : list f32) (output : positive) (rows cols : Z)
  (btj : dim3 * (dim3 * Z)) (m : mem) : option mem :=
  let bi := fst btj in
  let ti := fst (snd btj) in
  let j := snd (snd btj) in
  let r := dim_y bi * TILE_DIM + dim_x ti in
  let c := dim_x bi * TILE_DIM + 4 * dim_y ti + j in
  if decide (r < rows /\ c < cols)
  then wr m output (c * rows + r) (default f32_zero (ci !! Z.to_nat (c + r * cols)))
  else Some m.

(** The threads of a block, each with its four statements. *)
Definition thread_statements (b : dim3) : list (dim3 * Z) :=
  indices b ≫= fun ti => pair ti <$> seqZ 0 4.

(** A 2 x 3 input at 1, its 3 x 2 transpose at 2 and a third buffer at 3. *)
Definition ex_store : mem :=
  {[ 1%positive := f32_of_int <$> [1; 2; 3; 4; 5; 6];
     2%positive := f32_of_int <$> [0; 7; 7; 0; 7; 7];
     3%positive := f32_of_int <$> [8; 8; 8; 8; 8; 8] ]}.
Definition ex_M : Matrix := {| dat := 1; rows := 2; cols := 3 |}.
Definition ex_out : Matrix := {| dat := 2; rows := 2; cols := 3 |}.
Definition ex_T : Matrix := {| dat := 2; rows := 3; cols := 2 |}.
Definition ex_back : Matrix := {| dat := 3; rows := 2; cols := 3 |}.

(** ** CPU reference of the elementwise engine *)

(** [Matrix fn(Matrix a, float k) { LOOP(i, a.rows * a.cols) { float b =
    a.dat[i]; a.dat[i] = opr; } return a; }] *)
Definition UNARY_cpu (opr : unary_opr) (hp : mem) (a : Matrix) (k : f32)
  : option (mem * Matrix) :=
  hp' ← run (fun i m =>
               abuf ← m !! dat a;
               b ← load abuf i;
               v ← opr (load abuf) i (cols a) b k;
               wr m (dat a) i v)
            (seqZ 0 (rows a * cols a)) hp;
  Some (hp', a).

(** [Matrix fn(Matrix a, Matrix b) { LOOP(i, a.rows * a.cols) { a.dat[i] =
    a.dat[i] opr b.dat[i]; } return a; }] *)
Definition BINARY_cpu (opr : binary_opr) (hp : mem) (a b : Matrix)
  : option (mem * Matrix) :=
  hp' ← run (fun i m =>
               x ← rd m (dat a) i;
               bbuf ← m !! dat b;
               v ← opr x (load bbuf) i (cols a);
               wr m (dat a) i v)
            (seqZ 0 (rows a * cols a)) hp;
  Some (hp', a).

Definition broadcast := UNARY_cpu broadcast_opr.
Definition tril (expf : f32 -> f32) := UNARY_cpu (tril_opr expf).

(** ** Predicates and values used in the statements *)

(** What a wrapper may change: only the contents, not the size, of the
    buffer [p]. *)
Definition only_buffer (p : positive) (n : nat) (hp hp' : mem) : Prop :=
  (forall q, q ≠ p -> hp' !! q = hp !! q) /\
  (exists c, hp' !! p = Some c /\ length c = n).

(** A buffer met during a run that fills cells: every cell holds its initial
    or its final value. *)
Definition midway {T : Type} (c0 : list f32) (g : T -> bool) (idx : T -> nat)
  (final : T -> f32) (ts : list T) (c : list f32) : Prop :=
  length c = length c0 /\
  forall j, c !! j = c0 !! j \/
            exists t, t ∈ ts /\ g t = true /\ idx t = j /\ c !! j = Some (final t).

(** Row and column of the cell a thread of a two-dimensional launch is in
    charge of. *)
Definition thread_row (t : thread) : Z :=
  dim_y (blockIdx t) * dim_y (blockDim t) + dim_y (threadIdx t).
Definition thread_col (t : thread) : Z :=
  dim_x (blockIdx t) * dim_x (blockDim t) + dim_x (threadIdx t).

(** The thread in charge of cell [(r, c)]. *)
Definition thread_of (g b : dim3) (r c : Z) : thread :=
  Thread g b (Dim3 (c `div` dim_x b) (r `div` dim_y b))
             (Dim3 (c `mod` dim_x b) (r `mod` dim_y b)).

(** The same, for a matrix filled cell by cell with [val r c]. *)
Definition cells_midway (R C : Z) (c0 : list f32) (val : Z -> Z -> f32)
  (c : list f32) : Prop :=
  length c = length c0 /\
  forall r c', 0 <= r < R -> 0 <= c' < C ->
    c !! Z.to_nat (r * C + c') = c0 !! Z.to_nat (r * C + c')
    \/ c !! Z.to_nat (r * C + c') = Some (val r c').



(** The document's reading of the mask: [row / k < col mod k] on the
    coordinates of the entry. *)
Definition tril_masked_spec (row col : Z) (k : f32) : option bool :=
  ki ← f32_to_int k;
  if decide (ki = 0) then None
  else Some (f32_ltb (f32_div (f32_of_int row) k) (f32_of_int (col `rem` ki))).

Definition tril_M : Matrix := {| dat := 1; rows := 2; cols := 2 |}.
Definition tril_hp : mem := {[ 1%positive := f32_of_int <$> [1; 2; 3; 4] ]}.

(** The statements of the whole grid. *)
Definition grid_statements (g b : dim3) : list (dim3 * (dim3 * Z)) :=
  indices g ≫= fun bi => pair bi <$> thread_statements b.

(** ** CPU reference of the plain operators *)

Definition divide_const := UNARY_cpu divide_const_opr.
Definition add_const := UNARY_cpu add_const_opr.
Definition mat_isqrt := UNARY_cpu mat_isqrt_opr.
Definition add := BINARY_cpu add_opr.
Definition multiply := BINARY_cpu multiply_opr.
Definition divide := BINARY_cpu divide_opr.

(** [b += 0] of the GPU kernels. *)
Definition plus_zero (x : f32) : f32 := f32_add x (f32_of_int 0).

(** A 2 x 2 matrix at 1 and another at 2, for an in-place product. *)
Definition sq_store : mem :=
  {[ 1%positive := f32_of_int <$> [1; 2; 3; 4];
     2%positive := f32_of_int <$> [1; 0; 1; 1] ]}.

(** ** CPU reference of the transpose, and the transpose with transfers *)

(** [for (i < rows * cols) output[i % cols * rows + i / cols] = input[i];] *)
Definition transposeCPU (hp : mem) (input output : positive) (rows cols : Z)
  : option mem :=
  run (fun i m =>
         v ← rd m input i;
         wr m output (i `rem` cols * rows + i `quot` cols) v)
      (seqZ 0 (rows * cols)) hp.

(** The device buffers of [transposeCUDA_util]. *)
Definition d_input : positive := 1.
Definition d_output : positive := 2.

(** [junk] is what [cudaMalloc] happens to hand out for [d_output]. *)
Definition transposeCUDA_util (junk : list f32) (hp : mem) (a out : Matrix)
  : option mem :=
  let size := rows a * cols a in
  dIn ← memcpy_from hp (dat a) size;
  let dev : mem :=
    <[d_input := dIn]> {[ d_output := resize (Z.to_nat size) f32_zero junk ]} in
  let dimBlock := Dim3 TILE_DIM (TILE_DIM `quot` 4) in
  let dimGrid := Dim3 (CEIL_DIV (cols a) TILE_DIM) (CEIL_DIV (rows a) TILE_DIM) in
  dev' ← launch_blocks dimGrid dimBlock
           (transposeKernel d_input d_output (rows a) (cols a)) dev;
  dOut ← dev' !! d_output;
  memcpy_to hp (dat out) dOut size.

(** ** CPU reference of the reductions and of the product *)

(** [(size_t) z] for an [int] z. *)
Definition size_t_of_int (z : Z) : Z := if decide (0 <= z) then z else z + 2 ^ 64.

(** [for (size_t i = 0; i < rows * cols; i++) output[(i/cols)*cols] += input[i];]
    followed by [broadcast(out, 0)].  The index is formed in [size_t]; it
    never exceeds [i], so it does not wrap. *)
Definition sumCPU (hp : mem) (input output : positive) (rows cols : Z)
  : option mem :=
  hp' ← run (fun i m =>
               let k := i `div` size_t_of_int cols * size_t_of_int cols in
               o ← rd m output k;
               x ← rd m input i;
               wr m output k (f32_add o x))
            (seqZ 0 (size_t_of_int (rows * cols))) hp;
  fst <$> broadcast hp' {| dat := output; rows := rows; cols := cols |} (f32_of_int 0).

(** [out[i * bRows + j + j2] += a[i * aCols + k + k2] * b[(j + j2) * bCols + k + k2]]
    inside the five loops of [matMulCPU] ([GOFAST] is not defined). *)
Definition matMulCPU (hp : mem) (a : positive) (aRows aCols : Z)
  (b : positive) (bRows bCols : Z) (out : positive) : option mem :=
  run (fun i =>
    run (fun j =>
      run (fun k =>
        run (fun k2 =>
          run (fun j2 m =>
                 o ← rd m out (i * bRows + j + j2);
                 x ← rd m a (i * aCols + k + k2);
                 y ← rd m b ((j + j2) * bCols + k + k2);
                 wr m out (i * bRows + j + j2) (f32_add o (f32_mul x y)))
              (seqZ 0 4))
            (seqZ 0 4))
          (for_stride 0 aCols 4))
        (for_stride 0 bRows 4))
      (seqZ 0 aRows) hp.

(** A buffer after the read-modify-write steps [c[key t] = h t c[key t]],
    for [t] along [l]. *)
Definition accumulate {T : Type} (key : T -> nat) (h : T -> f32 -> f32)
  (c : list f32) (l : list T) : list f32 :=
  foldl (fun c t => <[key t := h t (default f32_zero (c !! key t))]> c) c l.

(** The steps of [matMulCPU], in order: the row, the column of [out] and
    the column of [a]. *)
Definition matMulCPU_steps (aRows aCols bRows : Z) : list (Z * Z * Z) :=
  seqZ 0 aRows ≫= fun i =>
  for_stride 0 bRows 4 ≫= fun j =>
  for_stride 0 aCols 4 ≫= fun k =>
  seqZ 0 4 ≫= fun k2 =>
  seqZ 0 4 ≫= fun j2 => [(i, j + j2, k + k2)].

(** [A] = [[1,2,3,4],[5,6,7,8]] at 1, [B] (4 rows of 4) at 2 and a zeroed
    [out] of 2 x 4 cells at 3. *)
Definition mm4_store : mem :=
  {[ 1%positive := f32_of_int <$> [1; 2; 3; 4; 5; 6; 7; 8];
     2%positive := f32_of_int <$> [1; 0; 0; 0; 0; 1; 0; 0; 0; 0; 1; 0; 1; 1; 1; 1];
     3%positive := f32_of_int <$> [0; 0; 0; 0; 0; 0; 0; 0] ]}.

(** ** Embedding gather *)

(** [output] is the array of token ids; of the three descriptors only [dat]
    is used, and the positional table is read with the fixed stride 1024. *)
Definition embeddingsKernel (line wpe : Matrix) (output : list Z)
  (num_total_tokens DIM : Z) (wte : Matrix) (t : thread) (m : mem) : option mem :=
  let idx := dim_x (blockIdx t) * dim_x (blockDim t) + dim_x (threadIdx t) in
  if decide (DIM = 0) then None else
  let i := idx `quot` DIM in
  let j := idx `rem` DIM in
  if decide (idx < num_total_tokens * DIM) then
    tok ← (if decide (0 <= i) then output !! Z.to_nat i else None);
    x ← rd m (dat wte) (tok * DIM + j);
    y ← rd m (dat wpe) (j * 1024 + i);
    wr m (dat line) (i * DIM + j) (f32_add x y)
  else Some m.

Definition embeddingsCUDA (hp : mem) (line wte wpe : Matrix) (output : list Z)
  (num_total_tokens DIM : Z) : option mem :=
  let threadsPerBlock := 1024 in
  let numBlocks := CEIL_DIV (num_total_tokens * DIM) threadsPerBlock in
  launch (Dim3 numBlocks 1) (Dim3 threadsPerBlock 1)
    (embeddingsKernel line wpe output num_total_tokens DIM wte) hp.

(** Two tokens of dimension 2: an output [line] at 1, a word table of three
    rows at 2 and a positional table at 3. *)
Definition emb_store : mem :=
  {[ 1%positive := f32_of_int <$> [9; 9; 9; 9; 9];
     2%positive := f32_of_int <$> [10; 11; 20; 21; 30; 31];
     3%positive := f32_of_int <$> replicate 1026 1 ]}.
Definition emb_line : Matrix := {| dat := 1; rows := 2; cols := 2 |}.
Definition emb_wte : Matrix := {| dat := 2; rows := 3; cols := 2 |}.
Definition emb_wpe : Matrix := {| dat := 3; rows := 2; cols := 1024 |}.

(** ** The comparison used by the tests *)

Definition f32_sub : f32 -> f32 -> f32 := SFsub 24 128.
Definition f32_abs : f32 -> f32 := SFabs.

(** [x > y] on doubles (false when either is NaN). *)
Definition f64_gtb (x y : f64) : bool := SFltb y x.

(** The loop of [compareMatrices], which returns [false] at the first pair
    of entries with [fabs(a[i] - b[i]) > 1e-2]. *)
Fixpoint compare_scan (hp : mem) (a b : positive) (idxs : list Z) : option bool :=
  match idxs with
  | [] => Some true
  | i :: rest =>
      x ← rd hp a i;
      y ← rd hp b i;
      if f64_gtb (f64_of_f32 (f32_abs (f32_sub x y))) (f64_lit 1 2) then Some false
      else compare_scan hp a b rest
  end.

Definition compareMatrices (hp : mem) (a b : positive) (rows cols : Z)
  : option bool :=
  compare_scan hp a b (seqZ 0 (rows * cols)).

(** Two buffers that differ wherever one of them holds a NaN. *)
Definition nan_store : mem :=
  {[ 1%positive := [f32_of_int 1; S754_nan; S754_infinity false; f32_of_int 4];
     2%positive := [f32_of_int 1; f32_of_int 7; S754_infinity false; S754_nan] ]}.

(** ** Reduction engine: global max *)

(** [__int_as_float]: the float with the 32-bit pattern [bits]. *)
Definition int_as_float (bits : Z) : f32 :=
  let s := Z.testbit bits 31 in
  let e := Z.land (Z.shiftr bits 23) 255 in
  let m := Z.land bits (2 ^ 23 - 1) in
  if decide (e = 255) then (if decide (m = 0) then S754_infinity s else S754_nan)
  else if decide (e = 0) then
    match m with Z.pos p => S754_finite s p (-149) | _ => S754_zero s end
  else
    match 2 ^ 23 + m with Z.pos p => S754_finite s p (e - 150) | _ => S754_nan end.

(** The float [cudaMemset(p, value, sizeof(float))] leaves at [p]: each of
    its four bytes is [(unsigned char) value]. *)
Definition memset_float (value : Z) : f32 :=
  let byte := value `mod` 256 in
  int_as_float (byte + byte * 2 ^ 8 + byte * 2 ^ 16 + byte * 2 ^ 24).

Section FindMax.
Variable fmaxf : f32 -> f32 -> f32.

(** The grid-stride loop of one thread: [localMax] over the entries
    [start], [start + stride], ... below [length].  The comparison
    [thread_idx < length] is unsigned, so a negative [length] sends the
    loop past every buffer. *)
Definition findMax_local (out_data : positive) (length start stride : Z) (m : mem)
  : option f32 :=
  if decide (length < 0) then None
  else run (fun thread_idx localMax =>
              x ← rd m out_data thread_idx; Some (fmaxf localMax x))
           (for_stride start length stride) (S754_infinity true).

(** The values of [s] in [for (uint s = blockDim.x / 2; s > 0; s >>= 1)]. *)
Fixpoint halvings (fuel : nat) (s : Z) : list Z :=
  match fuel with
  | O => []
  | S fuel' => if decide (0 < s) then s :: halvings fuel' (s `div` 2) else []
  end.

(** One round of the tree reduction, for all threads of the block:
    [if (tid < s) sdata[tid] = fmaxf(sdata[tid], sdata[tid + s]);] *)
Definition findMax_round (bdx s : Z) (sdata : list f32) : option (list f32) :=
  run (fun tid sdata =>
         if decide (tid < s) then
           x ← load sdata tid; y ← load sdata (tid + s);
           store sdata tid (fmaxf x y)
         else Some sdata)
      (seqZ 0 bdx) sdata.

(** [atomicMax(address, val)]: with the blocks run one after the other the
    compare-and-swap succeeds at its first attempt, and the float goes
    through its bit pattern unchanged. *)
Definition atomicMax (address : positive) (val : f32) (m : mem) : option mem :=
  old ← rd m address 0;
  wr m address 0 (fmaxf val old).

(** One block of [findMaxKernel]. *)
Definition findMaxKernel (out_data max_abs_val : positive) (length : Z)
  (g b bi : dim3) (m : mem) : option mem :=
  sdata ← mapM (fun tx => findMax_local out_data length
                            (dim_x b * dim_x bi + tx) (dim_x b * dim_x g) m)
               (seqZ 0 (dim_x b));
  sdata ← run (findMax_round (dim_x b))
              (halvings (Z.to_nat (dim_x b)) (dim_x b `div` 2)) sdata;
  v ← load sdata 0;
  atomicMax max_abs_val v m.

End FindMax.

(** ** Softmax sampler *)

(** [cudaMalloc]: a pointer that is not in use, to a buffer with whatever
    the memory held. *)
Definition cudaMalloc (hp : mem) (contents : list f32) : positive * mem :=
  let p := fresh (dom hp) in (p, <[p := contents]> hp).

(** [dev_max_val] is allocated and filled by [cudaMemset]; [junk] is what
    [cudaMalloc] hands out for [dev_sum], and [r] the draw
    [(double) rand() / RAND_MAX]; the index the sampler copies to [*out] is
    returned.  None of the device buffers is freed. *)
Definition softmaxSampleCUDA (expf : f32 -> f32) (fmaxf : f32 -> f32 -> f32)
  (junk : f32) (r : f64) (hp : mem) (a : Matrix) : option (mem * Z) :=
  let dimBlock := Dim3 256 1 in
  let dimGrid := Dim3 128 1 in
  let (dev_max_val, hp) := cudaMalloc hp [memset_float (-10000)] in
  hp ← launch_blocks dimGrid dimBlock
         (findMaxKernel fmaxf (dat a) dev_max_val (cols a)) hp;
  max_val ← rd hp dev_max_val 0;
  r1 ← add_constCUDA hp a (f32_of_f64 (f64_mul (f64_of_int (-1)) (f64_of_f32 max_val)));
  r2 ← mat_expCUDA expf r1.1 a (f32_of_int 1);
  let (dev_sum, hp) := cudaMalloc r2.1 [junk] in
  hp ← launch_blocks dimGrid dimBlock
         (sumCudaKernel (dat a) dev_sum (rows a) (cols a)) hp;
  sum ← rd hp dev_sum 0;
  r3 ← divide_constCUDA hp a sum;
  probs ← r3.1 !! dat a;
  out ← weightedSampleKernel probs r (cols a);
  Some (r3.1, out).

(** What the sampler leaves in the row: [exp(x - max) / sum], with the
    [+ 0] of every kernel on the way. *)
Definition softmax_exp (expf : f32 -> f32) (max_val x : f32) : f32 :=
  expf (plus_zero (f32_add (plus_zero x)
          (f32_of_f64 (f64_mul (f64_of_int (-1)) (f64_of_f32 max_val))))).

Definition softmax_prob (expf : f32 -> f32) (max_val sum x : f32) : f32 :=
  f32_div (plus_zero (softmax_exp expf max_val x)) sum.

(** A row of three logits at 1. *)
Definition sm_store : mem := {[ 1%positive := f32_of_int <$> [1; 2; 3] ]}.
Definition sm_row : Matrix := {| dat := 1; rows := 1; cols := 3 |}.
Definition sm_two_rows : Matrix := {| dat := 1; rows := 3; cols := 1 |}.

(** ** More stores used in the examples *)

(** A row holding a negative zero at 1. *)
Definition nz_store : mem := {[ 1%positive := [S754_zero true; f32_of_int 4] ]}.
Definition nz_M : Matrix := {| dat := 1; rows := 1; cols := 2 |}.

(** A row at 1 and an accumulator at 2. *)
Definition fm_store : mem :=
  {[ 1%positive := f32_of_int <$> [1; 2; 3]; 2%positive := [f32_of_int 0] ]}.

(** ** An instance of [fmaxf] *)

(** The order of the floats with NaN below everything and the two zeros
    level. *)
Definition f32_le (x y : f32) : bool :=
  match x with
  | S754_nan => true
  | _ => match SFcompare x y with Some Lt | Some Eq => true | _ => false end
  end.

(** The larger of two floats; a NaN counts as a missing value. *)
Definition fmax_num (x y : f32) : f32 := if f32_le x y then y else x.

(** The place of a float in that order. *)
Definition f32_key (x : f32) : Z * Z * Z :=
  match x with
  | S754_nan => (0, 0, 0)
  | S754_infinity true => (1, 0, 0)
  | S754_finite true m e => (2, - e, - Z.pos m)
  | S754_zero _ => (3, 0, 0)
  | S754_finite false m e => (4, e, Z.pos m)
  | S754_infinity false => (5, 0, 0)
  end.

Definition lex_le (a b : Z * Z * Z) : Prop :=
  a.1.1 < b.1.1
  \/ (a.1.1 = b.1.1 /\ (a.1.2 < b.1.2 \/ (a.1.2 = b.1.2 /\ a.2 <= b.2))).

(** ** Predicates used in the statements about the global max *)

(** The values the accumulator of [findMaxKernel] may end with. *)
Definition findMax_candidate (ca : list f32) (v0 : f32) (len : Z) (x : f32) : Prop :=
  x = v0 \/ x = S754_infinity true
  \/ exists i, 0 <= i < len /\ ca !! Z.to_nat i = Some x.

(** [sdata[0 .. k)] holds a value above [x]. *)
Definition findMax_covers (le : f32 -> f32 -> Prop) (k : Z) (sdata : list f32)
  (x : f32) : Prop :=
  exists i v, 0 <= i < k /\ sdata !! Z.to_nat i = Some v /\ le x v.

(** The block whose threads read entry [i]. *)
Definition findMax_block (gdx bdx i : Z) : Z := (i `mod` (bdx * gdx)) `div` bdx.

(** * Properties *)

(** ** Sequential runs and thread enumerations *)

Lemma run_app {T S} (step : T -> S -> option S) (l1 l2 : list T) (s : S) :
  run step (l1 ++ l2) s = s' ← run step l1 s; run step l2 s'.
Proof.
  revert s; induction l1 as [|t l1 IH]; intros s; simpl; [done|].
  destruct (step t s) as [s1|]; simpl; [apply IH|done].
Qed.

Lemma run_bind {T U S} (step : U -> S -> option S) (f : T -> list U)
  (l : list T) (s : S) :
  run step (l ≫= f) s = run (fun t => run step (f t)) l s.
Proof.
  revert s; induction l as [|t l IH]; intros s; [done|].
  rewrite bind_cons, run_app. simpl.
  destruct (run step (f t) s) as [s1|]; simpl; [apply IH|done].
Qed.

(** An invariant kept by every step is kept by the run, and the run
    completes. *)
Lemma run_inv {T S} (I : S -> Prop) (step : T -> S -> option S)
  (ts : list T) (s : S) :
  I s ->
  (forall t s0, t ∈ ts -> I s0 -> exists s1, step t s0 = Some s1 /\ I s1) ->
  exists s', run step ts s = Some s' /\ I s'.
Proof.
  revert s; induction ts as [|t ts IH]; intros s Hs Hstep; simpl.
  - eauto.
  - destruct (Hstep t s) as (s1 & -> & Hs1); [left|done|]. simpl.
    apply IH; [done|]. intros t' s0 Ht'. apply Hstep. by right.
Qed.

(** A loop stops with an error as soon as one of its steps does. *)
Lemma run_fails {T S : Type} (I : S -> Prop) (step : T -> S -> option S)
  (l : list T) (t0 : T) (s : S) :
  I s -> t0 ∈ l ->
  (forall t s0 s1, t ∈ l -> I s0 -> step t s0 = Some s1 -> I s1) ->
  (forall s0, I s0 -> step t0 s0 = None) ->
  run step l s = None.
Proof.
  revert s. induction l as [|t l IH]; intros s Hs Hin Hpres Hfail;
    [by apply elem_of_nil in Hin|].
  cbn. apply elem_of_cons in Hin as [->|Hin'].
  - by rewrite Hfail.
  - destruct (step t s) as [s1|] eqn:Hstep; [|done]. cbn. apply IH; try done.
    + by apply (Hpres t s s1); [left| |].
    + intros t' s0 s2 Ht'. apply Hpres. by right.
Qed.

Lemma elem_of_indices (d i : dim3) :
  i ∈ indices d <-> (0 <= dim_x i < dim_x d) /\ (0 <= dim_y i < dim_y d).
Proof.
  unfold indices. rewrite list_elem_of_bind. split.
  - intros (j & Hi & Hj). apply list_elem_of_bind in Hi as (i' & Hi & Hi').
    apply list_elem_of_singleton in Hi as ->. simpl.
    apply elem_of_seqZ in Hj, Hi'. lia.
  - intros [Hx Hy]. exists (dim_y i). split; [|apply elem_of_seqZ; lia].
    apply list_elem_of_bind. exists (dim_x i). split; [|apply elem_of_seqZ; lia].
    destruct i; simpl. apply list_elem_of_singleton. done.
Qed.

Lemma elem_of_grid_threads (g b : dim3) (t : thread) :
  t ∈ grid_threads g b <->
  gridDim t = g /\ blockDim t = b /\ blockIdx t ∈ indices g /\ threadIdx t ∈ indices b.
Proof.
  unfold grid_threads. rewrite list_elem_of_bind. split.
  - intros (bi & Ht & Hbi). apply list_elem_of_bind in Ht as (ti & Ht & Hti).
    apply list_elem_of_singleton in Ht as ->. done.
  - intros (<- & <- & Hb & Ht). exists (blockIdx t). split; [|done].
    apply list_elem_of_bind. exists (threadIdx t). split; [|done].
    destruct t; simpl. apply list_elem_of_singleton. done.
Qed.

(** ** Buffers and the store *)

Lemma load_Some (buf : list f32) (i : Z) :
  0 <= i < Z.of_nat (length buf) -> is_Some (load buf i).
Proof.
  intros Hi. unfold load. rewrite decide_True by lia.
  apply lookup_lt_is_Some. lia.
Qed.

Lemma store_Some (buf : list f32) (i : Z) (v : f32) :
  0 <= i < Z.of_nat (length buf) ->
  store buf i v = Some (<[Z.to_nat i := v]> buf).
Proof. intros Hi. unfold store. by rewrite decide_True. Qed.

(** ** In-place operators return their first operand *)

Lemma only_buffer_refl (p : positive) (c : list f32) (hp : mem) :
  hp !! p = Some c -> only_buffer p (length c) hp hp.
Proof. intros H. split; [done|eauto]. Qed.

Lemma only_buffer_dom (p : positive) (n : nat) (hp hp' : mem) :
  is_Some (hp !! p) -> only_buffer p n hp hp' -> dom hp' = dom hp.
Proof.
  intros Hp [Hq (c & Hc & _)]. apply set_eq. intros q.
  rewrite !elem_of_dom. destruct (decide (q = p)) as [->|Hne].
  - rewrite Hc. split; eauto.
  - by rewrite Hq.
Qed.

Lemma only_buffer_wr (p : positive) (n : nat) (hp m : mem) (i : Z) (v : f32) :
  only_buffer p n hp m -> 0 <= i < Z.of_nat n ->
  exists m', wr m p i v = Some m' /\ only_buffer p n hp m'.
Proof.
  intros [Hq (c & Hc & Hlen)] Hi. unfold wr. rewrite Hc. simpl.
  rewrite store_Some by lia. simpl. eexists; split; [done|]. split.
  - intros q Hne. rewrite lookup_insert_ne by done. by apply Hq.
  - exists (<[Z.to_nat i:=v]> c). split; [apply lookup_insert_eq|].
    by rewrite length_insert.
Qed.

(** A thread of a 32 x 32 launch whose guard holds addresses a cell of the
    matrix. *)
Lemma cell_in_range (t : thread) (g b : dim3) (nrows ncols : Z) :
  t ∈ grid_threads g b -> 0 <= dim_x b -> 0 <= dim_y b ->
  let row := dim_y (blockIdx t) * dim_y (blockDim t) + dim_y (threadIdx t) in
  let col := dim_x (blockIdx t) * dim_x (blockDim t) + dim_x (threadIdx t) in
  row < nrows -> col < ncols ->
  0 <= row /\ 0 <= col /\ 0 <= row * ncols + col < nrows * ncols.
Proof.
  intros Ht Hbx Hby row col Hrow Hcol.
  apply elem_of_grid_threads in Ht as (_ & Hb & Hbi & Hti).
  apply elem_of_indices in Hbi, Hti. subst b.
  assert (0 <= row) by (unfold row; nia).
  assert (0 <= col) by (unfold col; nia).
  split; [done|]. split; [done|]. nia.
Qed.

Lemma UNARY_thread_only_buffer (opr : unary_opr) (m : Matrix) (k : f32)
  (n : nat) (hp s : mem) (g : dim3) (t : thread) :
  Z.of_nat n = rows m * cols m ->
  (forall c' i x, length c' = n -> 0 < cols m -> 0 <= i < rows m * cols m ->
     is_Some (opr (load c') i (cols m) x k)) ->
  t ∈ grid_threads g (Dim3 32 32) ->
  only_buffer (dat m) n hp s ->
  exists s', UNARY_Kernel_MTP opr (dat m) (rows m) (cols m) (dat m) k t s = Some s'
             /\ only_buffer (dat m) n hp s'.
Proof.
  intros Hn Hopr Ht Hs. unfold UNARY_Kernel_MTP.
  case_decide as Hg; [|eauto].
  destruct Hg as [Hrow Hcol].
  destruct (cell_in_range t g (Dim3 32 32) (rows m) (cols m) Ht) as (Hr & Hc & Hi);
    simpl; [lia..|].
  destruct Hs as [Hq (c & Hc' & Hlen)]. rewrite Hc'. simpl.
  destruct (load_Some c _ ltac:(rewrite Hlen, Hn; exact Hi)) as [x ->]. simpl.
  destruct (Hopr c _ (f32_add x (f32_of_int 0)) Hlen ltac:(lia) Hi) as [v ->]. simpl.
  apply only_buffer_wr; [split; eauto|lia].
Qed.

Lemma BINARY_thread_only_buffer (opr : binary_opr) (a b : Matrix)
  (n : nat) (hp s : mem) (g : dim3) (t : thread) (cb : list f32) :
  Z.of_nat n = rows a * cols a ->
  hp !! dat b = Some cb -> (dat b = dat a -> length cb = n) ->
  (forall c' i x, length c' = length cb -> 0 < cols a -> 0 <= i < rows a * cols a ->
     is_Some (opr x (load c') i (cols a))) ->
  t ∈ grid_threads g (Dim3 32 32) ->
  only_buffer (dat a) n hp s ->
  exists s', BINARY_Kernel_MTP opr (dat a) (rows a) (cols a) (dat b) (dat a) t s = Some s'
             /\ only_buffer (dat a) n hp s'.
Proof.
  intros Hn Hb Hal Hopr Ht Hs. unfold BINARY_Kernel_MTP.
  case_decide as Hg; [|eauto].
  destruct Hg as [Hrow Hcol].
  destruct (cell_in_range t g (Dim3 32 32) (rows a) (cols a) Ht) as (Hr & Hc & Hi);
    simpl; [lia..|].
  pose proof Hs as [Hq (c & Hc' & Hlen)]. unfold rd. rewrite Hc'. simpl.
  destruct (load_Some c _ ltac:(rewrite Hlen, Hn; exact Hi)) as [x ->]. simpl.
  assert (exists c', s !! dat b = Some c' /\ length c' = length cb) as (c' & -> & Hc'len).
  { destruct (decide (dat b = dat a)) as [Heq|Hne].
    - exists c. rewrite Heq, Hc'. split; [done|]. rewrite Hal by done. done.
    - exists cb. rewrite Hq by done. done. }
  simpl. destruct (Hopr c' _ x Hc'len ltac:(lia) Hi) as [v ->]. simpl.
  apply only_buffer_wr; [done|lia].
Qed.

(** C9: every operator generated by [UNARY] or [BINARY] returns the
    descriptor of its first operand unchanged (same pointer, rows and
    cols); the store keeps its set of buffers (nothing is allocated), every
    buffer other than the first operand's keeps its contents, and the first
    operand's buffer keeps its size.  The operator expression is assumed
    defined on every cell of the matrix. *)
Theorem inplace_operators_return_first_operand
  (uop : unary_opr) (bop : binary_opr) (hp : mem) (m b : Matrix) (k : f32)
  (ca cb : list f32) :
  hp !! dat m = Some ca ->
  Z.of_nat (length ca) = rows m * cols m ->
  hp !! dat b = Some cb ->
  (forall c' i x, length c' = length ca -> 0 < cols m -> 0 <= i < rows m * cols m ->
     is_Some (uop (load c') i (cols m) x k)) ->
  (forall c' i x, length c' = length cb -> 0 < cols m -> 0 <= i < rows m * cols m ->
     is_Some (bop x (load c') i (cols m))) ->
  (exists hp', UNARY_CUDA uop hp m k = Some (hp', m)
               /\ dom hp' = dom hp /\ only_buffer (dat m) (length ca) hp hp')
  /\ (exists hp', BINARY_CUDA bop hp m b = Some (hp', m)
                  /\ dom hp' = dom hp /\ only_buffer (dat m) (length ca) hp hp').
Proof.
  intros Ha Hlen Hb Hu Hbop. split.
  - unfold UNARY_CUDA, launch.
    edestruct (run_inv (only_buffer (dat m) (length ca) hp)
                 (UNARY_Kernel_MTP uop (dat m) (rows m) (cols m) (dat m) k))
      as (hp' & -> & Hinv); [by apply only_buffer_refl| |].
    + intros t s Ht Hs. eapply UNARY_thread_only_buffer; eauto.
    + simpl. eexists; split; [done|]. split; [|done].
      apply (only_buffer_dom (dat m) (length ca)); [by rewrite Ha|done].
  - unfold BINARY_CUDA, launch.
    edestruct (run_inv (only_buffer (dat m) (length ca) hp)
                 (BINARY_Kernel_MTP bop (dat m) (rows m) (cols m) (dat b) (dat m)))
      as (hp' & -> & Hinv); [by apply only_buffer_refl| |].
    + intros t s Ht Hs. eapply BINARY_thread_only_buffer; eauto.
      intros Heq. rewrite Heq in Hb. congruence.
    + simpl. eexists; split; [done|]. split; [|done].
      apply (only_buffer_dom (dat m) (length ca)); [by rewrite Ha|done].
Qed.

(** ** Runs that fill one buffer cell by cell *)

Section RunCells.
Context {T : Type}.
Variable p : positive.
Variable m0 : mem.
Variable c0 : list f32.
Variable step : T -> mem -> option mem.
Variable g : T -> bool.
Variable idx : T -> nat.
Variable final : T -> f32.
Variable ts : list T.

Hypothesis Hrange : forall t, t ∈ ts -> g t = true -> (idx t < length c0)%nat.
Hypothesis Hstep : forall t c, t ∈ ts -> midway c0 g idx final ts c ->
  (g t = true -> c !! idx t = c0 !! idx t) ->
  step t (<[p := c]> m0)
  = Some (if g t then <[p := <[idx t := final t]> c]> m0 else <[p := c]> m0).

Lemma run_cells_from (rest : list T) (c : list f32) :
  (forall t, t ∈ rest -> t ∈ ts) ->
  NoDup (idx <$> filter (fun t => g t = true) rest) ->
  midway c0 g idx final ts c ->
  (forall t, t ∈ rest -> g t = true -> c !! idx t = c0 !! idx t) ->
  exists c', run step rest (<[p := c]> m0) = Some (<[p := c']> m0)
    /\ length c' = length c0
    /\ (forall t, t ∈ rest -> g t = true -> c' !! idx t = Some (final t))
    /\ (forall j, (forall t, t ∈ rest -> g t = true -> idx t ≠ j) -> c' !! j = c !! j).
Proof.
  revert c. induction rest as [|t rest IH]; intros c Hsub Hnd Hmid Hfresh.
  - exists c. simpl. destruct Hmid as [Hlen _]. split_and!; try done.
    intros t Ht. by apply elem_of_nil in Ht.
  - assert (Ht : t ∈ ts) by (apply Hsub; left).
    simpl. rewrite (Hstep t c Ht Hmid) by (intros; apply Hfresh; [left|done]).
    simpl. destruct (g t) eqn:Hg.
    + rewrite filter_cons_True in Hnd by done. rewrite fmap_cons in Hnd.
      apply NoDup_cons in Hnd as [Hnotin Hnd].
      assert (Hne : forall t', t' ∈ rest -> g t' = true -> idx t' ≠ idx t).
      { intros t' Ht' Hg' Heq. apply Hnotin. rewrite <- Heq.
        apply list_elem_of_fmap_2. by apply list_elem_of_filter. }
      destruct Hmid as [Hlen Hcells].
      destruct (IH (<[idx t := final t]> c)) as (c' & Hrun & Hlen' & Hdone & Hkeep).
      * intros t' Ht'. apply Hsub. by right.
      * done.
      * split; [by rewrite length_insert|]. intros j.
        destruct (decide (j = idx t)) as [->|Hj].
        -- right. exists t. split_and!; try done.
           apply list_lookup_insert_eq. rewrite Hlen. by apply Hrange.
        -- rewrite list_lookup_insert_ne by done. apply Hcells.
      * intros t' Ht' Hg'. rewrite list_lookup_insert_ne by (apply not_eq_sym; by apply Hne).
        apply Hfresh; [by right|done].
      * exists c'. rewrite Hrun. split_and!; try done.
        -- intros t' Ht' Hg'. apply elem_of_cons in Ht' as [->|Ht']; [|by apply Hdone].
           rewrite Hkeep by (intros t'' ? ?; by apply Hne).
           apply list_lookup_insert_eq. rewrite Hlen. by apply Hrange.
        -- intros j Hj. rewrite Hkeep by (intros t' ? ?; apply Hj; [by right|done]).
           apply list_lookup_insert_ne. apply Hj; [left|done].
    + rewrite filter_cons_False in Hnd by (rewrite Hg; done).
      destruct (IH c) as (c' & Hrun & Hlen' & Hdone & Hkeep); try done.
      * intros t' Ht'. apply Hsub. by right.
      * intros t' Ht' Hg'. apply Hfresh; [by right|done].
      * exists c'. rewrite Hrun. split_and!; try done.
        -- intros t' Ht' Hg'. apply elem_of_cons in Ht' as [->|Ht']; [congruence|].
           by apply Hdone.
        -- intros j Hj. apply Hkeep. intros t' ? ?. apply Hj; [by right|done].
Qed.

Lemma run_cells :
  m0 !! p = Some c0 ->
  NoDup (idx <$> filter (fun t => g t = true) ts) ->
  exists c', run step ts m0 = Some (<[p := c']> m0)
    /\ length c' = length c0
    /\ (forall t, t ∈ ts -> g t = true -> c' !! idx t = Some (final t))
    /\ (forall j, (forall t, t ∈ ts -> g t = true -> idx t ≠ j) -> c' !! j = c0 !! j).
Proof.
  intros Hp Hnd.
  destruct (run_cells_from ts c0) as (c' & Hrun & Hrest); try done.
  { split; [done|]. intros j. by left. }
  rewrite (insert_id m0 p c0 Hp) in Hrun. by exists c'.
Qed.
End RunCells.

(** ** One thread per cell: 32 x 32 blocks over an [R] x [C] matrix *)

Lemma NoDup_indices (d : dim3) : NoDup (indices d).
Proof.
  unfold indices. apply NoDup_bind; [| |apply NoDup_seqZ].
  - intros j1 j2 i _ _ H1 H2.
    apply list_elem_of_bind in H1 as (i1 & H1 & _), H2 as (i2 & H2 & _).
    apply list_elem_of_singleton in H1, H2. congruence.
  - intros j _. apply NoDup_bind; [| |apply NoDup_seqZ].
    + intros i1 i2 i _ _ H1 H2. apply list_elem_of_singleton in H1, H2. congruence.
    + intros i _. apply NoDup_singleton.
Qed.

Lemma NoDup_grid_threads (g b : dim3) : NoDup (grid_threads g b).
Proof.
  unfold grid_threads. apply NoDup_bind; [| |apply NoDup_indices].
  - intros b1 b2 t _ _ H1 H2.
    apply list_elem_of_bind in H1 as (t1 & H1 & _), H2 as (t2 & H2 & _).
    apply list_elem_of_singleton in H1, H2. congruence.
  - intros bi _. apply NoDup_bind; [| |apply NoDup_indices].
    + intros i1 i2 i _ _ H1 H2. apply list_elem_of_singleton in H1, H2. congruence.
    + intros i _. apply NoDup_singleton.
Qed.

Lemma CEIL_DIV_covers (r n d : Z) :
  0 < d -> 0 <= r < n -> 0 <= r `div` d < CEIL_DIV n d.
Proof.
  intros Hd Hr. unfold CEIL_DIV. rewrite Z.quot_div_nonneg by lia.
  split; [apply Z.div_pos; lia|].
  apply Z.div_lt_upper_bound; [lia|].
  pose proof (Z.mul_succ_div_gt (n + d - 1) d Hd).
  pose proof (Z.mul_div_le r d Hd). nia.
Qed.

Lemma thread_of_grid (R C r c : Z) :
  0 <= r < R -> 0 <= c < C ->
  let t := thread_of (Dim3 (CEIL_DIV C 32) (CEIL_DIV R 32)) (Dim3 32 32) r c in
  t ∈ grid_threads (Dim3 (CEIL_DIV C 32) (CEIL_DIV R 32)) (Dim3 32 32)
  /\ thread_row t = r /\ thread_col t = c.
Proof.
  intros Hr Hc t. split; [|split].
  - apply elem_of_grid_threads. split_and!; try done.
    + apply elem_of_indices. simpl.
      split; apply CEIL_DIV_covers; lia.
    + apply elem_of_indices. simpl. split; apply Z.mod_pos_bound; lia.
  - unfold thread_row, t, thread_of. cbn [dim_x dim_y blockIdx blockDim threadIdx].
    pose proof (Z.div_mod r 32). lia.
  - unfold thread_col, t, thread_of. cbn [dim_x dim_y blockIdx blockDim threadIdx].
    pose proof (Z.div_mod c 32). lia.
Qed.

Lemma quot_rem_unique (d q1 r1 q2 r2 : Z) :
  0 <= r1 < d -> 0 <= r2 < d -> q1 * d + r1 = q2 * d + r2 -> q1 = q2 /\ r1 = r2.
Proof.
  intros H1 H2 Heq.
  assert (q1 = q2); [|subst; lia].
  destruct (Z.lt_trichotomy q1 q2) as [Hlt|[?|Hgt]]; [|done|].
  - assert ((q1 + 1) * d <= q2 * d) by (apply Z.mul_le_mono_nonneg_r; lia). lia.
  - assert ((q2 + 1) * d <= q1 * d) by (apply Z.mul_le_mono_nonneg_r; lia). lia.
Qed.

Lemma cell_index_inj (C r1 c1 r2 c2 : Z) :
  0 <= c1 < C -> 0 <= c2 < C -> 0 <= r1 -> 0 <= r2 ->
  Z.to_nat (r1 * C + c1) = Z.to_nat (r2 * C + c2) -> r1 = r2 /\ c1 = c2.
Proof.
  intros H1 H2 Hr1 Hr2 Heq.
  assert (0 <= r1 * C) by (apply Z.mul_nonneg_nonneg; lia).
  assert (0 <= r2 * C) by (apply Z.mul_nonneg_nonneg; lia).
  apply (quot_rem_unique C); lia.
Qed.

Lemma thread_eq (g b : dim3) (t1 t2 : thread) :
  t1 ∈ grid_threads g b -> t2 ∈ grid_threads g b ->
  0 < dim_x b -> 0 < dim_y b ->
  thread_row t1 = thread_row t2 -> thread_col t1 = thread_col t2 -> t1 = t2.
Proof.
  intros H1 H2 Hx Hy Hrow Hcol.
  apply elem_of_grid_threads in H1 as (Hg1 & Hb1 & Hbi1 & Hti1).
  apply elem_of_grid_threads in H2 as (Hg2 & Hb2 & Hbi2 & Hti2).
  apply elem_of_indices in Hbi1, Hbi2, Hti1, Hti2.
  unfold thread_row, thread_col in *.
  destruct t1 as [g1 b1 [bx1 by1] [tx1 ty1]], t2 as [g2 b2 [bx2 by2] [tx2 ty2]].
  simpl in *. subst g1 g2 b1 b2.
  assert (by1 = by2 /\ ty1 = ty2) as [-> ->]
    by (apply (quot_rem_unique (dim_y b)); lia).
  assert (bx1 = bx2 /\ tx1 = tx2) as [-> ->]
    by (apply (quot_rem_unique (dim_x b)); lia).
  done.
Qed.

Section LaunchCells.
Variables R C : Z.
Variable p : positive.
Variable m0 : mem.
Variable c0 : list f32.
Variable kernel : thread -> mem -> option mem.
Variable val : Z -> Z -> f32.

Hypothesis Hlen : Z.of_nat (length c0) = R * C.
Hypothesis Hkernel : forall t c,
  t ∈ grid_threads (Dim3 (CEIL_DIV C 32) (CEIL_DIV R 32)) (Dim3 32 32) ->
  cells_midway R C c0 val c ->
  let i := Z.to_nat (thread_row t * C + thread_col t) in
  (thread_row t < R /\ thread_col t < C -> c !! i = c0 !! i) ->
  kernel t (<[p := c]> m0)
  = Some (if decide (thread_row t < R /\ thread_col t < C)
          then <[p := <[i := val (thread_row t) (thread_col t)]> c]> m0
          else <[p := c]> m0).

Lemma launch_cells :
  m0 !! p = Some c0 ->
  exists c', launch (Dim3 (CEIL_DIV C 32) (CEIL_DIV R 32)) (Dim3 32 32) kernel m0
             = Some (<[p := c']> m0)
    /\ length c' = length c0
    /\ forall r c, 0 <= r < R -> 0 <= c < C ->
         c' !! Z.to_nat (r * C + c) = Some (val r c).
Proof.
  intros Hp. unfold launch.
  set (gd := Dim3 (CEIL_DIV C 32) (CEIL_DIV R 32)) in *.
  set (guard := fun t => bool_decide (thread_row t < R /\ thread_col t < C)).
  set (idx := fun t => Z.to_nat (thread_row t * C + thread_col t)).
  set (fin := fun t => val (thread_row t) (thread_col t)).
  assert (Hin : forall t, t ∈ grid_threads gd (Dim3 32 32) -> guard t = true ->
            0 <= thread_row t < R /\ 0 <= thread_col t < C
            /\ 0 <= thread_row t * C + thread_col t < R * C).
  { intros t Ht Hg. apply bool_decide_eq_true in Hg as [Hr Hc].
    pose proof (cell_in_range t _ _ R C Ht ltac:(simpl; lia) ltac:(simpl; lia) Hr Hc)
      as Hcell.
    unfold thread_row, thread_col in *. simpl in Hcell. lia. }
  destruct (run_cells p m0 c0 kernel guard idx fin (grid_threads gd (Dim3 32 32)))
    as (c' & Hrun & Hlen' & Hdone & _); try done.
  - intros t Ht Hg. destruct (Hin t Ht Hg) as (_ & _ & Hi). unfold idx. lia.
  - intros t c Ht [Hl Hmid] Hfresh. rewrite Hkernel.
    + unfold guard. case_bool_decide; case_decide; done.
    + done.
    + split; [done|]. intros r c1 Hr Hc1.
      destruct (Hmid (Z.to_nat (r * C + c1))) as [?|(t' & Ht' & Hg' & Hidx & Hv)];
        [by left|right].
      rewrite Hv. unfold fin. destruct (Hin t' Ht' Hg') as (? & ? & _).
      apply cell_index_inj in Hidx as [-> ->]; try lia. done.
    + intros Hg. apply Hfresh. unfold guard. by apply bool_decide_eq_true.
  - apply NoDup_fmap_2_strong; [|apply NoDup_filter, NoDup_grid_threads].
    intros t1 t2 H1 H2 Heq.
    apply list_elem_of_filter in H1 as [Hg1 H1], H2 as [Hg2 H2].
    destruct (Hin t1 H1 Hg1) as (? & ? & _), (Hin t2 H2 Hg2) as (? & ? & _).
    apply cell_index_inj in Heq as [? ?]; try lia.
    apply (thread_eq gd (Dim3 32 32)); simpl; try done; lia.
  - exists c'. split_and!; try done. intros r c Hr Hc.
    destruct (thread_of_grid R C r c Hr Hc) as (Ht & Hrow & Hcol).
    specialize (Hdone _ Ht). unfold idx, fin, guard in Hdone.
    rewrite Hrow, Hcol in Hdone. apply Hdone.
    apply bool_decide_eq_true. lia.
Qed.
End LaunchCells.

(** ** The elementwise wrappers, cell by cell *)

Lemma load_lookup (buf : list f32) (i : Z) :
  0 <= i -> load buf i = buf !! Z.to_nat i.
Proof. intros Hi. unfold load. by rewrite decide_True. Qed.

Lemma wr_insert (m : mem) (p : positive) (c : list f32) (i : Z) (v : f32) :
  0 <= i < Z.of_nat (length c) ->
  wr (<[p := c]> m) p i v = Some (<[p := <[Z.to_nat i := v]> c]> m).
Proof.
  intros Hi. unfold wr. rewrite lookup_insert_eq. simpl.
  rewrite store_Some by done. simpl. by rewrite insert_insert_eq.
Qed.

Lemma buffer_ext (R C : Z) (c1 c2 : list f32) :
  0 <= R -> 0 <= C ->
  Z.of_nat (length c1) = R * C -> length c1 = length c2 ->
  (forall r c, 0 <= r < R -> 0 <= c < C ->
     c1 !! Z.to_nat (r * C + c) = c2 !! Z.to_nat (r * C + c)) ->
  c1 = c2.
Proof.
  intros HR HC Hlen Hlen' Hcells. apply list_eq. intros j.
  destruct (decide (j < length c1)%nat) as [Hj|Hj].
  - assert (0 < C) by nia.
    pose proof (Z.div_mod (Z.of_nat j) C ltac:(lia)) as Hdm.
    pose proof (Z.mod_pos_bound (Z.of_nat j) C ltac:(lia)) as Hm.
    assert (0 <= Z.of_nat j `div` C < R) as Hd.
    { split; [apply Z.div_pos; lia|]. apply Z.div_lt_upper_bound; [lia|]. lia. }
    specialize (Hcells _ _ Hd Hm).
    replace (Z.to_nat (Z.of_nat j `div` C * C + Z.of_nat j `mod` C)) with j in Hcells by lia.
    done.
  - rewrite !lookup_ge_None_2 by lia. done.
Qed.

Section UnaryCells.
Variable opr : unary_opr.
Variable hp : mem.
Variable m : Matrix.
Variable k : f32.
Variable c0 : list f32.
Variable val : Z -> Z -> f32.

Hypothesis Hp : hp !! dat m = Some c0.
Hypothesis Hlen : Z.of_nat (length c0) = rows m * cols m.
Hypothesis Hopr : forall c r cl x,
  cells_midway (rows m) (cols m) c0 val c ->
  0 <= r < rows m -> 0 <= cl < cols m ->
  c0 !! Z.to_nat (r * cols m + cl) = Some x ->
  opr (load c) (r * cols m + cl) (cols m) (f32_add x (f32_of_int 0)) k
  = Some (val r cl).

Lemma UNARY_CUDA_cells :
  exists c', UNARY_CUDA opr hp m k = Some (<[dat m := c']> hp, m)
    /\ length c' = length c0
    /\ forall r cl, 0 <= r < rows m -> 0 <= cl < cols m ->
         c' !! Z.to_nat (r * cols m + cl) = Some (val r cl).
Proof.
  unfold UNARY_CUDA.
  destruct (launch_cells (rows m) (cols m) (dat m) hp c0
              (UNARY_Kernel_MTP opr (dat m) (rows m) (cols m) (dat m) k) val Hlen)
    as (c' & Hrun & Hrest); [|done|].
  - intros t c Ht Hmid i Hfresh. unfold UNARY_Kernel_MTP.
    fold (thread_row t) (thread_col t).
    case_decide as Hg; [|done]. destruct Hg as [Hr Hc].
    pose proof (cell_in_range t _ _ (rows m) (cols m) Ht ltac:(simpl; lia)
                  ltac:(simpl; lia) Hr Hc) as (Hr0 & Hc0 & Hi).
    fold (thread_row t) (thread_col t) in Hr0, Hc0, Hi.
    rewrite lookup_insert_eq. simpl.
    rewrite load_lookup by lia. fold i. rewrite Hfresh by done.
    destruct (lookup_lt_is_Some_2 c0 i ltac:(unfold i; lia)) as [x Hx].
    rewrite Hx. simpl.
    rewrite (Hopr c (thread_row t) (thread_col t) x Hmid) by (done || lia).
    simpl. rewrite wr_insert; [done|]. destruct Hmid as [-> _]. lia.
  - unfold CEIL_DIV in Hrun. cbn [dim_x dim_y]. rewrite Hrun. simpl. by exists c'.
Qed.
End UnaryCells.

Section BinaryCells.
Variable opr : binary_opr.
Variable hp : mem.
Variables a b : Matrix.
Variables c0 cb : list f32.
Variable val : Z -> Z -> f32.

Hypothesis Hp : hp !! dat a = Some c0.
Hypothesis Hb : hp !! dat b = Some cb.
Hypothesis Hne : dat a ≠ dat b.
Hypothesis Hlen : Z.of_nat (length c0) = rows a * cols a.
Hypothesis Hopr : forall r cl x,
  0 <= r < rows a -> 0 <= cl < cols a ->
  c0 !! Z.to_nat (r * cols a + cl) = Some x ->
  opr x (load cb) (r * cols a + cl) (cols a) = Some (val r cl).

Lemma BINARY_CUDA_cells :
  exists c', BINARY_CUDA opr hp a b = Some (<[dat a := c']> hp, a)
    /\ length c' = length c0
    /\ forall r cl, 0 <= r < rows a -> 0 <= cl < cols a ->
         c' !! Z.to_nat (r * cols a + cl) = Some (val r cl).
Proof.
  unfold BINARY_CUDA.
  destruct (launch_cells (rows a) (cols a) (dat a) hp c0
              (BINARY_Kernel_MTP opr (dat a) (rows a) (cols a) (dat b) (dat a)) val Hlen)
    as (c' & Hrun & Hrest); [|done|].
  - intros t c Ht Hmid i Hfresh. unfold BINARY_Kernel_MTP.
    fold (thread_row t) (thread_col t).
    case_decide as Hg; [|done]. destruct Hg as [Hr Hc].
    pose proof (cell_in_range t _ _ (rows a) (cols a) Ht ltac:(simpl; lia)
                  ltac:(simpl; lia) Hr Hc) as (Hr0 & Hc0 & Hi).
    fold (thread_row t) (thread_col t) in Hr0, Hc0, Hi.
    unfold rd. rewrite lookup_insert_eq. simpl.
    rewrite load_lookup by lia. fold i. rewrite Hfresh by done.
    destruct (lookup_lt_is_Some_2 c0 i ltac:(unfold i; lia)) as [x Hx].
    rewrite Hx. simpl. rewrite lookup_insert_ne, Hb by done. simpl.
    rewrite (Hopr (thread_row t) (thread_col t) x) by (done || lia).
    simpl. rewrite wr_insert; [done|]. destruct Hmid as [-> _]. lia.
  - unfold CEIL_DIV in Hrun. cbn [dim_x dim_y]. rewrite Hrun. simpl. by exists c'.
Qed.
End BinaryCells.

(** ** The CPU reference, cell by cell *)

Lemma div_cell (C r cl : Z) : 0 <= cl < C -> (r * C + cl) `div` C = r.
Proof. intros Hc. symmetry. apply (Z.div_unique _ _ _ cl); lia. Qed.

Lemma mod_cell (C r cl : Z) : 0 <= cl < C -> (r * C + cl) `mod` C = cl.
Proof. intros Hc. symmetry. apply (Z.mod_unique _ _ r); lia. Qed.

Lemma run_cells_matrix (R C : Z) (p : positive) (hp : mem) (c0 : list f32)
  (step : Z -> mem -> option mem) (val : Z -> Z -> f32) :
  hp !! p = Some c0 ->
  Z.of_nat (length c0) = R * C -> 0 <= R -> 0 <= C ->
  (forall c r cl,
     cells_midway R C c0 val c -> 0 <= r < R -> 0 <= cl < C ->
     c !! Z.to_nat (r * C + cl) = c0 !! Z.to_nat (r * C + cl) ->
     step (r * C + cl) (<[p := c]> hp)
     = Some (<[p := <[Z.to_nat (r * C + cl) := val r cl]> c]> hp)) ->
  exists c', run step (seqZ 0 (R * C)) hp = Some (<[p := c']> hp)
    /\ length c' = length c0
    /\ forall r cl, 0 <= r < R -> 0 <= cl < C ->
         c' !! Z.to_nat (r * C + cl) = Some (val r cl).
Proof.
  intros Hp Hlen HR HC Hstep.
  assert (Hsplit : forall i, 0 <= i < R * C ->
            0 <= i `div` C < R /\ 0 <= i `mod` C < C
            /\ i `div` C * C + i `mod` C = i).
  { intros i Hi. assert (0 < C) by nia.
    pose proof (Z.div_mod i C ltac:(lia)). pose proof (Z.mod_pos_bound i C ltac:(lia)).
    split; [|lia]. split; [apply Z.div_pos; lia|].
    apply Z.div_lt_upper_bound; lia. }
  destruct (run_cells p hp c0 step (fun _ => true) Z.to_nat
              (fun i => val (i `div` C) (i `mod` C)) (seqZ 0 (R * C)))
    as (c' & Hrun & Hlen' & Hdone & _); try done.
  - intros i Hi _. apply elem_of_seqZ in Hi. lia.
  - intros i c Hi [Hl Hmid] Hfresh. apply elem_of_seqZ in Hi.
    destruct (Hsplit i ltac:(lia)) as (Hr & Hc & Heq).
    specialize (Hstep c (i `div` C) (i `mod` C)). rewrite Heq in Hstep.
    apply Hstep; try done; [|by apply Hfresh].
    split; [done|]. intros r cl Hr' Hc'.
    destruct (Hmid (Z.to_nat (r * C + cl))) as [?|(i' & Hi' & _ & Hidx & Hv)];
      [by left|right].
    apply elem_of_seqZ in Hi'. rewrite Hv.
    assert (i' = r * C + cl) as -> by nia.
    by rewrite div_cell, mod_cell by lia.
  - apply NoDup_fmap_2_strong; [|apply NoDup_filter, NoDup_seqZ].
    intros i1 i2 H1 H2 Heq.
    apply list_elem_of_filter in H1 as [_ H1], H2 as [_ H2].
    apply elem_of_seqZ in H1, H2. lia.
  - exists c'. split; [done|]. split; [done|]. intros r cl Hr Hc.
    specialize (Hdone (r * C + cl)).
    rewrite div_cell, mod_cell in Hdone by lia. apply Hdone; [|done].
    apply elem_of_seqZ. nia.
Qed.

Lemma UNARY_cpu_cells (opr : unary_opr) (hp : mem) (a : Matrix) (k : f32)
  (c0 : list f32) (val : Z -> Z -> f32) :
  hp !! dat a = Some c0 ->
  Z.of_nat (length c0) = rows a * cols a -> 0 <= rows a -> 0 <= cols a ->
  (forall c r cl x,
     cells_midway (rows a) (cols a) c0 val c ->
     0 <= r < rows a -> 0 <= cl < cols a ->
     c0 !! Z.to_nat (r * cols a + cl) = Some x ->
     opr (load c) (r * cols a + cl) (cols a) x k = Some (val r cl)) ->
  exists c', UNARY_cpu opr hp a k = Some (<[dat a := c']> hp, a)
    /\ length c' = length c0
    /\ forall r cl, 0 <= r < rows a -> 0 <= cl < cols a ->
         c' !! Z.to_nat (r * cols a + cl) = Some (val r cl).
Proof.
  intros Hp Hlen HR HC Hopr. unfold UNARY_cpu.
  destruct (run_cells_matrix (rows a) (cols a) (dat a) hp c0
              (fun i m => abuf ← m !! dat a; b ← load abuf i;
                          v ← opr (load abuf) i (cols a) b k; wr m (dat a) i v) val)
    as (c' & -> & Hrest); try done.
  - intros c r cl Hmid Hr Hc Hfresh.
    rewrite lookup_insert_eq. cbn [mbind option_bind].
    rewrite load_lookup by nia. rewrite Hfresh.
    destruct (lookup_lt_is_Some_2 c0 (Z.to_nat (r * cols a + cl)) ltac:(nia)) as [x Hx].
    rewrite Hx. cbn [mbind option_bind].
    rewrite (Hopr c r cl x Hmid) by done. cbn [mbind option_bind].
    apply wr_insert. destruct Hmid as [-> _]. nia.
  - cbn [mbind option_bind]. by exists c'.
Qed.

Lemma BINARY_cpu_cells (opr : binary_opr) (hp : mem) (a b : Matrix)
  (c0 cb : list f32) (val : Z -> Z -> f32) :
  hp !! dat a = Some c0 -> hp !! dat b = Some cb -> dat a ≠ dat b ->
  Z.of_nat (length c0) = rows a * cols a -> 0 <= rows a -> 0 <= cols a ->
  (forall r cl x,
     0 <= r < rows a -> 0 <= cl < cols a ->
     c0 !! Z.to_nat (r * cols a + cl) = Some x ->
     opr x (load cb) (r * cols a + cl) (cols a) = Some (val r cl)) ->
  exists c', BINARY_cpu opr hp a b = Some (<[dat a := c']> hp, a)
    /\ length c' = length c0
    /\ forall r cl, 0 <= r < rows a -> 0 <= cl < cols a ->
         c' !! Z.to_nat (r * cols a + cl) = Some (val r cl).
Proof.
  intros Hp Hb Hne Hlen HR HC Hopr. unfold BINARY_cpu.
  destruct (run_cells_matrix (rows a) (cols a) (dat a) hp c0
              (fun i m => x ← rd m (dat a) i; bbuf ← m !! dat b;
                          v ← opr x (load bbuf) i (cols a); wr m (dat a) i v) val)
    as (c' & -> & Hrest); try done.
  - intros c r cl Hmid Hr Hc Hfresh.
    unfold rd. rewrite lookup_insert_eq. cbn [mbind option_bind].
    rewrite load_lookup by nia. rewrite Hfresh.
    destruct (lookup_lt_is_Some_2 c0 (Z.to_nat (r * cols a + cl)) ltac:(nia)) as [x Hx].
    rewrite Hx. cbn [mbind option_bind].
    rewrite lookup_insert_ne, Hb by done. cbn [mbind option_bind].
    rewrite (Hopr r cl x) by done. cbn [mbind option_bind].
    apply wr_insert. destruct Hmid as [-> _]. nia.
  - cbn [mbind option_bind]. by exists c'.
Qed.

(** ** broadcast *)

Lemma quot_cell (C r cl : Z) :
  0 <= r -> 0 <= cl < C -> (r * C + cl) `quot` C = r.
Proof.
  intros Hr Hc. rewrite Z.quot_div_nonneg by nia.
  rewrite Z.div_add_l by lia. rewrite Z.div_small by lia. lia.
Qed.

Lemma rem_cell (C r cl : Z) :
  0 <= r -> 0 <= cl < C -> (r * C + cl) `rem` C = cl.
Proof.
  intros Hr Hc. rewrite Z.rem_mod_nonneg by nia.
  rewrite Z.add_comm, Z.mod_add by lia. apply Z.mod_small. lia.
Qed.

Lemma broadcast_reads_column0 (c0 c : list f32) (R C r cl : Z) (x k : f32) :
  Z.of_nat (length c0) = R * C ->
  cells_midway R C c0 (fun r _ => default f32_zero (c0 !! Z.to_nat (r * C))) c ->
  0 <= r < R -> 0 <= cl < C ->
  broadcast_opr (load c) (r * C + cl) C x k
  = Some (default f32_zero (c0 !! Z.to_nat (r * C))).
Proof.
  intros Hlen [_ Hmid] Hr Hcl. unfold broadcast_opr.
  rewrite quot_cell by lia. rewrite load_lookup by nia.
  destruct (lookup_lt_is_Some_2 c0 (Z.to_nat (r * C)) ltac:(nia)) as [y Hy].
  specialize (Hmid r 0 Hr ltac:(lia)). rewrite Z.add_0_r in Hmid.
  rewrite Hy in *. simpl in *. by destruct Hmid.
Qed.

Lemma broadcast_cells (hp : mem) (m : Matrix) (k : f32) (c0 : list f32) :
  hp !! dat m = Some c0 ->
  Z.of_nat (length c0) = rows m * cols m ->
  0 <= rows m -> 0 <= cols m ->
  exists c1, broadcastCUDA hp m k = Some (<[dat m := c1]> hp, m)
    /\ broadcast hp m k = Some (<[dat m := c1]> hp, m)
    /\ length c1 = length c0
    /\ forall r c, 0 <= r < rows m -> 0 <= c < cols m ->
         c1 !! Z.to_nat (r * cols m + c) = c0 !! Z.to_nat (r * cols m).
Proof.
  intros Hp Hlen HR HC. unfold broadcastCUDA, broadcast.
  destruct (UNARY_CUDA_cells broadcast_opr hp m k c0
              (fun r _ => default f32_zero (c0 !! Z.to_nat (r * cols m))) Hp Hlen)
    as (c1 & Hrun & Hlen1 & Hcells).
  { intros c r cl x Hmid Hr Hcl _. by apply (broadcast_reads_column0 c0 c (rows m)). }
  destruct (UNARY_cpu_cells broadcast_opr hp m k c0
              (fun r _ => default f32_zero (c0 !! Z.to_nat (r * cols m))) Hp Hlen HR HC)
    as (c2 & Hrun2 & Hlen2 & Hcells2).
  { intros c r cl x Hmid Hr Hcl _. by apply (broadcast_reads_column0 c0 c (rows m)). }
  assert (c2 = c1) as ->.
  { apply (buffer_ext (rows m) (cols m)); try done; [lia..|].
    intros r c Hr Hc. by rewrite Hcells, Hcells2. }
  exists c1. split_and!; try done. intros r c Hr Hc.
  rewrite Hcells by done.
  destruct (lookup_lt_is_Some_2 c0 (Z.to_nat (r * cols m)) ltac:(nia)) as [y Hy].
  by rewrite Hy.
Qed.

(** C10: [broadcast] is idempotent, on the GPU and in the CPU reference.
    After one application every entry of a row holds the value that row had
    in column 0 (so column 0 itself is unchanged), and a second application
    leaves the store as it is. *)
Theorem broadcast_idempotent (hp : mem) (m : Matrix) (k k' : f32)
  (c0 : list f32) :
  hp !! dat m = Some c0 ->
  Z.of_nat (length c0) = rows m * cols m ->
  0 <= rows m -> 0 <= cols m ->
  exists c1,
    broadcastCUDA hp m k = Some (<[dat m := c1]> hp, m)
    /\ broadcast hp m k = Some (<[dat m := c1]> hp, m)
    /\ length c1 = length c0
    /\ (forall r c, 0 <= r < rows m -> 0 <= c < cols m ->
          c1 !! Z.to_nat (r * cols m + c) = c0 !! Z.to_nat (r * cols m))
    /\ broadcastCUDA (<[dat m := c1]> hp) m k' = Some (<[dat m := c1]> hp, m)
    /\ broadcast (<[dat m := c1]> hp) m k' = Some (<[dat m := c1]> hp, m).
Proof.
  intros Hp Hlen HR HC.
  destruct (broadcast_cells hp m k c0 Hp Hlen HR HC)
    as (c1 & Hrun & Hcpu & Hlen1 & Hcells).
  exists c1. split; [exact Hrun|]. split; [exact Hcpu|]. split; [exact Hlen1|].
  split; [exact Hcells|].
  destruct (broadcast_cells (<[dat m := c1]> hp) m k' c1)
    as (c2 & Hrun2 & Hcpu2 & Hlen2 & Hcells2); try done.
  { apply lookup_insert_eq. }
  { by rewrite Hlen1. }
  rewrite Hrun2, Hcpu2, insert_insert_eq.
  assert (c2 = c1) as ->; [|done].
  apply (buffer_ext (rows m) (cols m)); try done; [lia..|].
  intros r c Hr Hc. rewrite Hcells2, Hcells by done.
  pose proof (Hcells r 0 Hr ltac:(lia)) as H0. by rewrite Z.add_0_r in H0.
Qed.

(** ** add_tile and multiply_tile *)




(** ** tril *)

(** C6, as the code has it: [tril(k)] writes 0 to the entries whose flat
    index [i = row * cols + col] satisfies [i / k < i % (int)k] (a float
    division of the flat index by [k]), and to every other entry [x] it
    writes [exp(x / 8)] in the CPU reference and [exp((x + 0) / 8)] on the
    GPU; [(int)k] must be a non-zero [int]. *)
Theorem tril_masks_by_flat_index (expf : f32 -> f32) (hp : mem) (m : Matrix)
  (k : f32) (ki : Z) (c0 : list f32) :
  hp !! dat m = Some c0 ->
  Z.of_nat (length c0) = rows m * cols m ->
  0 <= rows m -> 0 <= cols m ->
  f32_to_int k = Some ki -> ki ≠ 0 ->
  exists c1 c2,
    trilCUDA expf hp m k = Some (<[dat m := c1]> hp, m)
    /\ tril expf hp m k = Some (<[dat m := c2]> hp, m)
    /\ length c1 = length c0 /\ length c2 = length c0
    /\ forall r c, 0 <= r < rows m -> 0 <= c < cols m ->
         let i := r * cols m + c in
         let masked := f32_ltb (f32_div (f32_of_int i) k) (f32_of_int (i `rem` ki)) in
         exists x, c0 !! Z.to_nat i = Some x
           /\ c1 !! Z.to_nat i
              = Some (if masked then f32_zero
                      else expf (f32_div (f32_add x (f32_of_int 0)) (f32_of_int 8)))
           /\ c2 !! Z.to_nat i
              = Some (if masked then f32_zero
                      else expf (f32_div x (f32_of_int 8))).
Proof.
  intros Hp Hlen HR HC Hk Hki. unfold trilCUDA, tril.
  destruct (UNARY_CUDA_cells (tril_opr expf) hp m k c0
    (fun r c =>
       let i := r * cols m + c in
       if f32_ltb (f32_div (f32_of_int i) k) (f32_of_int (i `rem` ki))
       then f32_zero
       else expf (f32_div (f32_add (default f32_zero (c0 !! Z.to_nat i)) (f32_of_int 0))
                    (f32_of_int 8))) Hp Hlen) as (c1 & Hrun & Hlen1 & Hcells).
  { intros c r cl x _ Hr Hcl Hx. unfold tril_opr, tril_masked.
    rewrite Hk. simpl. rewrite decide_False by done. rewrite Hx. simpl. done. }
  destruct (UNARY_cpu_cells (tril_opr expf) hp m k c0
    (fun r c =>
       let i := r * cols m + c in
       if f32_ltb (f32_div (f32_of_int i) k) (f32_of_int (i `rem` ki))
       then f32_zero
       else expf (f32_div (default f32_zero (c0 !! Z.to_nat i)) (f32_of_int 8)))
    Hp Hlen HR HC) as (c2 & Hrun2 & Hlen2 & Hcells2).
  { intros c r cl x _ Hr Hcl Hx. unfold tril_opr, tril_masked.
    rewrite Hk. simpl. rewrite decide_False by done. rewrite Hx. simpl. done. }
  exists c1, c2. split_and!; try done. intros r c Hr Hc.
  destruct (lookup_lt_is_Some_2 c0 (Z.to_nat (r * cols m + c)) ltac:(nia))
    as [x Hx].
  exists x. split; [done|]. rewrite Hcells, Hcells2 by done. simpl.
  by rewrite Hx.
Qed.

(** C6, as stated, fails: in a 2 x 2 matrix with k = 2 the entry (1,1) has
    row / k = 0.5 < 1 = col mod k, yet its flat index 3 gives
    3 / 2 = 1.5 >= 1 = 3 mod 2: the code keeps it (exp), the document zeroes
    it. *)
Lemma tril_not_row_col_mask :
  tril_masked_spec 1 1 (f32_of_int 2) = Some true
  /\ tril_masked (1 * 2 + 1) (f32_of_int 2) = Some false
  /\ (forall expf : f32 -> f32,
        trilCUDA expf tril_hp tril_M (f32_of_int 2)
        = Some ({[ 1%positive :=
                    [ expf (f32_div (f32_of_int 1) (f32_of_int 8)); f32_zero;
                      expf (f32_div (f32_of_int 3) (f32_of_int 8));
                      expf (f32_div (f32_of_int 4) (f32_of_int 8)) ] ]}, tril_M)
        /\ tril expf tril_hp tril_M (f32_of_int 2)
           = trilCUDA expf tril_hp tril_M (f32_of_int 2)).
Proof.
  split; [vm_compute; reflexivity|]. split; [vm_compute; reflexivity|].
  intros expf. split; vm_compute; reflexivity.
Qed.

(** ** The inverse-CDF scan *)

Lemma cumulative_S (probs : list f32) (n : nat) (p : f32) :
  probs !! n = Some p ->
  cumulative probs (S n) = f64_add (cumulative probs n) (f64_of_f32 p).
Proof.
  intros Hp. unfold cumulative. rewrite (take_S_r _ _ _ Hp), foldl_app. done.
Qed.

(** The scan completes on every row it can read; it stops at the first
    index whose cumulative sum reaches [rand_val], and otherwise runs off
    the end and yields [length] itself. *)
Lemma weightedSample_scan_spec (probs : list f32) (r : f64) (n : nat) (tmp : Z) :
  0 <= tmp -> (Z.to_nat tmp + n <= length probs)%nat ->
  exists i, weightedSample_scan probs r n (cumulative probs (Z.to_nat tmp)) tmp = Some i
    /\ tmp <= i <= tmp + Z.of_nat n
    /\ (forall j, tmp <= j < i -> f64_geb (cumulative probs (Z.to_nat j + 1)) r = false)
    /\ (i < tmp + Z.of_nat n -> f64_geb (cumulative probs (Z.to_nat i + 1)) r = true).
Proof.
  revert tmp. induction n as [|n IH]; intros tmp Htmp Hlen; simpl.
  - exists tmp. split_and!; try done; lia.
  - rewrite load_lookup by done.
    destruct (lookup_lt_is_Some_2 probs (Z.to_nat tmp) ltac:(lia)) as [p Hp].
    rewrite Hp. simpl. rewrite <- (cumulative_S _ _ _ Hp).
    destruct (f64_geb (cumulative probs (S (Z.to_nat tmp))) r) eqn:Hge.
    + exists tmp. split_and!; try done; try lia.
      intros _. by rewrite Nat.add_1_r.
    + destruct (IH (tmp + 1)) as (i & Hrun & Hi & Hbefore & Hat); [lia..|].
      replace (Z.to_nat (tmp + 1)) with (S (Z.to_nat tmp)) in Hrun by lia.
      exists i. rewrite Hrun. split_and!; try done; try lia.
      * intros j Hj. destruct (decide (j = tmp)) as [->|].
        -- by rewrite Nat.add_1_r.
        -- apply Hbefore. lia.
      * intros Hlt. apply Hat. lia.
Qed.

(** X1: on every row it can read, [weightedSampleKernel] returns the first
    index whose cumulative sum (in double, from left to right) reaches
    [rand_val], and returns [length] itself when no cumulative sum does;
    the result lies between 0 and [length], both included. *)
Lemma weightedSampleKernel_spec (probs : list f32) (r : f64) (len : Z) :
  0 <= len <= Z.of_nat (length probs) ->
  exists i, weightedSampleKernel probs r len = Some i
    /\ 0 <= i <= len
    /\ (forall j, 0 <= j < i -> f64_geb (cumulative probs (Z.to_nat j + 1)) r = false)
    /\ (i < len -> f64_geb (cumulative probs (Z.to_nat i + 1)) r = true).
Proof.
  intros Hlen. unfold weightedSampleKernel.
  destruct (weightedSample_scan_spec probs r (Z.to_nat len) 0) as (i & Hrun & Hi & H);
    [lia..|].
  exists i. split; [exact Hrun|]. split; [lia|]. destruct H as [H1 H2].
  split; [done|]. intros ?. apply H2. lia.
Qed.

(** C1: on the normalised uniform row of width 25 (every entry the float
    nearest to 1/25, whose 25-fold sum stays below 1) the scan never reaches
    a draw of 1.0 = RAND_MAX / RAND_MAX, nor the draw just below it, and the
    kernel returns 25, which is not an index of the row. *)
Theorem weightedSample_uniform25_out_of_range :
  weightedSampleKernel uniform25 (f64_of_int 1) 25 = Some 25
  /\ weightedSampleKernel uniform25
       (f64_div (f64_of_int 2147483646) (f64_of_int 2147483647)) 25 = Some 25
  /\ Z.of_nat (length uniform25) = 25
  /\ ~ (0 <= 25 < Z.of_nat (length uniform25)).
Proof.
  split; [vm_compute; reflexivity|]. split; [vm_compute; reflexivity|].
  split; [reflexivity|]. vm_compute. intros [_ H]. discriminate.
Qed.

(** ** Strided loops *)

Lemma elem_of_stride_loop (fuel : nat) (i stop step x : Z) :
  0 < step ->
  x ∈ stride_loop fuel i stop step <->
  exists q : nat, (q < fuel)%nat /\ x = i + Z.of_nat q * step /\ x < stop.
Proof.
  intros Hstep. revert i. induction fuel as [|fuel IH]; intros i; simpl.
  - split; [intros H; by apply elem_of_nil in H|intros (q & ? & _); lia].
  - case_decide as Hi.
    + rewrite elem_of_cons, IH. split.
      * intros [->|(q & Hq & -> & Hlt)].
        -- exists 0%nat. split; [lia|]. split; [lia|done].
        -- exists (S q). split; [lia|]. split; [lia|done].
      * intros (q & Hq & -> & Hlt). destruct q as [|q].
        -- left. lia.
        -- right. exists q. split; [lia|]. split; [lia|done].
    + split; [intros H; by apply elem_of_nil in H|].
      intros (q & _ & -> & Hlt). nia.
Qed.

Lemma elem_of_for_stride (start stop step x : Z) :
  0 < step ->
  x ∈ for_stride start stop step <->
  start <= x < stop /\ (x - start) `mod` step = 0.
Proof.
  intros Hstep. unfold for_stride. rewrite elem_of_stride_loop by done. split.
  - intros (q & Hq & -> & Hlt). split; [nia|].
    replace (start + Z.of_nat q * step - start) with (Z.of_nat q * step) by lia.
    apply Z.mod_mul. lia.
  - intros [Hx Hmod]. apply Z.mod_divide in Hmod as [q Hq]; [|lia].
    assert (0 <= q) by nia.
    exists (Z.to_nat q). split; [nia|]. split; [lia|lia].
Qed.

Lemma NoDup_stride_loop (fuel : nat) (i stop step : Z) :
  0 < step -> NoDup (stride_loop fuel i stop step).
Proof.
  intros Hstep. revert i. induction fuel as [|fuel IH]; intros i; simpl.
  - apply NoDup_nil_2.
  - case_decide; [|apply NoDup_nil_2]. apply NoDup_cons. split; [|apply IH].
    rewrite elem_of_stride_loop by done. intros (q & _ & Hq & _). nia.
Qed.

(** Residue classes [t, t + n, t + 2n, ...] for [t < n] cover [0, stop)
    once. *)
Lemma strided_cover (n stop : Z) :
  0 < n ->
  NoDup (seqZ 0 n ≫= fun t => for_stride t stop n)
  /\ forall x, x ∈ (seqZ 0 n ≫= fun t => for_stride t stop n) <-> 0 <= x < stop.
Proof.
  intros Hn. split.
  - apply NoDup_bind; [| |apply NoDup_seqZ].
    + intros t1 t2 x Ht1 Ht2 H1 H2.
      apply elem_of_seqZ in Ht1, Ht2.
      apply elem_of_for_stride in H1 as [H1 M1], H2 as [H2 M2]; try done.
      apply Z.mod_divide in M1 as [q1 Hq1], M2 as [q2 Hq2]; try lia.
      assert (q1 * n + t1 = q2 * n + t2) by lia.
      apply (quot_rem_unique n) in H; lia.
    + intros t _. apply NoDup_stride_loop. done.
  - intros x. rewrite list_elem_of_bind. split.
    + intros (t & Hx & Ht). apply elem_of_seqZ in Ht.
      apply elem_of_for_stride in Hx as [Hx _]; lia.
    + intros Hx. exists (x `mod` n).
      pose proof (Z.mod_pos_bound x n Hn).
      split; [|apply elem_of_seqZ; lia].
      apply elem_of_for_stride; [done|]. split.
      * pose proof (Z.mod_le x n ltac:(lia) Hn). lia.
      * rewrite Zminus_mod_idemp_r. replace (x - x) with 0 by lia. done.
Qed.

Lemma strided_Permutation (n stop : Z) :
  0 < n -> (seqZ 0 n ≫= fun t => for_stride t stop n) ≡ₚ seqZ 0 stop.
Proof.
  intros Hn. destruct (strided_cover n stop Hn) as [Hnd Hin].
  apply NoDup_Permutation; [done|apply NoDup_seqZ|].
  intros x. rewrite Hin, elem_of_seqZ. lia.
Qed.

(** ** Sums in some order *)

Section SumOf.
Context {A : Type}.
Variable add : A -> A -> A.
Variable zero : A.

Lemma sum_of_foldl (l : list A) : sum_of add zero l (foldl add zero l).
Proof.
  induction l as [|x l IH] using rev_ind; simpl.
  - constructor.
  - rewrite foldl_app. simpl. apply sum_of_add; [done|constructor].
Qed.

Lemma sum_of_parts_from (l0 : list A) (a0 : A) (parts : list (list A))
  (vals : list A) :
  sum_of add zero l0 a0 ->
  Forall2 (sum_of add zero) parts vals ->
  sum_of add zero (l0 ++ concat parts) (foldl add a0 vals).
Proof.
  intros H0 H. revert l0 a0 H0.
  induction H as [|p v parts vals Hp Hrest IH]; intros l0 a0 H0; simpl.
  - by rewrite app_nil_r.
  - rewrite app_assoc. apply IH. by apply sum_of_add.
Qed.

Lemma sum_of_parts (parts : list (list A)) (vals : list A) :
  Forall2 (sum_of add zero) parts vals ->
  sum_of add zero (concat parts) (foldl add zero vals).
Proof. intros H. apply (sum_of_parts_from [] zero); [constructor|done]. Qed.

(** In exact arithmetic (a commutative monoid) every [sum_of] is the sum. *)
Lemma sum_of_exact (l : list A) (v : A) :
  (forall x y z, add x (add y z) = add (add x y) z) ->
  (forall x y, add x y = add y x) ->
  (forall x, add zero x = x) ->
  sum_of add zero l v -> v = foldr add zero l.
Proof.
  intros Hassoc Hcomm Hzero H. induction H as [|x|l1 l2 a b _ IH1 _ IH2|l l' a Hp _ IH].
  - done.
  - simpl. by rewrite (Hcomm x zero), Hzero.
  - rewrite foldr_app, IH1, IH2. clear IH1 IH2.
    generalize (foldr add zero l2). intros z.
    induction l1 as [|x l1 IHl]; simpl.
    + apply Hzero.
    + by rewrite <- IHl, Hassoc.
  - rewrite IH. apply (foldr_permutation (=) add zero); [|done].
    intros j1 x1 j2 x2 b _ _ _. by rewrite !Hassoc, (Hcomm x1 x2).
Qed.
End SumOf.

Lemma run_total {T S : Type} (step : T -> S -> option S) (h : S -> T -> S)
  (l : list T) (s : S) :
  (forall t s', t ∈ l -> step t s' = Some (h s' t)) ->
  run step l s = Some (foldl h s l).
Proof.
  revert s. induction l as [|t l IH]; intros s Hstep; simpl; [done|].
  rewrite Hstep by left. simpl. apply IH. intros t' s' Ht'. apply Hstep. by right.
Qed.

Lemma mapM_total {T U : Type} (f : T -> option U) (h : T -> U) (l : list T) :
  (forall t, t ∈ l -> f t = Some (h t)) -> mapM f l = Some (h <$> l).
Proof.
  intros Hf. apply mapM_Some. apply Forall2_fmap_r, Forall_Forall2_diag.
  apply Forall_forall. done.
Qed.

Lemma row_of_lookups (buf : list f32) (R C r : Z) :
  R * C <= Z.of_nat (length buf) -> 0 <= r < R -> 0 <= C ->
  row_of buf C r
  = (fun col => default f32_zero (buf !! Z.to_nat (r * C + col))) <$> seqZ 0 C.
Proof.
  intros Hlen Hr HC. unfold row_of. apply list_eq. intros j.
  rewrite list_lookup_fmap.
  destruct (decide (Z.of_nat j < C)) as [Hj|Hj].
  - rewrite lookup_take_lt by lia. rewrite lookup_drop.
    rewrite lookup_seqZ_lt by done. simpl.
    replace (Z.to_nat (r * C + (0 + Z.of_nat j))) with (Z.to_nat (r * C) + j)%nat by nia.
    destruct (lookup_lt_is_Some_2 buf (Z.to_nat (r * C) + j)) as [x ->]; [nia|done].
  - rewrite lookup_take_ge by lia. rewrite lookup_seqZ_ge by lia. done.
Qed.

(** ** Row sum *)

Lemma indices_row (n : Z) : indices (Dim3 n 1) = (fun i => Dim3 i 0) <$> seqZ 0 n.
Proof.
  unfold indices. cbn [dim_x dim_y]. change (seqZ 0 1) with [0].
  rewrite bind_cons, app_nil_r.
  induction (seqZ 0 n) as [|i l IH]; [done|].
  rewrite bind_cons, fmap_cons, IH. done.
Qed.

Lemma fmap_bind_concat {T U : Type} (x : T -> U) (f : Z -> list T) (l : list Z) :
  concat ((fun t => x <$> f t) <$> l) = x <$> (l ≫= f).
Proof.
  induction l as [|t l IH]; [done|]. rewrite bind_cons, fmap_app, <- IH. done.
Qed.

Lemma sum_row_eq (hp : mem) (pin pout : positive) (ci c : list f32)
  (R C r bdx : Z) :
  hp !! pin = Some ci -> pin ≠ pout ->
  Z.of_nat (length ci) = R * C -> 0 <= r < R -> 0 <= C -> 0 < bdx ->
  0 <= r * C < Z.of_nat (length c) ->
  sum_row pin pout C bdx r (<[pout := c]> hp)
  = Some (<[pout := <[Z.to_nat (r * C) := row_total ci C r bdx]> c]> hp).
Proof.
  intros Hin Hne Hlen Hr HC Hb Hout. unfold sum_row.
  rewrite (mapM_total _ (row_partial ci C r bdx)).
  - cbn [mbind option_bind]. unfold sum_total.
    rewrite (run_total _ (fun s t => f32_add s (row_partial ci C r bdx t))).
    + cbn [mbind option_bind]. fold (row_total ci C r bdx). by apply wr_insert.
    + intros t s Ht. apply elem_of_seqZ in Ht. rewrite load_lookup by lia.
      rewrite list_lookup_fmap, lookup_seqZ_lt by lia.
      cbn [fmap option_fmap option_map mbind option_bind].
      by replace (0 + Z.of_nat (Z.to_nat t)) with t by lia.
  - intros tx Htx. apply elem_of_seqZ in Htx. unfold sum_partial.
    apply run_total. intros col s Hcol.
    apply elem_of_for_stride in Hcol as [Hcol _]; [|lia].
    unfold rd. rewrite lookup_insert_ne, Hin by done. cbn [mbind option_bind].
    rewrite load_lookup by nia.
    destruct (lookup_lt_is_Some_2 ci (Z.to_nat (r * C + col))) as [x ->]; [nia|done].
Qed.

Lemma row_total_sum_of (ci : list f32) (R C r bdx : Z) :
  Z.of_nat (length ci) = R * C -> 0 <= r < R -> 0 <= C -> 0 < bdx ->
  sum_of f32_add f32_zero (row_of ci C r) (row_total ci C r bdx).
Proof.
  intros Hlen Hr HC Hb. rewrite (row_of_lookups ci R C r) by (done || lia).
  set (x := fun col => default f32_zero (ci !! Z.to_nat (r * C + col))).
  apply (sum_of_perm _ _ (x <$> (seqZ 0 bdx ≫= fun t => for_stride t C bdx))).
  { apply fmap_Permutation, strided_Permutation. lia. }
  rewrite <- fmap_bind_concat. unfold row_total.
  rewrite <- (foldl_fmap f32_add f32_zero (seqZ 0 bdx) (row_partial ci C r bdx)).
  apply sum_of_parts. apply Forall2_fmap, Forall_Forall2_diag, Forall_forall.
  intros t _. unfold row_partial.
  change (sum_of f32_add f32_zero (x <$> for_stride t C bdx)
            (foldl (fun a b => f32_add a (x b)) f32_zero (for_stride t C bdx))).
  rewrite <- (foldl_fmap f32_add f32_zero (for_stride t C bdx) x).
  apply sum_of_foldl.
Qed.

Lemma sumCudaKernel_launch (hp : mem) (pin pout : positive) (ci co : list f32)
  (R C gdx bdx : Z) :
  hp !! pin = Some ci -> hp !! pout = Some co -> pin ≠ pout ->
  Z.of_nat (length ci) = R * C ->
  0 <= R -> 0 < C -> 0 < gdx -> 0 < bdx ->
  (R - 1) * C < Z.of_nat (length co) ->
  exists co',
    launch_blocks (Dim3 gdx 1) (Dim3 bdx 1) (sumCudaKernel pin pout R C) hp
    = Some (<[pout := co']> hp)
    /\ length co' = length co
    /\ (forall r, 0 <= r < R ->
          co' !! Z.to_nat (r * C) = Some (row_total ci C r bdx))
    /\ (forall j, (forall r, 0 <= r < R -> j ≠ Z.to_nat (r * C)) ->
          co' !! j = co !! j).
Proof.
  intros Hin Hout Hne Hlen HR HC Hg Hb Hco.
  unfold launch_blocks, sumCudaKernel. cbn [dim_x dim_y].
  rewrite <- (run_bind (sum_row pin pout C bdx)
                (fun bi => for_stride (dim_x bi) R gdx)).
  rewrite indices_row, list_fmap_bind.
  change ((fun bi => for_stride (dim_x bi) R gdx) ∘ (fun i => Dim3 i 0))
    with (fun t => for_stride t R gdx).
  destruct (strided_cover gdx R Hg) as [Hnd Hcover].
  set (ts := seqZ 0 gdx ≫= fun t => for_stride t R gdx) in *.
  destruct (run_cells pout hp co (sum_row pin pout C bdx)
              (fun _ => true) (fun r => Z.to_nat (r * C))
              (fun r => row_total ci C r bdx) ts)
    as (co' & Hrun & Hlen' & Hdone & Hkeep); try done.
  - intros r Hr _. apply Hcover in Hr. nia.
  - intros r c Hr [Hl _] _. apply Hcover in Hr.
    apply (sum_row_eq hp _ _ ci c R); try done; [lia|nia].
  - apply NoDup_fmap_2_strong; [|by apply NoDup_filter].
    intros r1 r2 H1 H2 Heq.
    apply list_elem_of_filter in H1 as [_ H1], H2 as [_ H2].
    apply Hcover in H1, H2. nia.
  - exists co'. split_and!; try done.
    + intros r Hr. apply Hdone; [by apply Hcover|done].
    + intros j Hj. apply Hkeep. intros r Hr _ Heq. apply Hcover in Hr.
      by apply (Hj r).
Qed.

(** C7: [sumCUDA] writes to the first column of every row of the output a
    sum of exactly that row's input entries (each entry once, added in the
    kernel's order in float arithmetic), and leaves every other position of
    the output as it was.  The matrix has at least one column. *)
Theorem sumCUDA_row_sums (hp : mem) (a out : Matrix) (ci co : list f32) :
  hp !! dat a = Some ci -> hp !! dat out = Some co -> dat a ≠ dat out ->
  Z.of_nat (length ci) = rows a * cols a ->
  0 <= rows a -> 0 < cols a ->
  (rows a - 1) * cols a < Z.of_nat (length co) ->
  exists co',
    sumCUDA hp a out = Some (<[dat out := co']> hp)
    /\ length co' = length co
    /\ (forall r, 0 <= r < rows a ->
          exists v, co' !! Z.to_nat (r * cols a) = Some v
                    /\ sum_of f32_add f32_zero (row_of ci (cols a) r) v)
    /\ (forall j, (forall r, 0 <= r < rows a -> j ≠ Z.to_nat (r * cols a)) ->
          co' !! j = co !! j).
Proof.
  intros Hin Hout Hne Hlen HR HC Hco.
  destruct (sumCudaKernel_launch hp (dat a) (dat out) ci co (rows a) (cols a)
              128 256 Hin Hout Hne Hlen HR HC eq_refl eq_refl Hco)
    as (co' & Hrun & Hlen' & Hsum & Hkeep).
  exists co'. split; [exact Hrun|]. split; [exact Hlen'|]. split; [|exact Hkeep].
  intros r Hr. exists (row_total ci (cols a) r 256). split; [by apply Hsum|].
  apply (row_total_sum_of ci (rows a)); [exact Hlen|exact Hr|lia|reflexivity].
Qed.

(** ** Rounding never produces a negative zero from a sum *)

Section Rounding.
Variables prec emax : Z.
Hypothesis Hprec : 0 < prec.

Lemma digits2_pos_bounds (m : positive) :
  2 ^ (Z.pos (digits2_pos m) - 1) <= Z.pos m < 2 ^ Z.pos (digits2_pos m).
Proof.
  induction m as [m IH|m IH|]; simpl digits2_pos.
  - rewrite Pos2Z.inj_succ.
    replace (Z.succ (Z.pos (digits2_pos m)) - 1) with (Z.succ (Z.pos (digits2_pos m) - 1)) by lia.
    rewrite !Z.pow_succ_r by lia. lia.
  - rewrite Pos2Z.inj_succ.
    replace (Z.succ (Z.pos (digits2_pos m)) - 1) with (Z.succ (Z.pos (digits2_pos m) - 1)) by lia.
    rewrite !Z.pow_succ_r by lia. lia.
  - simpl. lia.
Qed.

Lemma shr_1_m (mrs : shr_record) :
  0 <= shr_m mrs -> shr_m (shr_1 mrs) = shr_m mrs `div` 2.
Proof.
  destruct mrs as [m r s]. cbn [shr_m]. intros Hm.
  destruct m as [|[p|p|]|p]; cbn [shr_1 shr_m]; try lia; try done.
  - apply (Z.div_unique _ _ _ 1); lia.
  - apply (Z.div_unique _ _ _ 0); lia.
Qed.

Lemma iter_shr_m (p : positive) (mrs : shr_record) :
  0 <= shr_m mrs ->
  shr_m (SpecFloat.iter_pos shr_1 p mrs) = shr_m mrs `div` 2 ^ Z.pos p.
Proof.
  revert mrs. induction p as [p IH|p IH|]; intros mrs Hm; cbn [SpecFloat.iter_pos].
  - assert (H1 : 0 <= shr_m (shr_1 mrs)) by (rewrite shr_1_m by done; apply Z.div_pos; lia).
    assert (H2 : 0 <= shr_m (SpecFloat.iter_pos shr_1 p (shr_1 mrs)))
      by (rewrite IH by done; apply Z.div_pos; lia).
    rewrite IH, IH, shr_1_m by done.
    rewrite !Z.div_div by lia. f_equal.
    replace (Z.pos p~1) with (1 + Z.pos p + Z.pos p) by lia.
    rewrite !Z.pow_add_r by lia. change (2 ^ 1) with 2. lia.
  - assert (H2 : 0 <= shr_m (SpecFloat.iter_pos shr_1 p mrs))
      by (rewrite IH by done; apply Z.div_pos; lia).
    rewrite IH, IH by done. rewrite Z.div_div by lia. f_equal.
    replace (Z.pos p~0) with (Z.pos p + Z.pos p) by lia.
    rewrite !Z.pow_add_r by lia. lia.
  - rewrite shr_1_m by done. done.
Qed.

Lemma shr_record_of_loc_m (m : Z) (l : location) :
  shr_m (shr_record_of_loc m l) = m.
Proof. by destruct l as [|[]]. Qed.

(** Shifting to the format's exponent never yields an exponent below
    [emin], and keeps a positive mantissa positive when the exponent it
    starts from is not below [emin]. *)
Lemma shr_fexp_exp (m e : Z) (l : location) :
  emin prec emax <= snd (shr_fexp prec emax m e l).
Proof.
  unfold shr_fexp, shr, fexp.
  destruct (Z.max (Zdigits2 m + e - prec) (emin prec emax) - e) as [|n|n] eqn:Hn;
    cbn [snd]; lia.
Qed.

Lemma shr_fexp_pos (m e : Z) (l : location) :
  0 < m -> emin prec emax <= e ->
  0 < shr_m (fst (shr_fexp prec emax m e l)).
Proof.
  intros Hm He. unfold shr_fexp, shr, fexp.
  destruct m as [|m|m]; try lia. cbn [Zdigits2].
  pose proof (digits2_pos_bounds m) as [Hlo _].
  destruct (Z.max (Z.pos (digits2_pos m) + e - prec) (emin prec emax) - e)
    as [|n|n] eqn:Hn; cbn [fst].
  - rewrite shr_record_of_loc_m. lia.
  - rewrite iter_shr_m, shr_record_of_loc_m by (rewrite shr_record_of_loc_m; lia).
    assert (Z.pos n = Z.pos (digits2_pos m) - prec) as -> by lia.
    apply Z.div_str_pos. split; [apply Z.pow_pos_nonneg; lia|].
    etrans; [|exact Hlo]. apply Z.pow_le_mono_r; lia.
  - rewrite shr_record_of_loc_m. lia.
Qed.

Lemma round_nearest_even_pos (m : Z) (l : location) :
  0 < m -> 0 < round_nearest_even m l.
Proof.
  intros Hm. destruct l as [|[]]; cbn [round_nearest_even]; try done; try lia.
  destruct (Z.even m); lia.
Qed.

Lemma binary_round_aux_exp_ok (s : bool) (m e : Z) (l : location) :
  exp_ok prec emax (binary_round_aux prec emax s m e l).
Proof.
  unfold binary_round_aux.
  destruct (shr_fexp prec emax m e l) as [mrs' e'] eqn:H1.
  pose proof (shr_fexp_exp (round_nearest_even (shr_m mrs') (loc_of_shr_record mrs'))
                e' loc_Exact) as He.
  destruct (shr_fexp prec emax _ e' loc_Exact) as [mrs'' e''].
  cbn [snd] in He.
  destruct (shr_m mrs'') as [|m2|m2]; try done.
  case_match; done.
Qed.

(** Rounding a positive mantissa whose exponent is not below [emin] never
    underflows to zero. *)
Lemma binary_round_aux_nonzero (s : bool) (m e : Z) (l : location) :
  0 < m -> emin prec emax <= e ->
  forall s', binary_round_aux prec emax s m e l <> S754_zero s'.
Proof.
  intros Hm He s'. unfold binary_round_aux.
  pose proof (shr_fexp_pos m e l Hm He) as Hpos1.
  pose proof (shr_fexp_exp m e l) as He1.
  destruct (shr_fexp prec emax m e l) as [mrs' e']. cbn [fst snd] in *.
  pose proof (shr_fexp_pos _ e' loc_Exact
                (round_nearest_even_pos _ (loc_of_shr_record mrs') Hpos1) He1) as Hpos2.
  destruct (shr_fexp prec emax _ e' loc_Exact) as [mrs'' e'']. cbn [fst] in Hpos2.
  destruct (shr_m mrs'') as [|m2|m2]; try lia.
  case_match; done.
Qed.

Lemma shl_align_exp (m : positive) (e e' : Z) :
  snd (shl_align m e e') = Z.min e e'.
Proof. unfold shl_align. destruct (e' - e) eqn:H; cbn [snd]; lia. Qed.

Lemma binary_round_nonzero (s : bool) (m : positive) (e : Z) :
  emin prec emax <= e ->
  forall s', binary_round prec emax s m e <> S754_zero s'.
Proof.
  intros He s'. unfold binary_round.
  pose proof (shl_align_exp m e (fexp prec emax (Z.pos (digits2_pos m) + e))) as Hal.
  destruct (shl_align m e _) as [mz ez]. cbn [snd] in Hal.
  apply binary_round_aux_nonzero; [lia|]. unfold fexp in Hal. lia.
Qed.

Lemma binary_round_exp_ok (s : bool) (m : positive) (e : Z) :
  exp_ok prec emax (binary_round prec emax s m e).
Proof.
  unfold binary_round. destruct (shl_align m e _) as [mz ez].
  apply binary_round_aux_exp_ok.
Qed.

Lemma SFmul_exp_ok (x y : spec_float) : exp_ok prec emax (SFmul prec emax x y).
Proof.
  destruct x as [| | |sx mx ex], y as [| | |sy my ey]; try done.
  apply binary_round_aux_exp_ok.
Qed.

(** An accumulator that is not -0 stays so under [+]. *)
Lemma SFadd_safe (x y : spec_float) :
  exp_ok prec emax x -> exp_ok prec emax y -> x <> S754_zero true ->
  exp_ok prec emax (SFadd prec emax x y) /\ SFadd prec emax x y <> S754_zero true.
Proof.
  intros Hx Hy Hnz.
  destruct x as [[]|[]| |sx mx ex], y as [[]|[]| |sy my ey]; try done.
  cbn [SFadd]. unfold binary_normalize.
  destruct (cond_Zopp sx _ + cond_Zopp sy _) as [|m|m]; [done| |].
  - split; [apply binary_round_exp_ok|].
    apply binary_round_nonzero. simpl in Hx, Hy. lia.
  - split; [apply binary_round_exp_ok|].
    apply binary_round_nonzero. simpl in Hx, Hy. lia.
Qed.

Lemma SFadd_zero_r (x : spec_float) :
  x <> S754_zero true -> SFadd prec emax x (S754_zero false) = x.
Proof. by destruct x as [[]|[]| |]. Qed.
End Rounding.

Lemma f32_safe_zero : f32_safe f32_zero.
Proof. split; done. Qed.

Lemma f32_acc_safe (v x y : f32) :
  f32_safe v -> f32_safe (f32_add v (f32_mul x y)).
Proof.
  intros [Hv Hnz]. apply SFadd_safe; try done. apply SFmul_exp_ok.
Qed.

Lemma f32_mac_safe (v x y : f32) : f32_safe v -> f32_safe (f32_mac false v x y).
Proof. apply f32_acc_safe. Qed.

(** A zero-filled tile element accumulates [0 * 0], which in both builds
    amounts to [value + 0]: the value is kept, except that a negative zero
    becomes [+0]. *)
Lemma f32_mac_zero (fmad : bool) (v : f32) :
  f32_mac fmad v f32_zero f32_zero = f32_add v f32_zero.
Proof. destruct fmad; [|done]. by destruct v as [[]|[]| |]. Qed.

Lemma f32_add_zero_idem (v : f32) :
  f32_add (f32_add v f32_zero) f32_zero = f32_add v f32_zero.
Proof. by destruct v as [[]|[]| |]. Qed.

Lemma f32_add_zero_safe (v : f32) : f32_safe v -> f32_add v f32_zero = v.
Proof. intros [_ Hnz]. by apply SFadd_zero_r. Qed.

Lemma zero_filled_cases (aCols : Z) (d : f32) :
  zero_filled aCols d = d
  \/ (d = S754_zero true /\ zero_filled aCols d = S754_zero false).
Proof.
  unfold zero_filled. case_decide; [by left|].
  destruct d as [[]|[]| |]; (by left) || (by right).
Qed.

Lemma zero_filled_safe (aCols : Z) (d : f32) : f32_safe d -> zero_filled aCols d = d.
Proof. intros Hd. unfold zero_filled. case_decide; [done|by apply f32_add_zero_safe]. Qed.

(** ** Naive matrix multiply *)

Lemma zip_fmap_diag {T U V : Type} (f : T -> U) (g : T -> V) (l : list T) :
  zip (f <$> l) (g <$> l) = (fun x => (f x, g x)) <$> l.
Proof. induction l as [|x l IH]; [done|]. rewrite !fmap_cons. simpl. by rewrite IH. Qed.

Lemma dot_cell_rows (fmad : bool) (ca cb : list f32) (aRows aCols bRows i j : Z) :
  aRows * aCols <= Z.of_nat (length ca) ->
  bRows * aCols <= Z.of_nat (length cb) ->
  0 <= i < aRows -> 0 <= j < bRows -> 0 <= aCols ->
  dot_cell fmad ca cb aCols i j = dot fmad (row_of ca aCols i) (row_of cb aCols j).
Proof.
  intros Ha Hb Hi Hj HC. unfold dot, dot_cell.
  rewrite (row_of_lookups ca aRows), (row_of_lookups cb bRows) by done.
  rewrite zip_fmap_diag, foldl_fmap. done.
Qed.

Lemma rd_insert_ne (m : mem) (p q : positive) (c : list f32) (i : Z) :
  p ≠ q -> rd (<[p := c]> m) q i = rd m q i.
Proof. intros Hne. unfold rd. by rewrite lookup_insert_ne. Qed.

Lemma rd_lookup (m : mem) (p : positive) (c : list f32) (i : Z) :
  m !! p = Some c -> 0 <= i < Z.of_nat (length c) ->
  rd m p i = Some (default f32_zero (c !! Z.to_nat i)).
Proof.
  intros Hp Hi. unfold rd. rewrite Hp. cbn [mbind option_bind].
  rewrite load_lookup by lia.
  destruct (lookup_lt_is_Some_2 c (Z.to_nat i)) as [x ->]; [lia|done].
Qed.

Lemma rd_beyond (m : mem) (p : positive) (c : list f32) (i : Z) :
  m !! p = Some c -> Z.of_nat (length c) <= i -> rd m p i = None.
Proof.
  intros Hp Hi. unfold rd. rewrite Hp. cbn [mbind option_bind].
  unfold load. case_decide; [|done]. apply lookup_ge_None_2. lia.
Qed.

Lemma wr_lookup_ne (m m' : mem) (p q : positive) (i : Z) (v : f32) :
  wr m p i v = Some m' -> q ≠ p -> m' !! q = m !! q.
Proof.
  unfold wr. destruct (m !! p) as [buf|]; [|done]. cbn [mbind option_bind].
  destruct (store buf i v) as [buf'|]; [|done]. cbn [mbind option_bind].
  intros [= <-] Hne. by rewrite lookup_insert_ne.
Qed.

Lemma matMulNaive_launch (fmad : bool) (m : mem) (A B C : positive)
  (ca cb cc : list f32) (aRows aCols bRows : Z) :
  m !! A = Some ca -> m !! B = Some cb -> m !! C = Some cc ->
  A ≠ C -> B ≠ C ->
  aRows * aCols <= Z.of_nat (length ca) ->
  bRows * aCols <= Z.of_nat (length cb) ->
  Z.of_nat (length cc) = aRows * bRows ->
  exists cc',
    launch (Dim3 (CEIL_DIV bRows 32) (CEIL_DIV aRows 32)) (Dim3 32 32)
      (matMulCudaKernelNaive fmad A B C aRows aCols bRows) m
    = Some (<[C := cc']> m)
    /\ length cc' = length cc
    /\ forall i j, 0 <= i < aRows -> 0 <= j < bRows ->
         cc' !! Z.to_nat (i * bRows + j) = Some (dot_cell fmad ca cb aCols i j).
Proof.
  intros HA HB HC HAC HBC Hla Hlb Hlc.
  apply (launch_cells aRows bRows C m cc _ (dot_cell fmad ca cb aCols)); try done.
  intros t c Ht [Hlen _] i _. unfold matMulCudaKernelNaive.
  fold (thread_row t) (thread_col t).
  case_decide as Hg; [|done]. destruct Hg as [Hr Hc].
  pose proof (cell_in_range t _ _ aRows bRows Ht ltac:(simpl; lia)
                ltac:(simpl; lia) Hr Hc) as (Hr0 & Hc0 & Hi).
  fold (thread_row t) (thread_col t) in Hr0, Hc0, Hi.
  rewrite (run_total _ (fun v k =>
             f32_mac fmad v
               (default f32_zero (ca !! Z.to_nat (thread_row t * aCols + k)))
               (default f32_zero (cb !! Z.to_nat (thread_col t * aCols + k))))).
  - cbn [mbind option_bind].
    fold (dot_cell fmad ca cb aCols (thread_row t) (thread_col t)).
    apply wr_insert. lia.
  - intros k v Hk. apply elem_of_seqZ in Hk.
    rewrite !rd_insert_ne by done.
    rewrite (rd_lookup m A ca), (rd_lookup m B cb) by (done || nia). done.
Qed.

(** When B's buffer is shorter than [bRows] rows of [aCols] floats, the
    thread of the cell [(0, bRows - 1)] reads beyond it. *)
Lemma matMulNaive_launch_beyond (fmad : bool) (m : mem) (A B C : positive)
  (cb : list f32) (aRows aCols bRows : Z) :
  m !! B = Some cb -> B ≠ C -> 0 < aRows -> 0 < bRows ->
  Z.of_nat (length cb) < bRows * aCols ->
  launch (Dim3 (CEIL_DIV bRows 32) (CEIL_DIV aRows 32)) (Dim3 32 32)
    (matMulCudaKernelNaive fmad A B C aRows aCols bRows) m
  = None.
Proof.
  intros HB HBC HaR HbR Hlb.
  destruct (thread_of_grid aRows bRows 0 (bRows - 1)) as (Ht & Hrow & Hcol); [lia..|].
  set (t0 := thread_of _ _ 0 (bRows - 1)) in *.
  apply (run_fails (fun s => s !! B = Some cb) _ _ t0); [done|done| |].
  - intros t s0 s1 _ Hs0. unfold matMulCudaKernelNaive.
    case_decide; [|by intros [= <-]].
    destruct (run _ _ _) as [v|]; [|done]. cbn [mbind option_bind].
    intros Hwr. by rewrite (wr_lookup_ne _ _ _ _ _ _ Hwr).
  - intros s0 Hs0. unfold matMulCudaKernelNaive.
    fold (thread_row t0) (thread_col t0). rewrite Hrow, Hcol.
    rewrite decide_True by lia.
    rewrite (run_fails (fun _ => True) _ _ (aCols - 1)); [done|done| |done|].
    + apply elem_of_seqZ. nia.
    + intros v _. destruct (rd s0 A _); [|done]. cbn [mbind option_bind].
      rewrite (rd_beyond s0 B cb) by (done || nia). done.
Qed.

(** ** Blocks, phases and shared tiles *)

Lemma run_ext {T S : Type} (f g : T -> S -> option S) (l : list T) (s : S) :
  (forall t s', t ∈ l -> f t s' = g t s') -> run f l s = run g l s.
Proof.
  revert s. induction l as [|t l IH]; intros s H; simpl; [done|].
  rewrite H by left. destruct (g t s) as [s'|]; simpl; [|done].
  apply IH. intros t' s'' Ht'. apply H. by right.
Qed.

Lemma run_fmap {T U S : Type} (f : U -> S -> option S) (h : T -> U)
  (l : list T) (s : S) :
  run f (h <$> l) s = run (fun t => f (h t)) l s.
Proof.
  revert s. induction l as [|t l IH]; intros s; simpl; [done|].
  destruct (f (h t) s) as [s'|]; simpl; [apply IH|done].
Qed.

(** Two runs that agree step by step on the states an invariant allows. *)
Lemma run_ext_inv {T S : Type} (I : S -> Prop) (f g : T -> S -> option S)
  (l : list T) (s : S) :
  I s ->
  (forall t s0, t ∈ l -> I s0 -> f t s0 = g t s0) ->
  (forall t s0 s1, t ∈ l -> I s0 -> g t s0 = Some s1 -> I s1) ->
  run f l s = run g l s.
Proof.
  revert s. induction l as [|t l IH]; intros s Hs Heq Hinv; simpl; [done|].
  rewrite Heq by (done || left). destruct (g t s) as [s'|] eqn:Hg; simpl; [|done].
  apply IH.
  - apply (Hinv t s); [left|done..].
  - intros t' s0 Ht'. apply Heq. by right.
  - intros t' s0 s1 Ht'. apply Hinv. by right.
Qed.

Lemma run_inv_Some {T S : Type} (I : S -> Prop) (f : T -> S -> option S)
  (l : list T) (s s' : S) :
  I s ->
  (forall t s0 s1, t ∈ l -> I s0 -> f t s0 = Some s1 -> I s1) ->
  run f l s = Some s' -> I s'.
Proof.
  revert s. induction l as [|t l IH]; intros s Hs Hinv; simpl.
  - by intros [= <-].
  - destruct (f t s) as [s1|] eqn:Hf; simpl; [|done]. apply IH.
    + apply (Hinv t s); [left|done..].
    + intros t' s0 s2 Ht'. apply Hinv. by right.
Qed.

Lemma grid_threads_blocks (g b : dim3) :
  grid_threads g b = indices g ≫= fun bi => Thread g b bi <$> indices b.
Proof.
  unfold grid_threads. f_equal.
Qed.

Lemma launch_blocks_threads {S : Type} (I : S -> Prop) (g b : dim3)
  (body : dim3 -> dim3 -> dim3 -> S -> option S)
  (kernel : thread -> S -> option S) (s : S) :
  I s ->
  (forall bi s0, bi ∈ indices g -> I s0 ->
     body g b bi s0 = run kernel (Thread g b bi <$> indices b) s0) ->
  (forall t s0 s1, t ∈ grid_threads g b -> I s0 -> kernel t s0 = Some s1 -> I s1) ->
  launch_blocks g b body s = launch g b kernel s.
Proof.
  intros Hs Hbody Hinv. unfold launch_blocks, launch.
  rewrite grid_threads_blocks, run_bind.
  apply (run_ext_inv I); [done|done|].
  intros bi s0 s1 Hbi Hs0. apply run_inv_Some; [done|].
  intros t s2 s3 Ht. apply Hinv. rewrite grid_threads_blocks.
  apply list_elem_of_bind. eauto.
Qed.

Lemma foldl_insert_lookup {T V : Type} `{Countable K} (key : T -> K) (val : T -> V)
  (l : list T) (m0 : gmap K V) (t : T) :
  t ∈ l ->
  (forall t', t' ∈ l -> key t' = key t -> val t' = val t) ->
  foldl (fun m t' => <[key t' := val t']> m) m0 l !! key t = Some (val t).
Proof.
  induction l as [|t' l IH] using rev_ind; intros Ht Hval.
  - by apply elem_of_nil in Ht.
  - rewrite foldl_app. simpl. destruct (decide (key t' = key t)) as [Heq|Hne].
    + rewrite Heq, lookup_insert_eq. f_equal. apply Hval; [|done].
      apply elem_of_app. right. by left.
    + rewrite lookup_insert_ne by done. apply IH.
      * apply elem_of_app in Ht as [?|Ht]; [done|].
        apply list_elem_of_singleton in Ht. by subst.
      * intros t'' Ht''. apply Hval. apply elem_of_app. by left.
Qed.

Lemma foldl_pair {T U V : Type} (f : U -> T -> U) (g : V -> T -> V)
  (l : list T) (u : U) (v : V) :
  foldl (fun (s : U * V) t => (f (fst s) t, g (snd s) t)) (u, v) l
  = (foldl f u l, foldl g v l).
Proof. revert u v. induction l as [|t l IH]; intros u v; simpl; [done|apply IH]. Qed.

Lemma foldl_bind {T U V : Type} (g : V -> U -> V) (f : T -> list U)
  (l : list T) (v : V) :
  foldl g v (l ≫= f) = foldl (fun v t => foldl g v (f t)) v l.
Proof.
  revert v. induction l as [|t l IH]; intros v; [done|].
  rewrite bind_cons, foldl_app. simpl. apply IH.
Qed.

Lemma foldl_ext_in {T V : Type} (f g : V -> T -> V) (l : list T) (v : V) :
  (forall t v', t ∈ l -> f v' t = g v' t) -> foldl f v l = foldl g v l.
Proof.
  revert v. induction l as [|t l IH]; intros v H; simpl; [done|].
  rewrite H by left. apply IH. intros t' v' Ht'. apply H. by right.
Qed.

(** [0, n * d)] tile by tile. *)
Lemma seqZ_tiles (n : nat) (d : Z) :
  0 <= d ->
  seqZ 0 (Z.of_nat n * d)
  = seqZ 0 (Z.of_nat n) ≫= fun mi => (fun k => mi * d + k) <$> seqZ 0 d.
Proof.
  intros Hd. induction n as [|n IH].
  - done.
  - replace (Z.of_nat (S n) * d) with (Z.of_nat n * d + d) by lia.
    replace (Z.of_nat (S n)) with (Z.of_nat n + 1) by lia.
    rewrite !seqZ_app by lia. rewrite bind_app, <- IH. f_equal.
    change (seqZ (0 + Z.of_nat n) 1) with [0 + Z.of_nat n].
    rewrite bind_cons, app_nil_r. simpl.
    replace (0 + Z.of_nat n * d) with (Z.of_nat n * d + 0) by lia.
    rewrite <- fmap_add_seqZ.
    apply list_fmap_ext. intros i k _. lia.
Qed.

(** ** Tiled matrix multiply *)

Lemma guarded_rd (P : Prop) `{Decision P} (m : mem) (p : positive)
  (c : list f32) (i : Z) :
  m !! p = Some c -> (P -> 0 <= i < Z.of_nat (length c)) ->
  (if decide P then rd m p i else Some f32_zero)
  = Some (if decide P then default f32_zero (c !! Z.to_nat i) else f32_zero).
Proof. intros Hp Hi. case_decide; [|done]. apply rd_lookup; auto. Qed.

Section Tiled.
Variable fmad : bool.
Variable m : mem.
Variables A B : positive.
Variables ca cb : list f32.
Variables aRows aCols bRows : Z.
Variables b bi : dim3.

Hypothesis HA : m !! A = Some ca.
Hypothesis HB : m !! B = Some cb.
Hypothesis Hla : aRows * aCols <= Z.of_nat (length ca).
Hypothesis Hlb : bRows * aCols <= Z.of_nat (length cb).
Hypothesis Hbx : dim_x b = TILE_SIZE.
Hypothesis Hby : dim_y b = TILE_SIZE.
Hypothesis Hbi : 0 <= dim_x bi /\ 0 <= dim_y bi.

Lemma load_tiles_spec (mi : Z) :
  0 <= mi ->
  exists As Bs,
    load_tiles A B aRows aCols bRows b bi mi m = Some (As, Bs)
    /\ forall x y, 0 <= x < TILE_SIZE -> 0 <= y < TILE_SIZE ->
         As !! (y, x) = Some (As_val ca aRows aCols mi (dim_y bi * dim_y b + y) x)
         /\ Bs !! (y, x) = Some (Bs_val cb bRows aCols mi (dim_x bi * dim_x b + x) y).
Proof.
  intros Hmi. assert (HT : TILE_SIZE = 32) by reflexivity.
  unfold load_tiles.
  rewrite (run_total _ (fun (tiles : tile * tile) ti =>
    (<[(dim_y ti, dim_x ti) :=
         As_val ca aRows aCols mi (dim_y bi * dim_y b + dim_y ti) (dim_x ti)]> (fst tiles),
     <[(dim_y ti, dim_x ti) :=
         Bs_val cb bRows aCols mi (dim_x bi * dim_x b + dim_x ti) (dim_y ti)]> (snd tiles)))).
  - rewrite (foldl_pair
      (fun (As : tile) ti => <[(dim_y ti, dim_x ti) :=
         As_val ca aRows aCols mi (dim_y bi * dim_y b + dim_y ti) (dim_x ti)]> As)
      (fun (Bs : tile) ti => <[(dim_y ti, dim_x ti) :=
         Bs_val cb bRows aCols mi (dim_x bi * dim_x b + dim_x ti) (dim_y ti)]> Bs)).
    eexists _, _. split; [done|]. intros x y Hx Hy.
    assert (Hin : Dim3 x y ∈ indices b).
    { apply elem_of_indices. cbn [dim_x dim_y]. lia. }
    split.
    + apply (foldl_insert_lookup (fun ti => (dim_y ti, dim_x ti))
               (fun ti => As_val ca aRows aCols mi (dim_y bi * dim_y b + dim_y ti) (dim_x ti))
               _ _ (Dim3 x y) Hin).
      intros [x' y'] _ [= -> ->]. done.
    + apply (foldl_insert_lookup (fun ti => (dim_y ti, dim_x ti))
               (fun ti => Bs_val cb bRows aCols mi (dim_x bi * dim_x b + dim_x ti) (dim_y ti))
               _ _ (Dim3 x y) Hin).
      intros [x' y'] _ [= -> ->]. done.
  - intros ti tiles Hti. apply elem_of_indices in Hti.
    unfold As_val, Bs_val.
    rewrite (guarded_rd _ m A ca), (guarded_rd _ m B cb) by (done || nia).
    done.
Qed.

Lemma tile_step_spec (mi : Z) (V : dim3 -> f32) :
  0 <= mi ->
  tile_step fmad A B aRows aCols bRows b bi m mi (V <$> indices b)
  = Some ((fun ti => tile_acc fmad ca cb aRows aCols bRows
                       (dim_y bi * dim_y b + dim_y ti)
                       (dim_x bi * dim_x b + dim_x ti) mi (V ti)) <$> indices b).
Proof.
  intros Hmi. unfold tile_step.
  destruct (load_tiles_spec mi Hmi) as (As & Bs & -> & Htiles).
  cbn [mbind option_bind fst snd].
  rewrite <- (list_fmap_id (indices b)) at 1. rewrite zip_fmap_diag.
  rewrite (mapM_total _ (fun tv : dim3 * f32 =>
             tile_acc fmad ca cb aRows aCols bRows
               (dim_y bi * dim_y b + dim_y (fst tv))
               (dim_x bi * dim_x b + dim_x (fst tv)) mi (snd tv))).
  - by rewrite <- list_fmap_compose.
  - intros [ti v] Htv. apply list_elem_of_fmap in Htv as (ti' & [= -> ->] & Hti).
    apply elem_of_indices in Hti. cbn [fst snd id]. unfold tile_dot, tile_acc.
    apply run_total. intros k v' Hk. apply elem_of_seqZ in Hk.
    destruct (Htiles k (dim_y ti')) as [-> _]; [lia..|].
    destruct (Htiles (dim_x ti') k) as [_ ->]; [lia..|]. done.
Qed.

Lemma tile_loop_spec (l : list Z) (V : dim3 -> f32) :
  (forall mi, mi ∈ l -> 0 <= mi) ->
  run (tile_step fmad A B aRows aCols bRows b bi m) l (V <$> indices b)
  = Some ((fun ti => foldl (fun v mi =>
             tile_acc fmad ca cb aRows aCols bRows
               (dim_y bi * dim_y b + dim_y ti)
               (dim_x bi * dim_x b + dim_x ti) mi v) (V ti) l) <$> indices b).
Proof.
  revert V. induction l as [|mi l IH]; intros V Hl; simpl.
  - done.
  - rewrite tile_step_spec by (apply Hl; left). cbn [mbind option_bind].
    rewrite IH; [done|]. intros mi' Hmi'. apply Hl. by right.
Qed.
End Tiled.

Lemma tiles_cover (n : Z) :
  0 <= n ->
  0 <= (n - 1) `quot` TILE_SIZE + 1 /\ n <= ((n - 1) `quot` TILE_SIZE + 1) * TILE_SIZE.
Proof.
  intros Hn. assert (HT : TILE_SIZE = 32) by reflexivity. rewrite HT.
  destruct (decide (n = 0)) as [->|Hne]; [done|].
  rewrite Z.quot_div_nonneg by lia.
  pose proof (Z.div_pos (n - 1) 32 ltac:(lia) ltac:(lia)).
  pose proof (Z.mul_succ_div_gt (n - 1) 32 ltac:(lia)). lia.
Qed.

Lemma foldl_mac_safe {T : Type} (a b : T -> f32) (l : list T) (v : f32) :
  f32_safe v ->
  f32_safe (foldl (fun v k => f32_mac false v (a k) (b k)) v l).
Proof.
  revert v. induction l as [|k l IH]; intros v Hv; simpl; [done|].
  apply IH. by apply f32_mac_safe.
Qed.

(** Without the fused multiply-add a sum of products is never [-0]. *)
Lemma dot_cell_safe (ca cb : list f32) (aCols i j : Z) :
  f32_safe (dot_cell false ca cb aCols i j).
Proof. apply foldl_mac_safe, f32_safe_zero. Qed.

Lemma foldl_mac_pad {T : Type} (fmad : bool) (a b : T -> f32) (l : list T) (v : f32) :
  (forall k, k ∈ l -> a k = f32_zero /\ b k = f32_zero) ->
  foldl (fun v k => f32_mac fmad v (a k) (b k)) v l
  = if decide (l = []) then v else f32_add v f32_zero.
Proof.
  revert v. induction l as [|k l IH]; intros v Hl; simpl; [done|].
  destruct (Hl k) as [-> ->]; [left|]. rewrite f32_mac_zero.
  rewrite IH by (intros k' Hk'; apply Hl; by right).
  case_decide; [done|apply f32_add_zero_idem].
Qed.

(** Zero-filled tile elements do not change the sum: after the last tile the
    register holds the dot product of the two rows, with [+0] in the place
    of [-0] when the last tile is partial. *)
Lemma tiled_value_dot (fmad : bool) (ca cb : list f32)
  (aRows aCols bRows row col : Z) :
  0 <= aCols -> row < aRows -> col < bRows ->
  tiled_value fmad ca cb aRows aCols bRows row col
  = zero_filled aCols (dot_cell fmad ca cb aCols row col).
Proof.
  intros HC Hrow Hcol. unfold tiled_value.
  destruct (tiles_cover aCols HC) as [HnT Hcover].
  set (nT := (aCols - 1) `quot` TILE_SIZE + 1) in *.
  set (a := fun kk => if decide (kk < aCols)
                      then default f32_zero (ca !! Z.to_nat (row * aCols + kk))
                      else f32_zero).
  set (bb := fun kk => if decide (kk < aCols)
                       then default f32_zero (cb !! Z.to_nat (col * aCols + kk))
                       else f32_zero).
  transitivity (foldl (fun v kk => f32_mac fmad v (a kk) (bb kk)) f32_zero
                  (seqZ 0 (nT * TILE_SIZE))).
  - replace nT with (Z.of_nat (Z.to_nat nT)) by lia.
    rewrite seqZ_tiles by done. rewrite foldl_bind.
    apply foldl_ext_in. intros mi v _. unfold tile_acc.
    rewrite foldl_fmap. apply foldl_ext_in. intros k v' _.
    unfold As_val, Bs_val, a, bb.
    replace (row * aCols + mi * TILE_SIZE + k) with (row * aCols + (mi * TILE_SIZE + k)) by lia.
    replace (col * aCols + mi * TILE_SIZE + k) with (col * aCols + (mi * TILE_SIZE + k)) by lia.
    repeat case_decide; (done || lia).
  - replace (nT * TILE_SIZE) with (aCols + (nT * TILE_SIZE - aCols)) by lia.
    rewrite seqZ_app, foldl_app by lia.
    rewrite (foldl_mac_pad fmad a bb).
    2:{ intros k Hk. apply elem_of_seqZ in Hk. unfold a, bb.
        rewrite !decide_False by lia. done. }
    assert (Hpre : foldl (fun v kk => f32_mac fmad v (a kk) (bb kk)) f32_zero
                     (seqZ 0 aCols) = dot_cell fmad ca cb aCols row col).
    { unfold dot_cell. apply foldl_ext_in. intros k v Hk. apply elem_of_seqZ in Hk.
      unfold a, bb. rewrite !decide_True by lia. done. }
    rewrite Hpre. unfold zero_filled.
    assert (HT : TILE_SIZE = 32) by reflexivity. rewrite HT in *.
    destruct (decide (aCols = 0)) as [->|Hne].
    { rewrite decide_False by done. rewrite decide_True by done. done. }
    assert (HnTv : nT = (aCols - 1) `div` 32 + 1)
      by (unfold nT; rewrite HT, Z.quot_div_nonneg by lia; done).
    rewrite Z.rem_mod_nonneg by lia.
    pose proof (Z.div_mod (aCols - 1) 32 ltac:(lia)) as Hdm.
    pose proof (Z.mod_pos_bound (aCols - 1) 32 ltac:(lia)) as Hmb.
    pose proof (Z.div_mod aCols 32 ltac:(lia)) as Hdm'.
    pose proof (Z.mod_pos_bound aCols 32 ltac:(lia)) as Hmb'.
    destruct (decide (aCols `mod` 32 = 0)) as [Hz|Hnz].
    + rewrite decide_True; [done|]. apply seqZ_nil. lia.
    + rewrite decide_False; [done|]. intros Hnil.
      apply (f_equal length) in Hnil. rewrite length_seqZ in Hnil.
      simpl in Hnil. lia.
Qed.

Lemma tiled_body (fmad : bool) (hp : mem) (A B C : positive) (ca cb c : list f32)
  (aRows aCols bRows : Z) (g b bi : dim3) :
  hp !! A = Some ca -> hp !! B = Some cb -> A ≠ C -> B ≠ C ->
  aRows * aCols <= Z.of_nat (length ca) ->
  bRows * aCols <= Z.of_nat (length cb) ->
  0 <= aCols ->
  dim_x b = TILE_SIZE -> dim_y b = TILE_SIZE ->
  0 <= dim_x bi /\ 0 <= dim_y bi ->
  matMulCudaKernelOptimized fmad A B C aRows aCols bRows g b bi (<[C := c]> hp)
  = run (store_tiled fmad ca cb C aRows aCols bRows) (Thread g b bi <$> indices b)
      (<[C := c]> hp).
Proof.
  intros HA HB HAC HBC Hla Hlb HC Hbx Hby Hbi.
  unfold matMulCudaKernelOptimized.
  rewrite (tile_loop_spec fmad (<[C := c]> hp) A B ca cb aRows aCols bRows b bi);
    try done; try (by rewrite lookup_insert_ne).
  2:{ intros mi Hmi. apply elem_of_seqZ in Hmi. lia. }
  cbn [mbind option_bind].
  rewrite <- (list_fmap_id (indices b)) at 1. rewrite zip_fmap_diag.
  rewrite !run_fmap. apply run_ext. intros ti s _. done.
Qed.

Lemma matMulTiled_launch (fmad : bool) (hp : mem) (A B C : positive)
  (ca cb cc : list f32) (aRows aCols bRows : Z) :
  hp !! A = Some ca -> hp !! B = Some cb -> hp !! C = Some cc ->
  A ≠ C -> B ≠ C ->
  aRows * aCols <= Z.of_nat (length ca) ->
  bRows * aCols <= Z.of_nat (length cb) ->
  Z.of_nat (length cc) = aRows * bRows ->
  0 <= aCols ->
  exists cc',
    launch_blocks (Dim3 (CEIL_DIV bRows 32) (CEIL_DIV aRows 32)) (Dim3 32 32)
      (matMulCudaKernelOptimized fmad A B C aRows aCols bRows) hp
    = Some (<[C := cc']> hp)
    /\ length cc' = length cc
    /\ forall i j, 0 <= i < aRows -> 0 <= j < bRows ->
         cc' !! Z.to_nat (i * bRows + j)
         = Some (zero_filled aCols (dot_cell fmad ca cb aCols i j)).
Proof.
  intros HA HB HC HAC HBC Hla Hlb Hlc HaCols.
  rewrite (launch_blocks_threads (fun s => exists c, s = <[C := c]> hp) _ _ _
             (store_tiled fmad ca cb C aRows aCols bRows)).
  - apply (launch_cells aRows bRows C hp cc _
             (fun i j => zero_filled aCols (dot_cell fmad ca cb aCols i j))); try done.
    intros t c Ht [Hlen _] i _. unfold store_tiled.
    fold (thread_row t) (thread_col t).
    case_decide as Hg; [|done]. destruct Hg as [Hr Hc].
    pose proof (cell_in_range t _ _ aRows bRows Ht ltac:(simpl; lia)
                  ltac:(simpl; lia) Hr Hc) as (Hr0 & Hc0 & Hi).
    fold (thread_row t) (thread_col t) in Hr0, Hc0, Hi.
    rewrite tiled_value_dot by done. apply wr_insert. lia.
  - exists cc. by rewrite insert_id.
  - intros bi s0 Hbi [c ->]. apply elem_of_indices in Hbi.
    apply tiled_body; try done. lia.
  - intros t s0 s1 _ [c ->]. unfold store_tiled. case_decide; [|intros [= <-]; eauto].
    unfold wr. rewrite lookup_insert_eq. cbn [mbind option_bind].
    destruct (store c _ _) as [c'|]; [|done]. cbn [mbind option_bind].
    intros [= <-]. exists c'. by rewrite insert_insert_eq.
Qed.

(** When B's buffer is shorter than [bRows] rows of [aCols] floats, the
    block of the cell [(0, bRows - 1)] reads beyond it while it loads the
    last tile. *)
Lemma matMulTiled_launch_beyond (fmad : bool) (hp : mem) (A B C : positive)
  (cb : list f32) (aRows aCols bRows : Z) :
  hp !! B = Some cb -> B ≠ C -> 0 < aRows -> 0 < bRows ->
  Z.of_nat (length cb) < bRows * aCols ->
  launch_blocks (Dim3 (CEIL_DIV bRows 32) (CEIL_DIV aRows 32)) (Dim3 32 32)
    (matMulCudaKernelOptimized fmad A B C aRows aCols bRows) hp
  = None.
Proof.
  intros HB HBC HaR HbR Hlb. assert (HT : TILE_SIZE = 32) by reflexivity.
  assert (HaC : 0 < aCols) by nia.
  pose proof (Z.div_mod (aCols - 1) 32 ltac:(lia)) as Hdk.
  pose proof (Z.mod_pos_bound (aCols - 1) 32 ltac:(lia)) as Hmk.
  pose proof (Z.div_mod (bRows - 1) 32 ltac:(lia)) as Hdc.
  pose proof (Z.mod_pos_bound (bRows - 1) 32 ltac:(lia)) as Hmc.
  unfold launch_blocks.
  apply (run_fails (fun s => s !! B = Some cb) _ _ (Dim3 ((bRows - 1) `div` 32) 0));
    [done| | |].
  - apply elem_of_indices. cbn [dim_x dim_y]. split.
    + apply CEIL_DIV_covers; lia.
    + apply (CEIL_DIV_covers 0 aRows 32); lia.
  - intros bi s0 s1 _ Hs0. unfold matMulCudaKernelOptimized.
    destruct (run (tile_step _ _ _ _ _ _ _ _ _) _ _) as [values|]; [|done].
    cbn [mbind option_bind].
    apply (run_inv_Some (fun s => s !! B = Some cb)); [done|].
    intros tv s2 s3 _ Hs2. case_decide; [|by intros [= <-]].
    intros Hwr. by rewrite (wr_lookup_ne _ _ _ _ _ _ Hwr).
  - intros s0 Hs0. unfold matMulCudaKernelOptimized.
    rewrite (run_fails (fun _ => True) _ _ ((aCols - 1) `div` 32)); [done|done| |done|].
    + apply elem_of_seqZ. rewrite HT, Z.quot_div_nonneg by lia.
      pose proof (Z.div_pos (aCols - 1) 32 ltac:(lia) ltac:(lia)). lia.
    + intros values _. unfold tile_step, load_tiles.
      rewrite (run_fails (fun _ => True) _ _
                 (Dim3 ((bRows - 1) `mod` 32) ((aCols - 1) `mod` 32)));
        [done|done| |done|].
      * apply elem_of_indices. cbn [dim_x dim_y]. lia.
      * intros tiles _. cbn [dim_x dim_y]. rewrite HT.
        destruct (if decide (_ /\ _) then rd s0 A _ else _); [|done].
        cbn [mbind option_bind]. rewrite decide_True by lia.
        rewrite (rd_beyond s0 B cb) by (done || nia). done.
Qed.

(** ** The matrix-multiply entry points *)

Lemma dot_cell_take (fmad : bool) (ca cb : list f32) (na nb : nat)
  (aRows aCols bRows i j : Z) :
  aRows * aCols <= Z.of_nat na -> bRows * aCols <= Z.of_nat nb ->
  0 <= i < aRows -> 0 <= j < bRows ->
  dot_cell fmad (take na ca) (take nb cb) aCols i j = dot_cell fmad ca cb aCols i j.
Proof.
  intros Hna Hnb Hi Hj. unfold dot_cell. apply foldl_ext_in.
  intros k v Hk. apply elem_of_seqZ in Hk.
  rewrite !lookup_take_lt by nia. done.
Qed.

Lemma matMulCUDANaive_spec (fmad : bool) (junk : list f32) (hp : mem)
  (a b out : positive) (ca cb cc : list f32) (aRows aCols bRows bCols : Z) :
  hp !! a = Some ca -> hp !! b = Some cb -> hp !! out = Some cc ->
  0 <= aRows -> 0 <= aCols -> 0 <= bRows -> 0 <= bCols ->
  aRows * aCols <= Z.of_nat (length ca) ->
  bRows * bCols <= Z.of_nat (length cb) ->
  bRows * aCols <= bRows * bCols ->
  Z.of_nat (length cc) = aRows * bRows ->
  exists cc',
    matMulCUDANaive fmad junk hp a aRows aCols b bRows bCols out
    = Some (<[out := cc']> hp)
    /\ length cc' = length cc
    /\ forall i j, 0 <= i < aRows -> 0 <= j < bRows ->
         cc' !! Z.to_nat (i * bRows + j) = Some (dot_cell fmad ca cb aCols i j).
Proof.
  intros Ha Hb Hout HaR HaC HbR HbC Hla Hlb Hstride Hlc.
  unfold matMulCUDANaive, memcpy_from. rewrite Ha, Hb. cbn [mbind option_bind].
  rewrite !decide_True by nia. cbn [mbind option_bind].
  set (dA := take (Z.to_nat (aRows * aCols)) ca).
  set (dB := take (Z.to_nat (bRows * bCols)) cb).
  set (dC := resize (Z.to_nat (aRows * bRows)) f32_zero junk).
  set (dev := <[d_A := dA]> (<[d_B := dB]> {[d_C := dC]})).
  destruct (matMulNaive_launch fmad dev d_A d_B d_C dA dB dC aRows aCols bRows)
    as (cc' & Hrun & Hlen' & Hcells); try done.
  - unfold dA. rewrite length_take. nia.
  - unfold dB. rewrite length_take. nia.
  - unfold dC. rewrite length_resize. nia.
  - rewrite Hrun. cbn [mbind option_bind]. rewrite lookup_insert_eq.
    cbn [mbind option_bind]. unfold memcpy_to. rewrite Hout.
    cbn [mbind option_bind].
    assert (Hl : length cc' = Z.to_nat (aRows * bRows))
      by (rewrite Hlen'; unfold dC; by rewrite length_resize).
    rewrite decide_True by lia.
    rewrite take_ge, drop_ge, app_nil_r by lia.
    exists cc'. split; [done|]. split; [lia|].
    intros i j Hi Hj. rewrite Hcells by done. f_equal.
    apply (dot_cell_take fmad ca cb _ _ aRows aCols bRows); lia.
Qed.

(** The copy of B on the device has [bRows * bCols] floats: with fewer
    columns than A has, and a cell to compute, the kernel reads beyond it. *)
Lemma matMulCUDANaive_beyond (fmad : bool) (junk : list f32) (hp : mem)
  (a b out : positive) (aRows aCols bRows bCols : Z) :
  0 < aRows -> 0 <= bRows -> 0 <= bCols -> bRows * bCols < bRows * aCols ->
  matMulCUDANaive fmad junk hp a aRows aCols b bRows bCols out = None.
Proof.
  intros HaR HbR HbC Hstride. unfold matMulCUDANaive.
  destruct (memcpy_from hp a _) as [dA|]; [|done]. cbn [mbind option_bind].
  destruct (memcpy_from hp b _) as [dB|] eqn:HdB; [|done]. cbn [mbind option_bind].
  assert (Hlen : Z.of_nat (length dB) = bRows * bCols).
  { unfold memcpy_from in HdB. destruct (hp !! b) as [cb|]; [|done].
    cbn [mbind option_bind] in HdB. case_decide; [|done].
    injection HdB as <-. rewrite length_take. lia. }
  assert (HB : (<[d_A := dA]> (<[d_B := dB]>
                  {[d_C := resize (Z.to_nat (aRows * bRows)) f32_zero junk]}) : mem)
               !! d_B = Some dB).
  { rewrite lookup_insert_ne by done. apply lookup_insert_eq. }
  rewrite (matMulNaive_launch_beyond fmad _ d_A d_B d_C dB aRows aCols bRows HB);
    [done|done|done| |lia].
  destruct (decide (bRows = 0)) as [->|]; lia.
Qed.

(** Without a row of A or of B the grid is empty: nothing is read or
    written in the kernels. *)
Lemma matmul_no_cell (fmad : bool) (junk : list f32) (hp : mem)
  (a b out : positive) (ca cb cc : list f32) (aRows aCols bRows bCols : Z) :
  hp !! a = Some ca -> hp !! b = Some cb -> hp !! out = Some cc ->
  0 <= aRows -> 0 <= aCols -> 0 <= bRows -> 0 <= bCols ->
  aRows * aCols <= Z.of_nat (length ca) ->
  bRows * bCols <= Z.of_nat (length cb) ->
  aRows = 0 \/ bRows = 0 ->
  matMulCUDANaive fmad junk hp a aRows aCols b bRows bCols out = Some hp
  /\ matMulCUDA fmad hp a aRows aCols b bRows bCols out = Some hp.
Proof.
  intros Ha Hb Hout HaR HaC HbR HbC Hla Hlb Hzero.
  assert (Hg : grid_threads (Dim3 (CEIL_DIV bRows 32) (CEIL_DIV aRows 32)) (Dim3 32 32) = []
               /\ indices (Dim3 (CEIL_DIV bRows 32) (CEIL_DIV aRows 32)) = []).
  { destruct Hzero as [->| ->].
    - done.
    - change (CEIL_DIV 0 32) with 0. unfold grid_threads, indices. cbn [dim_x dim_y].
      change (seqZ 0 0) with (@nil Z).
      assert (Hnil : (seqZ 0 (CEIL_DIV aRows 32) ≫= fun j : Z => [] ≫= fun i : Z => [Dim3 i j])
                     = []).
      { induction (seqZ 0 (CEIL_DIV aRows 32)) as [|j l IH]; [done|].
        rewrite bind_cons. exact IH. }
      rewrite Hnil. done. }
  destruct Hg as [Hthreads Hblocks]. split.
  - unfold matMulCUDANaive, memcpy_from. rewrite Ha, Hb. cbn [mbind option_bind].
    rewrite !decide_True by nia. cbn [mbind option_bind].
    unfold launch. rewrite Hthreads. cbn [run mbind option_bind].
    rewrite lookup_insert_ne, lookup_insert_ne, lookup_singleton_eq by done.
    cbn [mbind option_bind]. unfold memcpy_to. rewrite Hout. cbn [mbind option_bind].
    replace (aRows * bRows) with 0 by nia.
    rewrite decide_True by (cbn; lia). cbn [Z.to_nat take drop app].
    by rewrite insert_id.
  - unfold matMulCUDA, launch_blocks. by rewrite Hblocks.
Qed.

(** C5: with [aCols = bCols], both the naive and the tiled entry point leave
    in [out] the [aRows x bRows] matrix of the dot products of the rows of A
    with the rows of B, whatever [out] held before.  The dot product is the
    accumulation [value += A[i][k] * B[j][k]] from 0 in ascending [k], as the
    device performs it (fused or not).  The naive kernel stores exactly this
    float.  The tiled kernel goes on with the zero-filled elements of the
    last tile, each of which adds [0 * 0]: this keeps the sum, the one
    effect being that a sum of [-0] is stored as [+0] when [aCols] is not a
    multiple of the tile size.  Without the fused multiply-add a sum is
    never [-0], and the two entry points store the very same floats. *)
Theorem matmul_computes_A_Bt (fmad : bool) (junk : list f32) (hp : mem)
  (a b out : positive) (ca cb cc : list f32) (aRows aCols bRows bCols : Z) :
  aCols = bCols ->
  hp !! a = Some ca -> hp !! b = Some cb -> hp !! out = Some cc ->
  a ≠ out -> b ≠ out ->
  0 <= aRows -> 0 <= aCols -> 0 <= bRows ->
  Z.of_nat (length ca) = aRows * aCols ->
  Z.of_nat (length cb) = bRows * bCols ->
  Z.of_nat (length cc) = aRows * bRows ->
  exists cn ct,
    matMulCUDANaive fmad junk hp a aRows aCols b bRows bCols out
    = Some (<[out := cn]> hp)
    /\ matMulCUDA fmad hp a aRows aCols b bRows bCols out = Some (<[out := ct]> hp)
    /\ length cn = length cc /\ length ct = length cc
    /\ (forall i j, 0 <= i < aRows -> 0 <= j < bRows ->
          exists d v,
            d = dot fmad (row_of ca aCols i) (row_of cb aCols j)
            /\ cn !! Z.to_nat (i * bRows + j) = Some d
            /\ ct !! Z.to_nat (i * bRows + j) = Some v
            /\ v = zero_filled aCols d
            /\ (v = d \/ (d = S754_zero true /\ v = S754_zero false)))
    /\ (fmad = false -> ct = cn).
Proof.
  intros <- Ha Hb Hout Hao Hbo HaR HaC HbR Hla Hlb Hlc.
  destruct (matMulCUDANaive_spec fmad junk hp a b out ca cb cc aRows aCols bRows aCols)
    as (cn & Hnaive & Hl1 & Hc1); try done; try lia.
  destruct (matMulTiled_launch fmad hp a b out ca cb cc aRows aCols bRows)
    as (ct & Htiled & Hl2 & Hc2); try done; try lia.
  exists cn, ct. split; [exact Hnaive|]. split; [exact Htiled|].
  split; [exact Hl1|]. split; [exact Hl2|]. split.
  - intros i j Hi Hj. eexists _, _. split; [reflexivity|].
    rewrite <- (dot_cell_rows fmad ca cb aRows aCols bRows) by lia.
    split; [by apply Hc1|]. split; [by apply Hc2|]. split; [done|].
    apply zero_filled_cases.
  - intros ->. apply (buffer_ext aRows bRows); try done; try lia.
    intros i j Hi Hj. rewrite Hc1, Hc2 by done.
    by rewrite zero_filled_safe by apply dot_cell_safe.
Qed.

(** The sign of zero is where the entry points can differ.  With the fused
    multiply-add a product too small for a [float] keeps its sign when it
    is rounded to zero: the naive kernel stores [-0], and the tiled kernel,
    which goes on through the zero-filled tile, stores [+0].  Without it
    both store [+0]. *)
Lemma matmul_sign_of_zero :
  matMulCUDANaive true [] mm_tiny_store 1 1 1 2 1 1 3
  = Some (<[3%positive := [S754_zero true]]> mm_tiny_store)
  /\ matMulCUDA true mm_tiny_store 1 1 1 2 1 1 3
     = Some (<[3%positive := [S754_zero false]]> mm_tiny_store)
  /\ matMulCUDANaive false [] mm_tiny_store 1 1 1 2 1 1 3
     = Some (<[3%positive := [S754_zero false]]> mm_tiny_store)
  /\ matMulCUDA false mm_tiny_store 1 1 1 2 1 1 3
     = Some (<[3%positive := [S754_zero false]]> mm_tiny_store).
Proof. repeat split; vm_compute; reflexivity. Qed.

(** C4, as the code has it: no entry point compares [aCols] with [bCols] or
    reports anything.  The tiled entry point never reads [bCols]; both index
    B with row stride [aCols].  When B holds at least [bRows] rows of [aCols]
    floats the call completes and stores the dot products of the rows of A
    with B's buffer cut into rows of [aCols] floats; with [aCols = 0] every
    cell of [out] is set to 0.  With [aRows = 0] or [bRows = 0] no thread
    runs and the store is left as it was, whatever the column counts.  When
    B holds fewer floats and there is a cell to compute, both entry points
    read beyond B's buffer. *)
Theorem matmul_unchecked_dimensions (fmad : bool) (junk : list f32) (hp : mem)
  (a b out : positive) (ca cb cc : list f32) (aRows aCols bRows bCols : Z) :
  hp !! a = Some ca -> hp !! b = Some cb -> hp !! out = Some cc ->
  a ≠ out -> b ≠ out ->
  0 <= aRows -> 0 <= aCols -> 0 <= bRows -> 0 <= bCols ->
  Z.of_nat (length ca) = aRows * aCols ->
  Z.of_nat (length cb) = bRows * bCols ->
  Z.of_nat (length cc) = aRows * bRows ->
  (forall bCols', matMulCUDA fmad hp a aRows aCols b bRows bCols' out
                  = matMulCUDA fmad hp a aRows aCols b bRows bCols out)
  /\ (bRows * aCols <= bRows * bCols ->
      exists cn ct,
        matMulCUDANaive fmad junk hp a aRows aCols b bRows bCols out
        = Some (<[out := cn]> hp)
        /\ matMulCUDA fmad hp a aRows aCols b bRows bCols out
           = Some (<[out := ct]> hp)
        /\ length cn = length cc /\ length ct = length cc
        /\ (forall i j, 0 <= i < aRows -> 0 <= j < bRows ->
              cn !! Z.to_nat (i * bRows + j)
              = Some (dot fmad (row_of ca aCols i) (row_of cb aCols j))
              /\ ct !! Z.to_nat (i * bRows + j)
                 = Some (zero_filled aCols
                           (dot fmad (row_of ca aCols i) (row_of cb aCols j))))
        /\ (aCols = 0 -> forall i j, 0 <= i < aRows -> 0 <= j < bRows ->
              cn !! Z.to_nat (i * bRows + j) = Some f32_zero
              /\ ct !! Z.to_nat (i * bRows + j) = Some f32_zero))
  /\ (aRows = 0 \/ bRows = 0 ->
      matMulCUDANaive fmad junk hp a aRows aCols b bRows bCols out = Some hp
      /\ matMulCUDA fmad hp a aRows aCols b bRows bCols out = Some hp)
  /\ (0 < aRows -> bRows * bCols < bRows * aCols ->
      matMulCUDANaive fmad junk hp a aRows aCols b bRows bCols out = None
      /\ matMulCUDA fmad hp a aRows aCols b bRows bCols out = None).
Proof.
  intros Ha Hb Hout Hao Hbo HaR HaC HbR HbC Hla Hlb Hlc.
  split; [done|]. split; [|split].
  - intros Hstride.
    destruct (matMulCUDANaive_spec fmad junk hp a b out ca cb cc aRows aCols bRows bCols)
      as (cn & Hnaive & Hl1 & Hc1); try done; try lia.
    destruct (matMulTiled_launch fmad hp a b out ca cb cc aRows aCols bRows)
      as (ct & Htiled & Hl2 & Hc2); try done; try lia.
    assert (Hdot : forall i j, 0 <= i < aRows -> 0 <= j < bRows ->
              cn !! Z.to_nat (i * bRows + j)
              = Some (dot fmad (row_of ca aCols i) (row_of cb aCols j))
              /\ ct !! Z.to_nat (i * bRows + j)
                 = Some (zero_filled aCols
                           (dot fmad (row_of ca aCols i) (row_of cb aCols j)))).
    { intros i j Hi Hj.
      rewrite <- (dot_cell_rows fmad ca cb aRows aCols bRows) by lia. auto. }
    exists cn, ct. split; [exact Hnaive|]. split; [exact Htiled|].
    split; [exact Hl1|]. split; [exact Hl2|]. split; [exact Hdot|].
    intros -> i j Hi Hj. destruct (Hdot i j Hi Hj) as [-> ->]. done.
  - intros Hzero.
    apply (matmul_no_cell fmad junk hp a b out ca cb cc); try done; lia.
  - intros HaR' Hstride. split.
    + apply matMulCUDANaive_beyond; done.
    + apply (matMulTiled_launch_beyond fmad hp a b out cb); try done; nia.
Qed.

(** C4, as stated, fails, whether or not the build fuses the multiply-add:
    with [aCols = 3] and [bCols = 2] both entry points read B beyond its 8
    floats (undefined behaviour, nothing is reported); with [bCols = 4] both
    complete and store numbers, again without any report; and with
    [aCols = 0] the result is not empty but 2 x 4 zeros. *)
Lemma matmul_mismatch_unreported :
  Forall (fun fmad : bool =>
    matMulCUDA fmad (mm_store mm_B2) 1 2 3 2 4 2 3 = None
    /\ matMulCUDANaive fmad [] (mm_store mm_B2) 1 2 3 2 4 2 3 = None
    /\ matMulCUDA fmad (mm_store mm_B4) 1 2 3 2 4 4 3
       = Some (<[3%positive := f32_of_int <$> [4; 3; 5; 6; 10; 6; 11; 15]]>
                 (mm_store mm_B4))
    /\ matMulCUDANaive fmad [] (mm_store mm_B4) 1 2 3 2 4 4 3
       = Some (<[3%positive := f32_of_int <$> [4; 3; 5; 6; 10; 6; 11; 15]]>
                 (mm_store mm_B4))
    /\ matMulCUDA fmad (mm_store mm_B4) 1 2 0 2 4 4 3
       = Some (<[3%positive := f32_of_int <$> [0; 0; 0; 0; 0; 0; 0; 0]]>
                 (mm_store mm_B4)))
    [true; false].
Proof. repeat constructor; vm_compute; reflexivity. Qed.

(** ** Transpose *)

Lemma foldl_ginsert_lookup {T V : Type} `{Countable K} (g : T -> bool)
  (key : T -> K) (val : K -> V) (l : list T) (m0 : gmap K V) (t : T) :
  t ∈ l -> g t = true ->
  foldl (fun m t' => if g t' then <[key t' := val (key t')]> m else m) m0 l !! key t
  = Some (val (key t)).
Proof.
  induction l as [|t' l IH] using rev_ind; intros Ht Hg.
  - by apply elem_of_nil in Ht.
  - rewrite foldl_app. simpl.
    destruct (decide (g t' = true /\ key t' = key t)) as [[Hg' Heq]|Hne].
    + rewrite Hg', Heq. apply lookup_insert_eq.
    + assert (Hin : t ∈ l).
      { apply elem_of_app in Ht as [?|Ht]; [done|].
        apply list_elem_of_singleton in Ht. subst t'. by destruct Hne. }
      destruct (g t') eqn:Hg'; [|by apply IH].
      rewrite lookup_insert_ne; [by apply IH|]. intros Heq. by apply Hne.
Qed.

Lemma elem_of_thread_statements (b : dim3) (ti : dim3) (j : Z) :
  (ti, j) ∈ thread_statements b <-> ti ∈ indices b /\ 0 <= j < 4.
Proof.
  unfold thread_statements. rewrite list_elem_of_bind. split.
  - intros (ti' & Hin & Hti). apply list_elem_of_fmap in Hin as (j' & [= -> ->] & Hj).
    apply elem_of_seqZ in Hj. split; [done|lia].
  - intros [Hti Hj]. exists ti. split; [|done].
    apply list_elem_of_fmap. exists j. split; [done|]. apply elem_of_seqZ. lia.
Qed.

Lemma NoDup_thread_statements (b : dim3) : NoDup (thread_statements b).
Proof.
  unfold thread_statements. apply NoDup_bind; [| |apply NoDup_indices].
  - intros t1 t2 [t j] _ _ H1 H2.
    apply list_elem_of_fmap in H1 as (? & [= -> _] & _).
    apply list_elem_of_fmap in H2 as (? & [= -> _] & _). done.
  - intros t _. apply NoDup_fmap_2; [|apply NoDup_seqZ].
    intros j1 j2 [= ->]. done.
Qed.

Section Transpose.
Variable m : mem.
Variable input : positive.
Variable ci : list f32.
Variables rows cols : Z.
Variable bi : dim3.

Hypothesis Hin : m !! input = Some ci.
Hypothesis Hlen : Z.of_nat (length ci) = rows * cols.
Hypothesis Hbi : 0 <= dim_x bi /\ 0 <= dim_y bi.

Lemma transpose_load_statements (b : dim3) (tl : tile) :
  run (transpose_load input rows cols bi m) (indices b) tl
  = run (transpose_read1 input rows cols bi m) (thread_statements b) tl.
Proof.
  unfold thread_statements. rewrite run_bind. apply run_ext.
  intros ti tl' _. rewrite run_fmap. unfold transpose_load, transpose_read1.
  cbn [fst snd]. change [0; 1; 2; 3] with (seqZ 0 4).
  case_decide; [done|].
  induction (seqZ 0 4) as [|j l IH]; [done|]. simpl. exact IH.
Qed.

Lemma transpose_tile_spec (b : dim3) :
  dim_x b = TILE_DIM -> dim_y b = TILE_DIM `quot` 4 ->
  exists tl,
    run (transpose_load input rows cols bi m) (indices b) ∅ = Some tl
    /\ forall x y, 0 <= x < TILE_DIM -> 0 <= y < TILE_DIM ->
         dim_x bi * TILE_DIM + x < cols -> dim_y bi * TILE_DIM + y < rows ->
         tl !! (y, x) = Some (tile_val ci cols bi (y, x)).
Proof.
  intros Hbx Hby. assert (HT : TILE_DIM = 64) by reflexivity.
  assert (HT4 : TILE_DIM `quot` 4 = 16) by reflexivity.
  set (g := fun tj : dim3 * Z =>
              bool_decide (dim_x bi * TILE_DIM + dim_x (fst tj) < cols
                           /\ dim_y bi * TILE_DIM + 4 * dim_y (fst tj) + snd tj < rows)).
  set (key := fun tj : dim3 * Z => (dim_y (fst tj) * 4 + snd tj, dim_x (fst tj))).
  rewrite transpose_load_statements.
  rewrite (run_total _ (fun (tl : tile) tj =>
             if g tj then <[key tj := tile_val ci cols bi (key tj)]> tl else tl)).
  - eexists. split; [done|]. intros x y Hx Hy Hxc Hyr.
    pose proof (Z.div_mod y 4 ltac:(lia)) as Hdm.
    pose proof (Z.mod_pos_bound y 4 ltac:(lia)) as Hmod.
    assert (Hdiv : 0 <= y `div` 4 < 16).
    { split; [apply Z.div_pos; lia|apply Z.div_lt_upper_bound; lia]. }
    replace (y, x) with (key (Dim3 x (y `div` 4), y `mod` 4))
      by (unfold key; cbn [fst snd dim_x dim_y]; f_equal; lia).
    apply (foldl_ginsert_lookup g key (tile_val ci cols bi)).
    + apply elem_of_thread_statements. split; [|lia].
      apply elem_of_indices. cbn [dim_x dim_y]. lia.
    + unfold g. apply bool_decide_eq_true. cbn [fst snd dim_x dim_y]. lia.
  - intros [ti j] tl Htj. apply elem_of_thread_statements in Htj as [Hti Hj].
    apply elem_of_indices in Hti.
    unfold transpose_read1, transpose_read, g, key, tile_val. cbn [fst snd].
    destruct (decide (dim_x bi * TILE_DIM + dim_x ti < cols)) as [Hx|Hx].
    + destruct (decide (dim_y bi * TILE_DIM + 4 * dim_y ti + j < rows)) as [Hy|Hy].
      * rewrite bool_decide_eq_true_2 by done.
        rewrite (rd_lookup m input ci) by (done || nia). cbn [mbind option_bind].
        do 4 f_equal. lia.
      * rewrite bool_decide_eq_false_2 by tauto. done.
    + rewrite bool_decide_eq_false_2 by tauto. done.
Qed.
End Transpose.

Lemma run_skip {T S : Type} (f : T -> S -> option S) (l : list T) (s : S) :
  (forall t s', t ∈ l -> f t s' = Some s') -> run f l s = Some s.
Proof.
  intros H. induction l as [|t l IH]; simpl; [done|].
  rewrite H by left. simpl. apply IH. intros t' s' Ht'. apply H. by right.
Qed.

Lemma wr_keeps_shape (hp : mem) (p : positive) (c : list f32) (i : Z) (v : f32)
  (s : mem) :
  wr (<[p := c]> hp) p i v = Some s -> exists c', s = <[p := c']> hp.
Proof.
  unfold wr. rewrite lookup_insert_eq. cbn [mbind option_bind].
  destruct (store c i v) as [c'|]; [|done]. cbn [mbind option_bind].
  intros [= <-]. exists c'. by rewrite insert_insert_eq.
Qed.

Lemma transpose_body (hp : mem) (input output : positive) (ci c : list f32)
  (rows cols : Z) (g b bi : dim3) :
  hp !! input = Some ci -> input ≠ output ->
  Z.of_nat (length ci) = rows * cols ->
  dim_x b = TILE_DIM -> dim_y b = TILE_DIM `quot` 4 ->
  0 <= dim_x bi /\ 0 <= dim_y bi ->
  transposeKernel input output rows cols g b bi (<[output := c]> hp)
  = run (transpose_write1 ci output rows cols) (pair bi <$> thread_statements b)
      (<[output := c]> hp).
Proof.
  intros Hin Hne Hlen Hbx Hby Hbi. assert (HT : TILE_DIM = 64) by reflexivity.
  assert (HT4 : TILE_DIM `quot` 4 = 16) by reflexivity.
  unfold transposeKernel.
  destruct (transpose_tile_spec (<[output := c]> hp) input ci rows cols bi)
    with (b := b) as (tl & -> & Htl); try done.
  { by rewrite lookup_insert_ne. }
  cbn [mbind option_bind]. unfold thread_statements.
  rewrite run_fmap, run_bind. apply run_ext. intros ti s Hti.
  apply elem_of_indices in Hti. rewrite run_fmap.
  unfold transpose_store. change [0; 1; 2; 3] with (seqZ 0 4).
  destruct (decide (dim_y bi * TILE_DIM + dim_x ti < rows)) as [Hr|Hr].
  - apply run_ext. intros j s' Hj. apply elem_of_seqZ in Hj.
    unfold transpose_write, transpose_write1. cbn [fst snd].
    destruct (decide (dim_x bi * TILE_DIM + 4 * dim_y ti + j < cols)) as [Hc|Hc].
    + rewrite decide_True by done.
      rewrite Htl by lia. cbn [mbind option_bind]. unfold tile_val. cbn [fst snd].
      replace (dim_x bi * TILE_DIM + (dim_y ti * 4 + j)
               + (dim_y bi * TILE_DIM + dim_x ti) * cols)
        with (dim_x bi * TILE_DIM + 4 * dim_y ti + j
              + (dim_y bi * TILE_DIM + dim_x ti) * cols) by lia.
      done.
    + rewrite decide_False by tauto. done.
  - symmetry. apply run_skip. intros j s' _. unfold transpose_write1. cbn [fst snd].
    rewrite decide_False by tauto. done.
Qed.

Lemma elem_of_grid_statements (g b bi ti : dim3) (j : Z) :
  (bi, (ti, j)) ∈ grid_statements g b
  <-> bi ∈ indices g /\ ti ∈ indices b /\ 0 <= j < 4.
Proof.
  unfold grid_statements. rewrite list_elem_of_bind. split.
  - intros (bi' & Hin & Hbi).
    apply list_elem_of_fmap in Hin as ([ti' j'] & [= -> -> ->] & Htj).
    apply elem_of_thread_statements in Htj. tauto.
  - intros (Hbi & Hti & Hj). exists bi. split; [|done].
    apply list_elem_of_fmap. exists (ti, j). split; [done|].
    by apply elem_of_thread_statements.
Qed.

Lemma NoDup_grid_statements (g b : dim3) : NoDup (grid_statements g b).
Proof.
  unfold grid_statements. apply NoDup_bind; [| |apply NoDup_indices].
  - intros b1 b2 [bi tj] _ _ H1 H2.
    apply list_elem_of_fmap in H1 as (? & [= -> _] & _).
    apply list_elem_of_fmap in H2 as (? & [= -> _] & _). done.
  - intros bi _. apply NoDup_fmap_2; [|apply NoDup_thread_statements].
    intros t1 t2 [= ->]. done.
Qed.

Lemma transpose_launch (hp : mem) (input output : positive) (ci co : list f32)
  (rows cols : Z) :
  hp !! input = Some ci -> hp !! output = Some co -> input ≠ output ->
  Z.of_nat (length ci) = rows * cols ->
  Z.of_nat (length co) = rows * cols ->
  0 <= rows -> 0 <= cols ->
  exists co',
    launch_blocks (Dim3 (CEIL_DIV cols TILE_DIM) (CEIL_DIV rows TILE_DIM))
      (Dim3 TILE_DIM (TILE_DIM `quot` 4))
      (transposeKernel input output rows cols) hp
    = Some (<[output := co']> hp)
    /\ length co' = length co
    /\ forall r c, 0 <= r < rows -> 0 <= c < cols ->
         co' !! Z.to_nat (c * rows + r) = ci !! Z.to_nat (r * cols + c).
Proof.
  intros Hin Hout Hne Hli Hlo HR HC.
  assert (HT : TILE_DIM = 64) by reflexivity.
  assert (HT4 : TILE_DIM `quot` 4 = 16) by reflexivity.
  set (g := Dim3 (CEIL_DIV cols TILE_DIM) (CEIL_DIV rows TILE_DIM)).
  set (b := Dim3 TILE_DIM (TILE_DIM `quot` 4)).
  unfold launch_blocks.
  rewrite (run_ext_inv (fun s => exists c, s = <[output := c]> hp)
             (transposeKernel input output rows cols g b)
             (fun bi => run (transpose_write1 ci output rows cols)
                          (pair bi <$> thread_statements b))).
  2:{ exists co. by rewrite insert_id. }
  2:{ intros bi s0 Hbi [c ->]. apply elem_of_indices in Hbi.
      apply transpose_body; try done. lia. }
  2:{ intros bi s0 s1 _ Hs0.
      apply (run_inv_Some (fun s => exists c, s = <[output := c]> hp)); [done|].
      intros t s2 s3 _ [c ->]. unfold transpose_write1.
      case_decide; [apply wr_keeps_shape|intros [= <-]; eauto]. }
  rewrite <- (run_bind (transpose_write1 ci output rows cols)
                (fun bi => pair bi <$> thread_statements b)).
  fold (grid_statements g b).
  set (rr := fun t : dim3 * (dim3 * Z) =>
               dim_y (fst t) * TILE_DIM + dim_x (fst (snd t))).
  set (cc := fun t : dim3 * (dim3 * Z) =>
               dim_x (fst t) * TILE_DIM + 4 * dim_y (fst (snd t)) + snd (snd t)).
  assert (Hrange : forall t, t ∈ grid_statements g b -> 0 <= rr t /\ 0 <= cc t).
  { intros [bi [ti j]] Ht. apply elem_of_grid_statements in Ht as (Hbi & Hti & Hj).
    apply elem_of_indices in Hbi, Hti. unfold rr, cc. cbn [fst snd]. lia. }
  destruct (run_cells output hp co (transpose_write1 ci output rows cols)
              (fun t => bool_decide (rr t < rows /\ cc t < cols))
              (fun t => Z.to_nat (cc t * rows + rr t))
              (fun t => default f32_zero (ci !! Z.to_nat (cc t + rr t * cols)))
              (grid_statements g b))
    as (co' & Hrun & Hlen' & Hdone & _); try done.
  - intros t Ht Hg. apply bool_decide_eq_true in Hg.
    destruct (Hrange t Ht). nia.
  - intros t c Ht [Hl _] _. unfold transpose_write1. fold (rr t) (cc t).
    destruct (Hrange t Ht).
    destruct (decide (rr t < rows /\ cc t < cols)) as [Hg|Hg].
    + rewrite bool_decide_eq_true_2 by done. apply wr_insert. nia.
    + rewrite bool_decide_eq_false_2 by done. done.
  - apply NoDup_fmap_2_strong; [|apply NoDup_filter, NoDup_grid_statements].
    intros [b1 [t1 j1]] [b2 [t2 j2]] H1 H2 Heq.
    apply list_elem_of_filter in H1 as [Hg1 H1], H2 as [Hg2 H2].
    apply bool_decide_eq_true in Hg1, Hg2.
    pose proof (Hrange _ H1). pose proof (Hrange _ H2).
    apply cell_index_inj in Heq as [Hc Hr]; try lia.
    apply elem_of_grid_statements in H1 as (Hb1 & Ht1 & Hj1).
    apply elem_of_grid_statements in H2 as (Hb2 & Ht2 & Hj2).
    apply elem_of_indices in Hb1, Hb2, Ht1, Ht2.
    unfold rr, cc in Hc, Hr. cbn [fst snd] in Hc, Hr.
    destruct b1 as [bx1 by1], b2 as [bx2 by2], t1 as [tx1 ty1], t2 as [tx2 ty2].
    cbn [dim_x dim_y b] in *.
    assert (by1 = by2 /\ tx1 = tx2) as [-> ->]
      by (apply (quot_rem_unique TILE_DIM); lia).
    assert (bx1 = bx2 /\ 4 * ty1 + j1 = 4 * ty2 + j2) as [-> H4]
      by (apply (quot_rem_unique TILE_DIM); lia).
    assert (ty1 = ty2 /\ j1 = j2) as [-> ->]
      by (apply (quot_rem_unique 4); lia).
    done.
  - exists co'. split; [done|]. split; [done|]. intros r c Hr Hc.
    pose proof (Z.div_mod r 64 ltac:(lia)) as Hdr.
    pose proof (Z.mod_pos_bound r 64 ltac:(lia)) as Hmr.
    pose proof (Z.div_mod c 64 ltac:(lia)) as Hdc.
    pose proof (Z.mod_pos_bound c 64 ltac:(lia)) as Hmc.
    pose proof (Z.div_mod (c `mod` 64) 4 ltac:(lia)) as Hd4.
    pose proof (Z.mod_pos_bound (c `mod` 64) 4 ltac:(lia)) as Hm4.
    assert (Hq4 : 0 <= (c `mod` 64) `div` 4 < 16).
    { split; [apply Z.div_pos; lia|apply Z.div_lt_upper_bound; lia]. }
    set (t := (Dim3 (c `div` 64) (r `div` 64),
               (Dim3 (r `mod` 64) ((c `mod` 64) `div` 4), (c `mod` 64) `mod` 4))).
    assert (Hrr : rr t = r) by (unfold rr, t; cbn [fst snd dim_x dim_y]; lia).
    assert (Hcc : cc t = c) by (unfold cc, t; cbn [fst snd dim_x dim_y]; lia).
    specialize (Hdone t). rewrite Hrr, Hcc in Hdone. rewrite Hdone.
    + destruct (lookup_lt_is_Some_2 ci (Z.to_nat (r * cols + c))) as [x Hx]; [nia|].
      replace (c + r * cols) with (r * cols + c) by lia. by rewrite Hx.
    + apply elem_of_grid_statements. split; [|split]; [| |lia].
      * apply elem_of_indices. cbn [dim_x dim_y g]. rewrite HT.
        split; apply CEIL_DIV_covers; lia.
      * apply elem_of_indices. cbn [dim_x dim_y b]. lia.
    + apply bool_decide_eq_true. lia.
Qed.

(** C8: [transposeCUDA] stores M[r][c] in cell [c][r] of the [cols x rows]
    output, for every valid (r, c); transposing the result again gives back
    the buffer of M itself, float for float (so exactly for integer-valued
    inputs and within any tolerance for arbitrary ones). *)
Theorem transpose_twice_is_identity (hp : mem) (a t back : Matrix)
  (ci ct cb : list f32) :
  hp !! dat a = Some ci -> hp !! dat t = Some ct -> hp !! dat back = Some cb ->
  dat a ≠ dat t -> dat t ≠ dat back ->
  0 <= rows a -> 0 <= cols a ->
  rows t = cols a -> cols t = rows a ->
  Z.of_nat (length ci) = rows a * cols a ->
  Z.of_nat (length ct) = rows a * cols a ->
  Z.of_nat (length cb) = rows a * cols a ->
  exists ct',
    transposeCUDA hp a t = Some (<[dat t := ct']> hp)
    /\ length ct' = length ct
    /\ (forall r c, 0 <= r < rows a -> 0 <= c < cols a ->
          ct' !! Z.to_nat (c * rows a + r) = ci !! Z.to_nat (r * cols a + c))
    /\ transposeCUDA (<[dat t := ct']> hp) t back
       = Some (<[dat back := ci]> (<[dat t := ct']> hp)).
Proof.
  intros Ha Ht Hb Hat Htb HR HC Hrt Hct Hli Hlt Hlb. unfold transposeCUDA.
  destruct (transpose_launch hp (dat a) (dat t) ci ct (rows a) (cols a))
    as (ct' & Hrun & Hlen & Hcells); try done.
  exists ct'. split; [exact Hrun|]. split; [exact Hlen|]. split; [exact Hcells|].
  rewrite Hrt, Hct.
  destruct (transpose_launch (<[dat t := ct']> hp) (dat t) (dat back) ct' cb
              (cols a) (rows a)) as (cb' & Hrun2 & Hlen2 & Hcells2); try done;
    try lia.
  { apply lookup_insert_eq. }
  { by rewrite lookup_insert_ne. }
  rewrite Hrun2. do 2 f_equal.
  apply (buffer_ext (rows a) (cols a)); try done; try lia.
  intros r c Hr Hc. rewrite Hcells2, Hcells by done. done.
Qed.

(** ** The named operators are defined on every cell *)

Lemma broadcast_opr_total (c : list f32) (R C i : Z) (x k : f32) :
  Z.of_nat (length c) = R * C -> 0 < C -> 0 <= i < R * C ->
  is_Some (broadcast_opr (load c) i C x k).
Proof.
  intros Hlen HC Hi. unfold broadcast_opr. apply load_Some.
  rewrite Z.quot_div_nonneg by lia.
  pose proof (Z.mul_div_le i C HC). pose proof (Z.div_pos i C ltac:(lia) HC).
  nia.
Qed.

Lemma tril_opr_total (expf : f32 -> f32) (rd_a : Z -> option f32) (i C ki : Z)
  (x k : f32) :
  f32_to_int k = Some ki -> ki ≠ 0 -> is_Some (tril_opr expf rd_a i C x k).
Proof.
  intros Hk Hki. unfold tril_opr, tril_masked. rewrite Hk. simpl.
  rewrite decide_False by done. eauto.
Qed.

Lemma plain_opr_total (op : f32 -> f32 -> f32) (cb : list f32) (R C i : Z) (x : f32) :
  R * C <= Z.of_nat (length cb) -> 0 <= i < R * C ->
  is_Some (y ← load cb i; Some (op x y)).
Proof.
  intros Hlen Hi. destruct (load_Some cb i ltac:(lia)) as [y ->]. simpl. eauto.
Qed.

Lemma tile_opr_total (op : f32 -> f32 -> f32) (cb : list f32) (R C i : Z) (x : f32) :
  C <= Z.of_nat (length cb) -> 0 < C -> 0 <= i < R * C ->
  is_Some (y ← load cb (i `rem` C); Some (op x y)).
Proof.
  intros Hlen HC Hi. rewrite Z.rem_mod_nonneg by lia.
  pose proof (Z.mod_pos_bound i C HC).
  destruct (load_Some cb (i `mod` C) ltac:(lia)) as [y ->]. simpl. eauto.
Qed.

(** ** The theorems at concrete inputs *)

Lemma inplace_operators_witness :
  (exists hp', UNARY_CUDA broadcast_opr ex_store ex_M f32_zero = Some (hp', ex_M)
               /\ dom hp' = dom ex_store
               /\ only_buffer (dat ex_M) (length (f32_of_int <$> [1; 2; 3; 4; 5; 6]))
                    ex_store hp')
  /\ (exists hp', BINARY_CUDA add_tile_opr ex_store ex_M ex_out = Some (hp', ex_M)
                  /\ dom hp' = dom ex_store
                  /\ only_buffer (dat ex_M) (length (f32_of_int <$> [1; 2; 3; 4; 5; 6]))
                       ex_store hp').
Proof.
  apply (inplace_operators_return_first_operand broadcast_opr add_tile_opr
           ex_store ex_M ex_out f32_zero
           (f32_of_int <$> [1; 2; 3; 4; 5; 6]) (f32_of_int <$> [0; 7; 7; 0; 7; 7])).
  - reflexivity.
  - reflexivity.
  - reflexivity.
  - intros c' i x Hlen HC Hi. apply (broadcast_opr_total c' 2 3); [|lia|exact Hi].
    rewrite Hlen. reflexivity.
  - intros c' i x Hlen HC Hi. apply (tile_opr_total f32_add c' 2 3); [|lia|exact Hi].
    rewrite Hlen. vm_compute. discriminate.
Defined.

Lemma broadcast_idempotent_witness :
  exists c1,
    broadcastCUDA ex_store ex_M f32_zero = Some (<[dat ex_M := c1]> ex_store, ex_M)
    /\ broadcast ex_store ex_M f32_zero = Some (<[dat ex_M := c1]> ex_store, ex_M)
    /\ length c1 = length (f32_of_int <$> [1; 2; 3; 4; 5; 6])
    /\ (forall r c, 0 <= r < rows ex_M -> 0 <= c < cols ex_M ->
          c1 !! Z.to_nat (r * cols ex_M + c)
          = (f32_of_int <$> [1; 2; 3; 4; 5; 6]) !! Z.to_nat (r * cols ex_M))
    /\ broadcastCUDA (<[dat ex_M := c1]> ex_store) ex_M f32_zero
       = Some (<[dat ex_M := c1]> ex_store, ex_M)
    /\ broadcast (<[dat ex_M := c1]> ex_store) ex_M f32_zero
       = Some (<[dat ex_M := c1]> ex_store, ex_M).
Proof.
  apply (broadcast_idempotent ex_store ex_M f32_zero f32_zero
           (f32_of_int <$> [1; 2; 3; 4; 5; 6])).
  - reflexivity.
  - reflexivity.
  - cbn; lia.
  - cbn; lia.
Defined.


Lemma tril_masks_witness :
  exists c1 c2,
    trilCUDA (f32_add (f32_of_int 1)) tril_hp tril_M (f32_of_int 2)
    = Some (<[dat tril_M := c1]> tril_hp, tril_M)
    /\ tril (f32_add (f32_of_int 1)) tril_hp tril_M (f32_of_int 2)
       = Some (<[dat tril_M := c2]> tril_hp, tril_M)
    /\ length c1 = length (f32_of_int <$> [1; 2; 3; 4])
    /\ length c2 = length (f32_of_int <$> [1; 2; 3; 4])
    /\ forall r c, 0 <= r < rows tril_M -> 0 <= c < cols tril_M ->
         let i := r * cols tril_M + c in
         let masked := f32_ltb (f32_div (f32_of_int i) (f32_of_int 2))
                         (f32_of_int (i `rem` 2)) in
         exists x, (f32_of_int <$> [1; 2; 3; 4]) !! Z.to_nat i = Some x
           /\ c1 !! Z.to_nat i
              = Some (if masked then f32_zero
                      else f32_add (f32_of_int 1)
                             (f32_div (f32_add x (f32_of_int 0)) (f32_of_int 8)))
           /\ c2 !! Z.to_nat i
              = Some (if masked then f32_zero
                      else f32_add (f32_of_int 1) (f32_div x (f32_of_int 8))).
Proof.
  apply (tril_masks_by_flat_index (f32_add (f32_of_int 1)) tril_hp tril_M
           (f32_of_int 2) 2 (f32_of_int <$> [1; 2; 3; 4])).
  - reflexivity.
  - reflexivity.
  - cbn; lia.
  - cbn; lia.
  - reflexivity.
  - cbn; lia.
Defined.

Lemma sumCUDA_witness :
  exists co',
    sumCUDA ex_store ex_M ex_out = Some (<[dat ex_out := co']> ex_store)
    /\ length co' = length (f32_of_int <$> [0; 7; 7; 0; 7; 7])
    /\ (forall r, 0 <= r < rows ex_M ->
          exists v, co' !! Z.to_nat (r * cols ex_M) = Some v
                    /\ sum_of f32_add f32_zero
                         (row_of (f32_of_int <$> [1; 2; 3; 4; 5; 6]) (cols ex_M) r) v)
    /\ (forall j, (forall r, 0 <= r < rows ex_M -> j ≠ Z.to_nat (r * cols ex_M)) ->
          co' !! j = (f32_of_int <$> [0; 7; 7; 0; 7; 7]) !! j).
Proof.
  apply (sumCUDA_row_sums ex_store ex_M ex_out
           (f32_of_int <$> [1; 2; 3; 4; 5; 6]) (f32_of_int <$> [0; 7; 7; 0; 7; 7])).
  - reflexivity.
  - reflexivity.
  - cbn; lia.
  - reflexivity.
  - cbn; lia.
  - reflexivity.
  - reflexivity.
Defined.

Lemma matmul_computes_witness :
  exists cn ct,
    matMulCUDANaive true [] (mm_store mm_B3) 1 2 3 2 4 3 3
    = Some (<[3%positive := cn]> (mm_store mm_B3))
    /\ matMulCUDA true (mm_store mm_B3) 1 2 3 2 4 3 3
       = Some (<[3%positive := ct]> (mm_store mm_B3))
    /\ length cn = length (f32_of_int <$> [9; 9; 9; 9; 9; 9; 9; 9])
    /\ length ct = length (f32_of_int <$> [9; 9; 9; 9; 9; 9; 9; 9])
    /\ (forall i j, 0 <= i < 2 -> 0 <= j < 4 ->
          exists d v,
            d = dot true (row_of (f32_of_int <$> [1; 2; 3; 4; 5; 6]) 3 i)
                         (row_of (f32_of_int <$> mm_B3) 3 j)
            /\ cn !! Z.to_nat (i * 4 + j) = Some d
            /\ ct !! Z.to_nat (i * 4 + j) = Some v
            /\ v = zero_filled 3 d
            /\ (v = d \/ (d = S754_zero true /\ v = S754_zero false)))
    /\ (true = false -> ct = cn).
Proof.
  apply (matmul_computes_A_Bt true [] (mm_store mm_B3) 1 2 3
           (f32_of_int <$> [1; 2; 3; 4; 5; 6]) (f32_of_int <$> mm_B3)
           (f32_of_int <$> [9; 9; 9; 9; 9; 9; 9; 9]) 2 3 4 3).
  - reflexivity.
  - reflexivity.
  - reflexivity.
  - reflexivity.
  - cbn; lia.
  - cbn; lia.
  - cbn; lia.
  - cbn; lia.
  - cbn; lia.
  - reflexivity.
  - reflexivity.
  - reflexivity.
Defined.

Lemma matmul_unchecked_witness :
  (forall bCols', matMulCUDA true (mm_store mm_B4) 1 2 3 2 4 bCols' 3
                  = matMulCUDA true (mm_store mm_B4) 1 2 3 2 4 4 3)
  /\ (4 * 3 <= 4 * 4 ->
      exists cn ct,
        matMulCUDANaive true [] (mm_store mm_B4) 1 2 3 2 4 4 3
        = Some (<[3%positive := cn]> (mm_store mm_B4))
        /\ matMulCUDA true (mm_store mm_B4) 1 2 3 2 4 4 3
           = Some (<[3%positive := ct]> (mm_store mm_B4))
        /\ length cn = length (f32_of_int <$> [9; 9; 9; 9; 9; 9; 9; 9])
        /\ length ct = length (f32_of_int <$> [9; 9; 9; 9; 9; 9; 9; 9])
        /\ (forall i j, 0 <= i < 2 -> 0 <= j < 4 ->
              cn !! Z.to_nat (i * 4 + j)
              = Some (dot true (row_of (f32_of_int <$> [1; 2; 3; 4; 5; 6]) 3 i)
                               (row_of (f32_of_int <$> mm_B4) 3 j))
              /\ ct !! Z.to_nat (i * 4 + j)
                 = Some (zero_filled 3
                           (dot true (row_of (f32_of_int <$> [1; 2; 3; 4; 5; 6]) 3 i)
                                     (row_of (f32_of_int <$> mm_B4) 3 j))))
        /\ (3 = 0 -> forall i j, 0 <= i < 2 -> 0 <= j < 4 ->
              cn !! Z.to_nat (i * 4 + j) = Some f32_zero
              /\ ct !! Z.to_nat (i * 4 + j) = Some f32_zero))
  /\ (2 = 0 \/ 4 = 0 ->
      matMulCUDANaive true [] (mm_store mm_B4) 1 2 3 2 4 4 3 = Some (mm_store mm_B4)
      /\ matMulCUDA true (mm_store mm_B4) 1 2 3 2 4 4 3 = Some (mm_store mm_B4))
  /\ (0 < 2 -> 4 * 4 < 4 * 3 ->
      matMulCUDANaive true [] (mm_store mm_B4) 1 2 3 2 4 4 3 = None
      /\ matMulCUDA true (mm_store mm_B4) 1 2 3 2 4 4 3 = None).
Proof.
  apply (matmul_unchecked_dimensions true [] (mm_store mm_B4) 1 2 3
           (f32_of_int <$> [1; 2; 3; 4; 5; 6]) (f32_of_int <$> mm_B4)
           (f32_of_int <$> [9; 9; 9; 9; 9; 9; 9; 9]) 2 3 4 4).
  - reflexivity.
  - reflexivity.
  - reflexivity.
  - cbn; lia.
  - cbn; lia.
  - cbn; lia.
  - cbn; lia.
  - cbn; lia.
  - cbn; lia.
  - reflexivity.
  - reflexivity.
  - reflexivity.
Defined.

Lemma transpose_twice_witness :
  exists ct',
    transposeCUDA ex_store ex_M ex_T = Some (<[dat ex_T := ct']> ex_store)
    /\ length ct' = length (f32_of_int <$> [0; 7; 7; 0; 7; 7])
    /\ (forall r c, 0 <= r < rows ex_M -> 0 <= c < cols ex_M ->
          ct' !! Z.to_nat (c * rows ex_M + r)
          = (f32_of_int <$> [1; 2; 3; 4; 5; 6]) !! Z.to_nat (r * cols ex_M + c))
    /\ transposeCUDA (<[dat ex_T := ct']> ex_store) ex_T ex_back
       = Some (<[dat ex_back := f32_of_int <$> [1; 2; 3; 4; 5; 6]]>
                 (<[dat ex_T := ct']> ex_store)).
Proof.
  apply (transpose_twice_is_identity ex_store ex_M ex_T ex_back
           (f32_of_int <$> [1; 2; 3; 4; 5; 6]) (f32_of_int <$> [0; 7; 7; 0; 7; 7])
           (f32_of_int <$> [8; 8; 8; 8; 8; 8])).
  - reflexivity.
  - reflexivity.
  - reflexivity.
  - cbn; lia.
  - cbn; lia.
  - cbn; lia.
  - cbn; lia.
  - reflexivity.
  - reflexivity.
  - reflexivity.
  - reflexivity.
  - reflexivity.
Defined.

(** * The rest of the kernel suite *)

(** ** Operators that look at one entry *)

Lemma plus_zero_id (x : f32) : x <> S754_zero true -> plus_zero x = x.
Proof. intros Hx. by apply (SFadd_zero_r 24 128). Qed.

Lemma UNARY_pointwise (f : f32 -> f32 -> f32) (opr : unary_opr) (hp : mem)
  (m : Matrix) (k : f32) (c0 : list f32) :
  (forall a i c b k', opr a i c b k' = Some (f b k')) ->
  hp !! dat m = Some c0 ->
  Z.of_nat (length c0) = rows m * cols m -> 0 <= rows m -> 0 <= cols m ->
  UNARY_CUDA opr hp m k
  = Some (<[dat m := (fun x => f (plus_zero x) k) <$> c0]> hp, m)
  /\ UNARY_cpu opr hp m k = Some (<[dat m := (fun x => f x k) <$> c0]> hp, m).
Proof.
  intros Hopr Hp Hlen HR HC. split.
  - destruct (UNARY_CUDA_cells opr hp m k c0
      (fun r c => f (plus_zero (default f32_zero (c0 !! Z.to_nat (r * cols m + c)))) k)
      Hp Hlen) as (c1 & Hrun & Hl & Hcells).
    { intros c r cl x _ _ _ Hx. rewrite Hopr, Hx. done. }
    rewrite Hrun. do 3 f_equal.
    apply (buffer_ext (rows m) (cols m)); try done; [lia|by rewrite length_fmap|].
    intros r c Hr Hc. rewrite Hcells by done. rewrite list_lookup_fmap.
    destruct (lookup_lt_is_Some_2 c0 (Z.to_nat (r * cols m + c)) ltac:(nia)) as [x Hx].
    rewrite Hx. done.
  - destruct (UNARY_cpu_cells opr hp m k c0
      (fun r c => f (default f32_zero (c0 !! Z.to_nat (r * cols m + c))) k)
      Hp Hlen HR HC) as (c1 & Hrun & Hl & Hcells).
    { intros c r cl x _ _ _ Hx. rewrite Hopr, Hx. done. }
    rewrite Hrun. do 3 f_equal.
    apply (buffer_ext (rows m) (cols m)); try done; [lia|by rewrite length_fmap|].
    intros r c Hr Hc. rewrite Hcells by done. rewrite list_lookup_fmap.
    destruct (lookup_lt_is_Some_2 c0 (Z.to_nat (r * cols m + c)) ltac:(nia)) as [x Hx].
    rewrite Hx. done.
Qed.

(** X2: on the GPU, [divide_const], [add_const], [mat_isqrt] and [mat_exp]
    replace every entry [x] of the matrix, whatever its shape, by the
    operator applied to [x + 0]; nothing else in the store changes. *)
Theorem unary_operators_map_every_entry (expf : f32 -> f32) (hp : mem)
  (m : Matrix) (k : f32) (c0 : list f32) :
  hp !! dat m = Some c0 ->
  Z.of_nat (length c0) = rows m * cols m -> 0 <= rows m -> 0 <= cols m ->
  divide_constCUDA hp m k
  = Some (<[dat m := (fun x => f32_div (plus_zero x) k) <$> c0]> hp, m)
  /\ add_constCUDA hp m k
     = Some (<[dat m := (fun x => f32_add (plus_zero x) k) <$> c0]> hp, m)
  /\ mat_isqrtCUDA hp m k
     = Some (<[dat m := (fun x => f32_of_f64 (f64_div (f64_of_int 1)
                                    (f64_of_f32 (f32_sqrt (plus_zero x))))) <$> c0]> hp, m)
  /\ mat_expCUDA expf hp m k
     = Some (<[dat m := (fun x => expf (plus_zero x)) <$> c0]> hp, m).
Proof.
  intros Hp Hlen HR HC. split_and!.
  - apply (UNARY_pointwise f32_div divide_const_opr); done.
  - apply (UNARY_pointwise f32_add add_const_opr); done.
  - apply (UNARY_pointwise
             (fun b _ => f32_of_f64 (f64_div (f64_of_int 1) (f64_of_f32 (f32_sqrt b))))
             mat_isqrt_opr); done.
  - apply (UNARY_pointwise (fun b _ => expf b) (mat_exp_opr expf)); done.
Qed.

Lemma UNARY_gpu_cpu (f : f32 -> f32 -> f32) (opr : unary_opr) (hp : mem)
  (m : Matrix) (k : f32) (c0 : list f32) :
  (forall a i c b k', opr a i c b k' = Some (f b k')) ->
  hp !! dat m = Some c0 ->
  Z.of_nat (length c0) = rows m * cols m -> 0 <= rows m -> 0 <= cols m ->
  (forall x, x ∈ c0 -> x <> S754_zero true) ->
  UNARY_CUDA opr hp m k = UNARY_cpu opr hp m k.
Proof.
  intros Hopr Hp Hlen HR HC Hnz.
  destruct (UNARY_pointwise f opr hp m k c0 Hopr Hp Hlen HR HC) as [-> ->].
  do 3 f_equal. apply Forall_fmap_ext, Forall_forall. intros x Hx.
  by rewrite plus_zero_id by auto.
Qed.

(** X3: on a matrix none of whose entries is the negative zero, the GPU
    wrappers of [divide_const] and [add_const] leave exactly the store their
    CPU references leave: the [b += 0] of the kernels changes no other
    value. *)
Theorem unary_gpu_matches_cpu (hp : mem) (m : Matrix) (k : f32) (c0 : list f32) :
  hp !! dat m = Some c0 ->
  Z.of_nat (length c0) = rows m * cols m -> 0 <= rows m -> 0 <= cols m ->
  (forall x, x ∈ c0 -> x <> S754_zero true) ->
  divide_constCUDA hp m k = divide_const hp m k
  /\ add_constCUDA hp m k = add_const hp m k.
Proof.
  intros Hp Hlen HR HC Hnz. split.
  - apply (UNARY_gpu_cpu f32_div divide_const_opr hp m k c0); done.
  - apply (UNARY_gpu_cpu f32_add add_const_opr hp m k c0); done.
Qed.

(** X4: where the matrix holds a negative zero the two implementations of
    [mat_isqrt] part: the kernel turns it into [+0] first and stores
    [+infinity], the CPU reference stores [-infinity]. *)
Theorem mat_isqrt_negative_zero (hp : mem) (m : Matrix) (k : f32)
  (c0 : list f32) :
  hp !! dat m = Some c0 ->
  Z.of_nat (length c0) = rows m * cols m -> 0 <= rows m -> 0 <= cols m ->
  exists c1 c2,
    mat_isqrtCUDA hp m k = Some (<[dat m := c1]> hp, m)
    /\ mat_isqrt hp m k = Some (<[dat m := c2]> hp, m)
    /\ forall i, c0 !! i = Some (S754_zero true) ->
         c1 !! i = Some (S754_infinity false) /\ c2 !! i = Some (S754_infinity true).
Proof.
  intros Hp Hlen HR HC.
  destruct (UNARY_pointwise
              (fun b _ => f32_of_f64 (f64_div (f64_of_int 1) (f64_of_f32 (f32_sqrt b))))
              mat_isqrt_opr hp m k c0) as [Hg Hc]; try done.
  eexists _, _. split; [exact Hg|]. split; [exact Hc|].
  intros i Hi. unfold f32 in *. split; rewrite list_lookup_fmap, Hi; reflexivity.
Qed.

(** X5: [GELUCUDA] maps every zero entry, of either sign, to [+0], as long
    as the library's [tanh] maps [+0] to [+0]. *)
Theorem GELU_of_zero (tanh : f64 -> f64) (hp : mem) (m : Matrix) (k : f32)
  (c0 : list f32) :
  tanh (S754_zero false) = S754_zero false ->
  hp !! dat m = Some c0 ->
  Z.of_nat (length c0) = rows m * cols m -> 0 <= rows m -> 0 <= cols m ->
  exists c1,
    GELUCUDA tanh hp m k = Some (<[dat m := c1]> hp, m)
    /\ length c1 = length c0
    /\ forall i s, c0 !! i = Some (S754_zero s) -> c1 !! i = Some (S754_zero false).
Proof.
  intros Htanh Hp Hlen HR HC.
  destruct (UNARY_pointwise
              (fun b _ => default f32_zero (GELU_opr tanh (fun _ => None) 0 0 b f32_zero))
              (GELU_opr tanh) hp m k c0) as [Hg _]; try done.
  eexists. split; [exact Hg|]. split; [by rewrite length_fmap|].
  intros i s Hi. unfold f32 in *. rewrite list_lookup_fmap, Hi. simpl. f_equal.
  replace (plus_zero (S754_zero s)) with (S754_zero false) by (by destruct s).
  unfold GELU_opr. simpl.
  replace (f64_mul (f64_lit 7978845 7)
             (f64_add (f64_of_f32 (S754_zero false))
                (f64_mul (f64_mul (f64_mul (f64_lit 44715 6) (f64_of_f32 (S754_zero false)))
                            (f64_of_f32 (S754_zero false))) (f64_of_f32 (S754_zero false)))))
    with (S754_zero false) by (vm_compute; reflexivity).
  rewrite Htanh. vm_compute. reflexivity.
Qed.

(** ** Operators on two matrices *)

Lemma BINARY_zip (op : f32 -> f32 -> f32) (hp : mem) (a b : Matrix)
  (c0 cb : list f32) :
  hp !! dat a = Some c0 -> hp !! dat b = Some cb -> dat a ≠ dat b ->
  Z.of_nat (length c0) = rows a * cols a -> 0 <= rows a -> 0 <= cols a ->
  rows a * cols a <= Z.of_nat (length cb) ->
  let opr : binary_opr :=
    fun (x : f32) (rb : Z -> option f32) (i _ : Z) => y ← rb i; Some (op x y) in
  BINARY_CUDA opr hp a b = Some (<[dat a := zip_with op c0 cb]> hp, a)
  /\ BINARY_cpu opr hp a b = Some (<[dat a := zip_with op c0 cb]> hp, a).
Proof.
  intros Hp Hb Hne Hlen HR HC Hcb opr.
  set (val := fun r c => op (default f32_zero (c0 !! Z.to_nat (r * cols a + c)))
                            (default f32_zero (cb !! Z.to_nat (r * cols a + c)))).
  assert (Hopr : forall r cl x, 0 <= r < rows a -> 0 <= cl < cols a ->
            c0 !! Z.to_nat (r * cols a + cl) = Some x ->
            opr x (load cb) (r * cols a + cl) (cols a) = Some (val r cl)).
  { intros r cl x Hr Hcl Hx. unfold opr, val. rewrite load_lookup by nia.
    destruct (lookup_lt_is_Some_2 cb (Z.to_nat (r * cols a + cl)) ltac:(nia)) as [y Hy].
    rewrite Hx, Hy. done. }
  assert (Hzip : forall c1, length c1 = length c0 ->
            (forall r cl, 0 <= r < rows a -> 0 <= cl < cols a ->
               c1 !! Z.to_nat (r * cols a + cl) = Some (val r cl)) ->
            c1 = zip_with op c0 cb).
  { intros c1 Hl1 H1. apply (buffer_ext (rows a) (cols a)); try done; [lia| |].
    - rewrite length_zip_with. lia.
    - intros r cl Hr Hcl. rewrite H1 by done. rewrite lookup_zip_with. unfold val.
      destruct (lookup_lt_is_Some_2 c0 (Z.to_nat (r * cols a + cl)) ltac:(nia)) as [x Hx].
      destruct (lookup_lt_is_Some_2 cb (Z.to_nat (r * cols a + cl)) ltac:(nia)) as [y Hy].
      rewrite Hx, Hy. done. }
  destruct (BINARY_CUDA_cells opr hp a b c0 cb val Hp Hb Hne Hlen Hopr)
    as (c1 & Hgpu & Hl1 & H1).
  destruct (BINARY_cpu_cells opr hp a b c0 cb val Hp Hb Hne Hlen HR HC Hopr)
    as (c2 & Hcpu & Hl2 & H2).
  rewrite <- (Hzip c1 Hl1 H1) at 1. rewrite <- (Hzip c2 Hl2 H2). done.
Qed.

(** X6: [add], [multiply] and [divide], on the GPU and in the CPU reference,
    combine the buffer of the first operand, entry by entry, with the
    equally indexed entries of the second operand's buffer; the second
    operand's [rows] and [cols] are never looked at, its buffer only has to
    be long enough. *)
Theorem binary_operators_combine_entrywise (hp : mem) (a b : Matrix)
  (c0 cb : list f32) :
  hp !! dat a = Some c0 -> hp !! dat b = Some cb -> dat a ≠ dat b ->
  Z.of_nat (length c0) = rows a * cols a -> 0 <= rows a -> 0 <= cols a ->
  rows a * cols a <= Z.of_nat (length cb) ->
  addCUDA hp a b = Some (<[dat a := zip_with f32_add c0 cb]> hp, a)
  /\ add hp a b = Some (<[dat a := zip_with f32_add c0 cb]> hp, a)
  /\ multiplyCUDA hp a b = Some (<[dat a := zip_with f32_mul c0 cb]> hp, a)
  /\ multiply hp a b = Some (<[dat a := zip_with f32_mul c0 cb]> hp, a)
  /\ divideCUDA hp a b = Some (<[dat a := zip_with f32_div c0 cb]> hp, a)
  /\ divide hp a b = Some (<[dat a := zip_with f32_div c0 cb]> hp, a).
Proof.
  intros Hp Hb Hne Hlen HR HC Hcb.
  destruct (BINARY_zip f32_add hp a b c0 cb) as [? ?]; try done.
  destruct (BINARY_zip f32_mul hp a b c0 cb) as [? ?]; try done.
  destruct (BINARY_zip f32_div hp a b c0 cb) as [? ?]; try done.
Qed.

(** ** Row sum, then broadcast *)

(** X7: [sumCUDA] followed by [broadcastCUDA] on its output sets every
    entry of every row of the output to one sum of the entries of the same
    row of the input, and changes nothing but the output buffer. *)
Theorem sum_then_broadcast (hp : mem) (a out : Matrix) (k : f32)
  (ci co : list f32) :
  hp !! dat a = Some ci -> hp !! dat out = Some co -> dat a ≠ dat out ->
  rows out = rows a -> cols out = cols a ->
  Z.of_nat (length ci) = rows a * cols a ->
  Z.of_nat (length co) = rows a * cols a ->
  0 <= rows a -> 0 < cols a ->
  exists hp1 co2,
    sumCUDA hp a out = Some hp1
    /\ broadcastCUDA hp1 out k = Some (<[dat out := co2]> hp, out)
    /\ length co2 = length co
    /\ forall r, 0 <= r < rows a ->
         exists v, sum_of f32_add f32_zero (row_of ci (cols a) r) v
           /\ forall c, 0 <= c < cols a -> co2 !! Z.to_nat (r * cols a + c) = Some v.
Proof.
  intros Hin Hout Hne HRo HCo Hlen Hlo HR HC.
  destruct (sumCudaKernel_launch hp (dat a) (dat out) ci co (rows a) (cols a)
              128 256 Hin Hout Hne Hlen HR HC eq_refl eq_refl ltac:(nia))
    as (co1 & Hrun & Hl1 & Hsum & _).
  destruct (broadcast_cells (<[dat out := co1]> hp) out k co1)
    as (co2 & Hb & _ & Hl2 & Hcells).
  { apply lookup_insert_eq. } { rewrite HRo, HCo. lia. } { lia. } { lia. }
  exists (<[dat out := co1]> hp), co2. split; [exact Hrun|].
  rewrite insert_insert_eq in Hb. split; [exact Hb|]. split; [lia|].
  intros r Hr. exists (row_total ci (cols a) r 256). split.
  - apply (row_total_sum_of ci (rows a)); [exact Hlen|exact Hr|lia|reflexivity].
  - intros c Hc. rewrite <- HCo. rewrite Hcells by lia. rewrite HCo. by apply Hsum.
Qed.

(** ** The naive product works on copies *)

(** X8: [matMulCUDANaive] copies both operands to the device before the
    kernel runs and copies the product back afterwards, so [out] may be the
    buffer of an operand: the product is still that of the operands as they
    were on entry, each cell being the sum the device accumulates (fused or
    not) over the two rows. *)
Theorem matMulCUDANaive_may_alias (fmad : bool) (junk : list f32) (hp : mem)
  (a b out : positive) (ca cb cc : list f32) (aRows aCols bRows : Z) :
  hp !! a = Some ca -> hp !! b = Some cb -> hp !! out = Some cc ->
  0 <= aRows -> 0 <= aCols -> 0 <= bRows ->
  Z.of_nat (length ca) = aRows * aCols ->
  Z.of_nat (length cb) = bRows * aCols ->
  Z.of_nat (length cc) = aRows * bRows ->
  exists cc',
    matMulCUDANaive fmad junk hp a aRows aCols b bRows aCols out
    = Some (<[out := cc']> hp)
    /\ length cc' = length cc
    /\ forall i j, 0 <= i < aRows -> 0 <= j < bRows ->
         cc' !! Z.to_nat (i * bRows + j)
         = Some (dot fmad (row_of ca aCols i) (row_of cb aCols j)).
Proof.
  intros Ha Hb Hout HaR HaC HbR Hla Hlb Hlc.
  destruct (matMulCUDANaive_spec fmad junk hp a b out ca cb cc aRows aCols bRows aCols)
    as (cc1 & Hnaive & Hl1 & Hc1); try done; try lia.
  exists cc1. split; [exact Hnaive|]. split; [exact Hl1|].
  intros i j Hi Hj. rewrite Hc1 by done. f_equal.
  apply (dot_cell_rows fmad ca cb aRows aCols bRows); lia.
Qed.

(** ** Transpose on the CPU and through device copies *)

Lemma transposeCPU_cells (hp : mem) (input output : positive) (ci co : list f32)
  (R C : Z) :
  hp !! input = Some ci -> hp !! output = Some co -> input ≠ output ->
  Z.of_nat (length ci) = R * C -> Z.of_nat (length co) = R * C ->
  0 <= R -> 0 <= C ->
  exists co',
    transposeCPU hp input output R C = Some (<[output := co']> hp)
    /\ length co' = length co
    /\ forall r c, 0 <= r < R -> 0 <= c < C ->
         co' !! Z.to_nat (c * R + r) = ci !! Z.to_nat (r * C + c).
Proof.
  intros Hin Hout Hne Hli Hlo HR HC. unfold transposeCPU.
  assert (Hcell : forall i, i ∈ seqZ 0 (R * C) ->
            exists r c, 0 <= r < R /\ 0 <= c < C /\ i = r * C + c
                        /\ i `rem` C * R + i `quot` C = c * R + r).
  { intros i Hi%elem_of_seqZ.
    assert (0 < C) by nia.
    exists (i `div` C), (i `mod` C).
    pose proof (Z.mod_pos_bound i C ltac:(lia)).
    pose proof (Z.div_mod i C ltac:(lia)).
    assert (0 <= i `div` C) by (apply Z.div_pos; lia).
    assert (i `div` C < R) by (apply Z.div_lt_upper_bound; lia).
    rewrite Z.rem_mod_nonneg, Z.quot_div_nonneg by lia.
    split_and!; lia. }
  destruct (run_cells output hp co
              (fun i m => v ← rd m input i;
                          wr m output (i `rem` C * R + i `quot` C) v)
              (fun _ => true)
              (fun i => Z.to_nat (i `rem` C * R + i `quot` C))
              (fun i => default f32_zero (ci !! Z.to_nat i))
              (seqZ 0 (R * C))) as (co' & Hrun & Hlen & Hcells & _).
  - intros i Hi _. destruct (Hcell i Hi) as (r & c & Hr & Hc & -> & ->). nia.
  - intros i c Hi [Hlc _] _. destruct (Hcell i Hi) as (r & cl & Hr & Hcl & Hi' & Hidx).
    rewrite rd_insert_ne by done.
    rewrite (rd_lookup hp input ci) by (try done; apply elem_of_seqZ in Hi; lia).
    cbn [mbind option_bind]. rewrite Hidx. rewrite wr_insert by nia. done.
  - done.
  - apply NoDup_fmap_2_strong; [|apply NoDup_filter, NoDup_seqZ].
    intros i j Hi Hj Heq.
    apply list_elem_of_filter in Hi as [_ Hi], Hj as [_ Hj].
    destruct (Hcell i Hi) as (r & c & Hr & Hc & -> & Hi').
    destruct (Hcell j Hj) as (r' & c' & Hr' & Hc' & -> & Hj').
    rewrite Hi', Hj' in Heq.
    destruct (cell_index_inj R c r c' r') as [-> ->]; try done; lia.
  - exists co'. split; [exact Hrun|]. split; [exact Hlen|].
    intros r c Hr Hc.
    assert (Hi : r * C + c ∈ seqZ 0 (R * C)) by (apply elem_of_seqZ; nia).
    specialize (Hcells _ Hi eq_refl).
    destruct (Hcell _ Hi) as (r' & c' & Hr' & Hc' & Heq & Hidx).
    destruct (quot_rem_unique C r c r' c') as [<- <-]; [lia..|].
    rewrite Hidx in Hcells. rewrite Hcells.
    destruct (lookup_lt_is_Some_2 ci (Z.to_nat (r * C + c)) ltac:(nia)) as [x Hx].
    by rewrite Hx.
Qed.

(** X9: the CPU reference [transposeCPU] and the kernel behind
    [transposeCUDA] leave the same output, float for float: cell [c][r] of
    the [cols x rows] output is M[r][c], for matrices of every shape. *)
Theorem transposeCPU_matches_transposeCUDA (hp : mem) (a out : Matrix)
  (ci co : list f32) :
  hp !! dat a = Some ci -> hp !! dat out = Some co -> dat a ≠ dat out ->
  Z.of_nat (length ci) = rows a * cols a ->
  Z.of_nat (length co) = rows a * cols a ->
  0 <= rows a -> 0 <= cols a ->
  exists co',
    transposeCPU hp (dat a) (dat out) (rows a) (cols a) = Some (<[dat out := co']> hp)
    /\ transposeCUDA hp a out = Some (<[dat out := co']> hp)
    /\ length co' = length co
    /\ forall r c, 0 <= r < rows a -> 0 <= c < cols a ->
         co' !! Z.to_nat (c * rows a + r) = ci !! Z.to_nat (r * cols a + c).
Proof.
  intros Hin Hout Hne Hli Hlo HR HC.
  destruct (transposeCPU_cells hp (dat a) (dat out) ci co (rows a) (cols a))
    as (c1 & Hcpu & Hl1 & H1); try done.
  destruct (transpose_launch hp (dat a) (dat out) ci co (rows a) (cols a))
    as (c2 & Hgpu & Hl2 & H2); try done.
  assert (c2 = c1) as ->.
  { apply (buffer_ext (cols a) (rows a)); try done; try lia.
    intros c r Hc Hr. by rewrite H1, H2. }
  by exists c1.
Qed.

(** X10: [transposeCUDA_util] works on device copies, so it may transpose a
    matrix in place ([out] the very buffer of [a]): the first
    [rows * cols] floats of [out] become the transpose of [a] as it was on
    entry, and the rest of [out] is left alone. *)
Theorem transposeCUDA_util_in_place (junk : list f32) (hp : mem) (a out : Matrix)
  (ci co : list f32) :
  hp !! dat a = Some ci -> hp !! dat out = Some co ->
  rows a * cols a <= Z.of_nat (length ci) ->
  rows a * cols a <= Z.of_nat (length co) ->
  0 <= rows a -> 0 <= cols a ->
  exists co',
    transposeCUDA_util junk hp a out = Some (<[dat out := co']> hp)
    /\ length co' = length co
    /\ (forall r c, 0 <= r < rows a -> 0 <= c < cols a ->
          co' !! Z.to_nat (c * rows a + r) = ci !! Z.to_nat (r * cols a + c))
    /\ (forall j, (Z.to_nat (rows a * cols a) <= j)%nat -> co' !! j = co !! j).
Proof.
  intros Hin Hout Hli Hlo HR HC. unfold transposeCUDA_util, memcpy_from.
  rewrite Hin. cbn [mbind option_bind]. rewrite decide_True by nia.
  cbn [mbind option_bind].
  set (n := Z.to_nat (rows a * cols a)).
  set (dev := <[d_input := take n ci]> {[ d_output := resize n f32_zero junk ]} : mem).
  assert (Hdi : dev !! d_input = Some (take n ci)) by apply lookup_insert_eq.
  assert (Hdo : dev !! d_output = Some (resize n f32_zero junk)).
  { unfold dev. rewrite lookup_insert_ne by done. apply lookup_singleton_eq. }
  assert (Hti : Z.of_nat (length (take n ci)) = rows a * cols a).
  { rewrite length_take. unfold n. lia. }
  assert (Hto : Z.of_nat (length (resize n f32_zero junk)) = rows a * cols a).
  { rewrite length_resize. unfold n. lia. }
  destruct (transpose_launch dev d_input d_output (take n ci)
              (resize n f32_zero junk) (rows a) (cols a) Hdi Hdo ltac:(done)
              Hti Hto HR HC) as (c1 & Hrun & Hl1 & H1).
  rewrite Hrun. cbn [mbind option_bind]. rewrite lookup_insert_eq.
  cbn [mbind option_bind]. unfold memcpy_to. rewrite Hout.
  cbn [mbind option_bind].
  assert (Hn : length c1 = n) by (rewrite Hl1; apply length_resize).
  rewrite decide_True by (unfold n in Hn; lia).
  fold n. rewrite take_ge by lia.
  exists (c1 ++ drop n co). split; [done|]. split.
  { rewrite length_app, length_drop. lia. }
  split.
  - intros r c Hr Hc. rewrite lookup_app_l by (unfold n in Hn; nia).
    rewrite H1 by done. apply lookup_take_lt. unfold n. nia.
  - intros j Hj. rewrite lookup_app_r by lia. rewrite lookup_drop.
    f_equal. lia.
Qed.

(** ** Read-modify-write loops *)

Lemma filter_ext_in {T : Type} (P Q : T -> Prop) `{!forall x, Decision (P x)}
  `{!forall x, Decision (Q x)} (l : list T) :
  (forall x, x ∈ l -> P x <-> Q x) -> filter P l = filter Q l.
Proof.
  induction l as [|x l IH]; intros Hall; [done|].
  rewrite !filter_cons. rewrite IH by (intros y Hy; apply Hall; by right).
  pose proof (Hall x ltac:(by left)) as Hx.
  destruct (decide (P x)) as [HP|HP], (decide (Q x)) as [HQ|HQ]; tauto || done.
Qed.

Lemma filter_none {T : Type} (P : T -> Prop) `{!forall x, Decision (P x)}
  (l : list T) :
  (forall x, x ∈ l -> ~ P x) -> filter P l = [].
Proof.
  induction l as [|x l IH]; intros Hall; [done|].
  rewrite filter_cons_False by (apply Hall; by left). apply IH.
  intros y Hy. apply Hall. by right.
Qed.

Lemma filter_all {T : Type} (P : T -> Prop) `{!forall x, Decision (P x)}
  (l : list T) :
  (forall x, x ∈ l -> P x) -> filter P l = l.
Proof.
  induction l as [|x l IH]; intros Hall; [done|].
  rewrite filter_cons_True by (apply Hall; by left). f_equal. apply IH.
  intros y Hy. apply Hall. by right.
Qed.

Lemma filter_bind {T U : Type} (P : U -> Prop) `{!forall x, Decision (P x)}
  (f : T -> list U) (l : list T) :
  filter P (l ≫= f) = l ≫= fun x => filter P (f x).
Proof.
  induction l as [|x l IH]; [done|]. cbn. by rewrite filter_app, IH.
Qed.

Lemma bind_none {T U : Type} (f : T -> list U) (l : list T) :
  (forall x, x ∈ l -> f x = []) -> l ≫= f = [].
Proof.
  induction l as [|x l IH]; intros H; [done|]. cbn.
  rewrite (H x) by (by left). apply IH. intros y Hy. apply H. by right.
Qed.

Lemma bind_pick {T U : Type} (f : T -> list U) (l : list T) (x0 : T) :
  NoDup l -> x0 ∈ l -> (forall x, x ∈ l -> x ≠ x0 -> f x = []) ->
  l ≫= f = f x0.
Proof.
  induction l as [|x l IH]; intros Hnd Hin H; [by apply elem_of_nil in Hin|].
  apply NoDup_cons in Hnd as [Hx Hnd]. cbn.
  apply elem_of_cons in Hin as [->|Hin'].
  - rewrite bind_none; [by rewrite app_nil_r|].
    intros y Hy. apply H; [by right|]. intros ->. done.
  - rewrite (H x); [|by left|by intros ->]. by apply IH; [| |intros y Hy; apply H; by right].
Qed.

Lemma bind_fmap_singleton {T U : Type} (f : T -> U) (l : list T) :
  (l ≫= fun x => [f x]) = f <$> l.
Proof. induction l as [|x l IH]; [done|]. cbn. by rewrite IH. Qed.

Lemma bind_ext_in {T U : Type} (f g : T -> list U) (l : list T) :
  (forall x, x ∈ l -> f x = g x) -> l ≫= f = l ≫= g.
Proof.
  induction l as [|x l IH]; intros H; [done|]. cbn.
  rewrite (H x) by (by left). f_equal. apply IH. intros y Hy. apply H. by right.
Qed.

Lemma accumulate_length {T : Type} (key : T -> nat) (h : T -> f32 -> f32)
  (l : list T) (c : list f32) :
  length (accumulate key h c l) = length c.
Proof.
  unfold accumulate. revert c. induction l as [|t l IH]; intros c; [done|].
  cbn. rewrite IH. apply length_insert.
Qed.

Lemma accumulate_lookup {T : Type} (key : T -> nat) (h : T -> f32 -> f32)
  (l : list T) (c : list f32) (j : nat) (v : f32) :
  c !! j = Some v ->
  accumulate key h c l !! j
  = Some (foldl (fun v t => h t v) v (filter (fun t => key t = j) l)).
Proof.
  unfold accumulate. revert c v. induction l as [|t l IH]; intros c v Hv; [done|].
  rewrite filter_cons. cbn [foldl]. destruct (decide (key t = j)) as [<-|Hne].
  - cbn [foldl]. apply IH. rewrite Hv. cbn.
    apply list_lookup_insert_eq. by apply lookup_lt_Some in Hv.
  - apply IH. by rewrite list_lookup_insert_ne.
Qed.

Lemma run_accumulate {T : Type} (p : positive) (m0 : mem)
  (step : T -> mem -> option mem) (key : T -> nat) (h : T -> f32 -> f32)
  (n : nat) (l : list T) (c : list f32) :
  (forall t c', t ∈ l -> length c' = n ->
     step t (<[p := c']> m0)
     = Some (<[p := <[key t := h t (default f32_zero (c' !! key t))]> c']> m0)) ->
  length c = n ->
  run step l (<[p := c]> m0) = Some (<[p := accumulate key h c l]> m0).
Proof.
  unfold accumulate. revert c. induction l as [|t l IH]; intros c Hstep Hc; [done|].
  cbn. rewrite Hstep by (done || by left). cbn. apply IH.
  - intros t' c' Ht' Hc'. apply Hstep; [by right|done].
  - by rewrite length_insert.
Qed.

Lemma run_singleton {T S : Type} (step : T -> S -> option S) (t : T) (s : S) :
  run step [t] s = step t s.
Proof. cbn. by destruct (step t s). Qed.

Lemma stride_loop_multiples (fuel : nat) (q0 n d : Z) :
  0 < d -> 0 <= q0 -> n - q0 <= Z.of_nat fuel ->
  stride_loop fuel (q0 * d) (n * d) d = (fun q => q * d) <$> seqZ q0 (n - q0).
Proof.
  intros Hd. revert q0. induction fuel as [|fuel IH]; intros q0 Hq Hfuel.
  - cbn. rewrite seqZ_nil by lia. done.
  - cbn. destruct (decide (q0 * d < n * d)) as [Hlt|Hge].
    + rewrite (seqZ_cons q0) by nia. cbn. f_equal.
      replace (q0 * d + d) with (Z.succ q0 * d) by lia.
      rewrite IH by lia. f_equal. f_equal. lia.
    + rewrite seqZ_nil by nia. done.
Qed.

Lemma for_stride_multiples (n d : Z) :
  0 < d -> 0 <= n -> for_stride 0 (n * d) d = (fun q => q * d) <$> seqZ 0 n.
Proof.
  intros Hd Hn. unfold for_stride.
  rewrite <- (Z.mul_0_l d) at 2. rewrite stride_loop_multiples by nia.
  by rewrite Z.sub_0_r.
Qed.

Lemma seqZ_blocks (n d : Z) :
  0 < d -> 0 <= n ->
  (for_stride 0 (n * d) d ≫= fun k => (fun k2 => k + k2) <$> seqZ 0 d)
  = seqZ 0 (n * d).
Proof.
  intros Hd Hn. rewrite for_stride_multiples by done.
  replace n with (Z.of_nat (Z.to_nat n)) by lia.
  rewrite seqZ_tiles by lia.
  induction (seqZ 0 (Z.of_nat (Z.to_nat n))) as [|q l IH]; [done|].
  cbn. by rewrite IH.
Qed.

Lemma fmap_bind {T U V : Type} (g : U -> V) (f : T -> list U) (l : list T) :
  g <$> (l ≫= f) = l ≫= fun x => g <$> f x.
Proof. induction l as [|x l IH]; [done|]. cbn. by rewrite fmap_app, IH. Qed.

(** ** Row sums on the CPU *)

Lemma sumCPU_rows (hp : mem) (input output : positive) (ci co : list f32)
  (R C : Z) :
  hp !! input = Some ci -> hp !! output = Some co -> input ≠ output ->
  Z.of_nat (length ci) = R * C -> Z.of_nat (length co) = R * C ->
  0 <= R -> 0 <= C ->
  exists co',
    sumCPU hp input output R C = Some (<[output := co']> hp)
    /\ length co' = length co
    /\ forall r c, 0 <= r < R -> 0 <= c < C ->
         co' !! Z.to_nat (r * C + c)
         = Some (foldl f32_add (default f32_zero (co !! Z.to_nat (r * C)))
                   (row_of ci C r)).
Proof.
  intros Hin Hout Hne Hli Hlo HR HC. unfold sumCPU, size_t_of_int.
  rewrite !decide_True by nia.
  set (key := fun i : Z => Z.to_nat (i `div` C * C)).
  set (h := fun (i : Z) (v : f32) => f32_add v (default f32_zero (ci !! Z.to_nat i))).
  assert (Hrow : forall i, 0 <= i < R * C -> 0 <= i `div` C * C <= i).
  { intros i Hi. assert (0 < C) by nia.
    pose proof (Z.div_mod i C ltac:(lia)). pose proof (Z.mod_pos_bound i C ltac:(lia)).
    assert (0 <= i `div` C) by (apply Z.div_pos; lia). nia. }
  set (step := fun (i : Z) (m : mem) =>
                 o ← rd m output (i `div` C * C);
                 x ← rd m input i;
                 wr m output (i `div` C * C) (f32_add o x)).
  pose proof (run_accumulate output hp step key h (length co) (seqZ 0 (R * C)) co)
    as Hrun.
  rewrite insert_id in Hrun by done. rewrite Hrun; [|clear Hrun|done].
  2:{ intros i c' Hi%elem_of_seqZ Hc'. pose proof (Hrow i ltac:(lia)). unfold step.
      rewrite (rd_lookup _ output c') by (rewrite ?lookup_insert_eq; try done; lia).
      cbn [mbind option_bind]. rewrite rd_insert_ne by done.
      rewrite (rd_lookup hp input ci) by (try done; lia).
      cbn [mbind option_bind]. rewrite wr_insert by lia. done. }
  cbn [mbind option_bind].
  set (acc := accumulate key h co (seqZ 0 (R * C))).
  assert (Hacc : length acc = length co) by apply accumulate_length.
  destruct (broadcast_cells (<[output := acc]> hp)
              {| dat := output; rows := R; cols := C |} (f32_of_int 0) acc)
    as (c1 & _ & Hb & Hl1 & Hcells); cbn [dat rows cols]; try done.
  { apply lookup_insert_eq. } { lia. }
  rewrite Hb. cbn. rewrite insert_insert_eq.
  exists c1. split; [done|]. split; [lia|].
  intros r c Hr Hc. cbn [dat rows cols] in Hcells. rewrite Hcells by done.
  destruct (lookup_lt_is_Some_2 co (Z.to_nat (r * C)) ltac:(nia)) as [v0 Hv0].
  unfold acc. rewrite (accumulate_lookup key h _ co _ v0 Hv0). rewrite Hv0. cbn.
  f_equal.
  replace R with (Z.of_nat (Z.to_nat R)) at 1 by lia.
  rewrite seqZ_tiles by lia. rewrite filter_bind.
  rewrite (bind_pick _ _ r); [|apply NoDup_seqZ|apply elem_of_seqZ; lia|].
  - rewrite filter_all.
    + rewrite foldl_fmap. rewrite (row_of_lookups ci R C r) by lia.
      rewrite foldl_fmap. done.
    + intros x (k & -> & Hk%elem_of_seqZ)%list_elem_of_fmap. unfold key.
      rewrite div_cell by lia. done.
  - intros r' Hr'%elem_of_seqZ Hne'. apply filter_none.
    intros x (k & -> & Hk%elem_of_seqZ)%list_elem_of_fmap. unfold key.
    rewrite div_cell by lia. nia.
Qed.

(** X11: [sumCPU] adds the entries of each input row, from left to right,
    onto what the first column of that output row held on entry, and then
    spreads the result over the whole output row; it does not clear the
    output first. *)
Theorem sumCPU_accumulates_row_sums (hp : mem) (input output : positive)
  (ci co : list f32) (rows cols : Z) :
  hp !! input = Some ci -> hp !! output = Some co -> input ≠ output ->
  Z.of_nat (length ci) = rows * cols -> Z.of_nat (length co) = rows * cols ->
  0 <= rows -> 0 <= cols ->
  exists co',
    sumCPU hp input output rows cols = Some (<[output := co']> hp)
    /\ length co' = length co
    /\ forall r c, 0 <= r < rows -> 0 <= c < cols ->
         exists v0, co !! Z.to_nat (r * cols) = Some v0
           /\ co' !! Z.to_nat (r * cols + c)
              = Some (foldl f32_add v0 (row_of ci cols r)).
Proof.
  intros Hin Hout Hne Hli Hlo HR HC.
  destruct (sumCPU_rows hp input output ci co rows cols)
    as (co' & Hrun & Hl & Hcells); try done.
  exists co'. split; [exact Hrun|]. split; [exact Hl|]. intros r c Hr Hc.
  destruct (lookup_lt_is_Some_2 co (Z.to_nat (r * cols)) ltac:(nia)) as [v0 Hv0].
  exists v0. split; [exact Hv0|]. rewrite Hcells by done. by rewrite Hv0.
Qed.

(** ** The product on the CPU *)

Lemma matMulCPU_flat (hp : mem) (a b out : positive)
  (aRows aCols bRows bCols : Z) :
  matMulCPU hp a aRows aCols b bRows bCols out
  = run (fun (t : Z * Z * Z) (m : mem) =>
           o ← rd m out (t.1.1 * bRows + t.1.2);
           x ← rd m a (t.1.1 * aCols + t.2);
           y ← rd m b (t.1.2 * bCols + t.2);
           wr m out (t.1.1 * bRows + t.1.2) (f32_add o (f32_mul x y)))
        (matMulCPU_steps aRows aCols bRows) hp.
Proof.
  unfold matMulCPU, matMulCPU_steps. symmetry.
  rewrite run_bind. apply run_ext. intros i s _.
  rewrite run_bind. apply run_ext. intros j s1 _.
  rewrite run_bind. apply run_ext. intros k s2 _.
  rewrite run_bind. apply run_ext. intros k2 s3 _.
  rewrite run_bind. apply run_ext. intros j2 s4 _.
  rewrite run_singleton. cbn [fst snd]. by rewrite !Z.add_assoc.
Qed.

Lemma elem_of_matMulCPU_steps (aRows aCols bRows i jj kk : Z) :
  aCols `mod` 4 = 0 -> bRows `mod` 4 = 0 ->
  (i, jj, kk) ∈ matMulCPU_steps aRows aCols bRows ->
  0 <= i < aRows /\ 0 <= jj < bRows /\ 0 <= kk < aCols.
Proof.
  intros Ha Hb. unfold matMulCPU_steps.
  intros (i' & (j & (k & (k2 & (j2 & Heq%list_elem_of_singleton & Hj2%elem_of_seqZ)
    %list_elem_of_bind & Hk2%elem_of_seqZ)%list_elem_of_bind
    & Hk)%list_elem_of_bind & Hj)%list_elem_of_bind & Hi%elem_of_seqZ)%list_elem_of_bind.
  apply elem_of_for_stride in Hk as [Hk Hk']; [|lia].
  apply elem_of_for_stride in Hj as [Hj Hj']; [|lia].
  injection Heq as -> -> ->. rewrite Z.sub_0_r in Hk', Hj'.
  pose proof (Z.div_mod k 4 ltac:(lia)). pose proof (Z.div_mod j 4 ltac:(lia)).
  pose proof (Z.div_mod aCols 4 ltac:(lia)). pose proof (Z.div_mod bRows 4 ltac:(lia)).
  lia.
Qed.

Lemma matMulCPU_steps_cell (aRows aCols bRows i0 j0 : Z) :
  0 <= aCols -> aCols `mod` 4 = 0 -> bRows `mod` 4 = 0 ->
  0 <= i0 < aRows -> 0 <= j0 < bRows ->
  filter (fun t : Z * Z * Z => Z.to_nat (t.1.1 * bRows + t.1.2) = Z.to_nat (i0 * bRows + j0))
         (matMulCPU_steps aRows aCols bRows)
  = (fun kk => (i0, j0, kk)) <$> seqZ 0 aCols.
Proof.
  intros HaC Ha Hb Hi0 Hj0.
  rewrite (filter_ext_in _ (fun t : Z * Z * Z => t.1.1 = i0 /\ t.1.2 = j0)).
  2:{ intros [[i jj] kk] Ht. apply elem_of_matMulCPU_steps in Ht; [|done..].
      cbn [fst snd]. split.
      - intros Heq. apply (cell_index_inj bRows i jj i0 j0); lia.
      - by intros [-> ->]. }
  unfold matMulCPU_steps.
  pose proof (Z.div_mod j0 4 ltac:(lia)) as Hdm.
  pose proof (Z.mod_pos_bound j0 4 ltac:(lia)) as Hmb.
  pose proof (Z.div_mod bRows 4 ltac:(lia)) as HdR.
  set (js := j0 - j0 `mod` 4).
  rewrite filter_bind.
  rewrite (bind_pick _ _ i0); [|apply NoDup_seqZ|apply elem_of_seqZ; lia|].
  2:{ intros i _ Hne. apply filter_none. intros [[i' jj] kk].
      intros (j & (k & (k2 & (j2 & Heq%list_elem_of_singleton & _)%list_elem_of_bind
        & _)%list_elem_of_bind & _)%list_elem_of_bind & _)%list_elem_of_bind.
      injection Heq as -> -> ->. cbn. intros [? _]. done. }
  rewrite filter_bind.
  rewrite (bind_pick _ _ js);
    [|apply NoDup_stride_loop; lia
     |apply elem_of_for_stride; [lia|]; unfold js; rewrite Z.sub_0_r;
      split; [lia|]; replace (j0 - j0 `mod` 4) with (j0 `div` 4 * 4) by lia;
      apply Z.mod_mul; lia|].
  2:{ intros j Hj Hne. apply elem_of_for_stride in Hj as [Hj Hj']; [|lia].
      rewrite Z.sub_0_r in Hj'. pose proof (Z.div_mod j 4 ltac:(lia)).
      apply filter_none. intros [[i' jj] kk].
      intros (k & (k2 & (j2 & Heq%list_elem_of_singleton & Hj2%elem_of_seqZ)
        %list_elem_of_bind & _)%list_elem_of_bind & _)%list_elem_of_bind.
      injection Heq as -> -> ->. cbn. intros [_ ?]. unfold js in Hne. lia. }
  rewrite filter_bind.
  rewrite (bind_ext_in _ (fun k => (fun k2 => (i0, j0, k + k2)) <$> seqZ 0 4)).
  2:{ intros k _. rewrite filter_bind.
      rewrite (bind_ext_in _ (fun k2 => [(i0, j0, k + k2)])).
      { apply bind_fmap_singleton. }
      intros k2 _. rewrite filter_bind.
      rewrite (bind_pick _ _ (j0 `mod` 4)); [|apply NoDup_seqZ|apply elem_of_seqZ; lia|].
      - rewrite filter_all.
        + do 3 f_equal. unfold js. lia.
        + intros t ->%list_elem_of_singleton. cbn. split; [done|]. unfold js. lia.
      - intros j2 _ Hne. apply filter_none.
        intros t ->%list_elem_of_singleton. cbn. intros [_ ?]. unfold js in *. lia. }
  replace aCols with (aCols `div` 4 * 4) at 2
    by (pose proof (Z.div_mod aCols 4 ltac:(lia)); lia).
  replace aCols with (aCols `div` 4 * 4) at 1
    by (pose proof (Z.div_mod aCols 4 ltac:(lia)); lia).
  rewrite <- (seqZ_blocks (aCols `div` 4) 4) by (try lia; apply Z.div_pos; lia).
  rewrite fmap_bind. apply bind_ext_in. intros k _.
  rewrite <- list_fmap_compose. done.
Qed.

Lemma matMulCPU_cells (hp : mem) (a b out : positive) (ca cb cc : list f32)
  (aRows aCols bRows bCols : Z) :
  hp !! a = Some ca -> hp !! b = Some cb -> hp !! out = Some cc ->
  a ≠ out -> b ≠ out ->
  0 <= aRows -> 0 <= aCols -> 0 <= bRows -> aCols <= bCols ->
  aCols `mod` 4 = 0 -> bRows `mod` 4 = 0 ->
  aRows * aCols <= Z.of_nat (length ca) ->
  bRows * bCols <= Z.of_nat (length cb) ->
  Z.of_nat (length cc) = aRows * bRows ->
  exists cc',
    matMulCPU hp a aRows aCols b bRows bCols out = Some (<[out := cc']> hp)
    /\ length cc' = length cc
    /\ forall i j, 0 <= i < aRows -> 0 <= j < bRows ->
         cc' !! Z.to_nat (i * bRows + j)
         = Some (foldl (fun v k =>
                   f32_add v (f32_mul (default f32_zero (ca !! Z.to_nat (i * aCols + k)))
                                      (default f32_zero (cb !! Z.to_nat (j * bCols + k)))))
                   (default f32_zero (cc !! Z.to_nat (i * bRows + j)))
                   (seqZ 0 aCols)).
Proof.
  intros Ha Hb Hout Hao Hbo HaR HaC HbR Hcols Hm4 Hn4 Hla Hlb Hlc.
  rewrite matMulCPU_flat.
  set (key := fun t : Z * Z * Z => Z.to_nat (t.1.1 * bRows + t.1.2)).
  set (h := fun (t : Z * Z * Z) (v : f32) =>
              f32_add v (f32_mul (default f32_zero (ca !! Z.to_nat (t.1.1 * aCols + t.2)))
                                 (default f32_zero (cb !! Z.to_nat (t.1.2 * bCols + t.2))))).
  set (step := fun (t : Z * Z * Z) (m : mem) =>
                 o ← rd m out (t.1.1 * bRows + t.1.2);
                 x ← rd m a (t.1.1 * aCols + t.2);
                 y ← rd m b (t.1.2 * bCols + t.2);
                 wr m out (t.1.1 * bRows + t.1.2) (f32_add o (f32_mul x y))).
  pose proof (run_accumulate out hp step key h (length cc)
                (matMulCPU_steps aRows aCols bRows) cc) as Hrun.
  rewrite insert_id in Hrun by done. rewrite Hrun; [clear Hrun| |done].
  2:{ intros [[i jj] kk] c' Ht Hc'. apply elem_of_matMulCPU_steps in Ht; [|done..].
      unfold step, key, h. cbn [fst snd].
      rewrite (rd_lookup _ out c') by (rewrite ?lookup_insert_eq; try done; nia).
      cbn [mbind option_bind]. rewrite !rd_insert_ne by done.
      rewrite (rd_lookup hp a ca) by (try done; nia).
      cbn [mbind option_bind].
      rewrite (rd_lookup hp b cb) by (try done; nia).
      cbn [mbind option_bind]. rewrite wr_insert by nia. done. }
  eexists. split; [done|]. split; [apply accumulate_length|].
  intros i j Hi Hj.
  destruct (lookup_lt_is_Some_2 cc (Z.to_nat (i * bRows + j)) ltac:(nia)) as [v0 Hv0].
  rewrite (accumulate_lookup key h _ cc _ v0 Hv0). rewrite Hv0. cbn [default].
  f_equal. unfold key. rewrite matMulCPU_steps_cell by done.
  rewrite foldl_fmap. done.
Qed.

(** X12: when [aCols] and [bRows] are multiples of 4, [matMulCPU] adds to
    every cell of [out] the products [A[i][k] * B[j][k]], for [k] from 0
    upwards, onto what the cell held on entry; it never clears [out], and
    it indexes B with row stride [bCols]. *)
Theorem matMulCPU_accumulates (hp : mem) (a b out : positive)
  (ca cb cc : list f32) (aRows aCols bRows bCols : Z) :
  hp !! a = Some ca -> hp !! b = Some cb -> hp !! out = Some cc ->
  a ≠ out -> b ≠ out ->
  0 <= aRows -> 0 <= aCols -> 0 <= bRows -> aCols <= bCols ->
  aCols `mod` 4 = 0 -> bRows `mod` 4 = 0 ->
  Z.of_nat (length ca) = aRows * aCols ->
  Z.of_nat (length cb) = bRows * bCols ->
  Z.of_nat (length cc) = aRows * bRows ->
  exists cc',
    matMulCPU hp a aRows aCols b bRows bCols out = Some (<[out := cc']> hp)
    /\ length cc' = length cc
    /\ forall i j, 0 <= i < aRows -> 0 <= j < bRows ->
         exists v0, cc !! Z.to_nat (i * bRows + j) = Some v0
           /\ cc' !! Z.to_nat (i * bRows + j)
              = Some (foldl (fun v xy => f32_add v (f32_mul xy.1 xy.2)) v0
                        (zip (row_of ca aCols i) (take (Z.to_nat aCols) (row_of cb bCols j)))).
Proof.
  intros Ha Hb Hout Hao Hbo HaR HaC HbR Hcols Hm4 Hn4 Hla Hlb Hlc.
  destruct (matMulCPU_cells hp a b out ca cb cc aRows aCols bRows bCols)
    as (cc' & Hrun & Hl & Hcells); try done; try lia.
  exists cc'. split; [exact Hrun|]. split; [exact Hl|]. intros i j Hi Hj.
  destruct (lookup_lt_is_Some_2 cc (Z.to_nat (i * bRows + j)) ltac:(nia)) as [v0 Hv0].
  exists v0. split; [exact Hv0|]. rewrite Hcells by done. rewrite Hv0. cbn [default].
  f_equal.
  rewrite (row_of_lookups ca aRows aCols i) by lia.
  rewrite (row_of_lookups cb bRows bCols j) by lia.
  rewrite <- fmap_take.
  replace (take (Z.to_nat aCols) (seqZ 0 bCols)) with (seqZ 0 aCols).
  - rewrite zip_fmap_diag, foldl_fmap. done.
  - replace bCols with (aCols + (bCols - aCols)) by lia.
    rewrite seqZ_app by lia. rewrite take_app_length'; [done|].
    rewrite length_seqZ. lia.
Qed.

(** X13: when [bRows] is not a multiple of 4 (and there is something to
    multiply), [matMulCPU] runs past the end of B: its inner loops always
    handle four rows of B at a time. *)
Theorem matMulCPU_needs_bRows_multiple_of_4 (hp : mem) (a b out : positive)
  (cb : list f32) (aRows aCols bRows bCols : Z) :
  hp !! b = Some cb -> b ≠ out ->
  Z.of_nat (length cb) = bRows * bCols ->
  0 < aRows -> 0 < aCols -> 0 <= bRows -> 0 <= bCols ->
  bRows `mod` 4 ≠ 0 ->
  matMulCPU hp a aRows aCols b bRows bCols out = None.
Proof.
  intros Hb Hbo Hlb HaR HaC HbR HbC Hn4. unfold matMulCPU.
  set (I := fun m : mem => m !! b = Some cb).
  pose proof (Z.div_mod bRows 4 ltac:(lia)) as Hdm.
  pose proof (Z.mod_pos_bound bRows 4 ltac:(lia)) as Hmb.
  assert (Hbody : forall i j k k2 j2 (s0 s1 : mem), I s0 ->
            (o ← rd s0 out (i * bRows + j + j2);
             x ← rd s0 a (i * aCols + k + k2);
             y ← rd s0 b ((j + j2) * bCols + k + k2);
             wr s0 out (i * bRows + j + j2) (f32_add o (f32_mul x y))) = Some s1 ->
            I s1).
  { intros i j k k2 j2 s0 s1 Hs0 Hs1. unfold I in *.
    destruct (rd s0 out _) as [o|]; [|done]. cbn in Hs1.
    destruct (rd s0 a _) as [x|]; [|done]. cbn in Hs1.
    destruct (rd s0 b _) as [y|]; [|done]. cbn in Hs1.
    unfold wr in Hs1. destruct (s0 !! out) as [buf|]; [|done]. cbn in Hs1.
    destruct (store buf _ _) as [buf'|]; [|done]. cbn in Hs1.
    injection Hs1 as <-. by rewrite lookup_insert_ne. }
  assert (Hj2 : forall i j k k2 (s0 s1 : mem), I s0 ->
            run (fun j2 m =>
                   o ← rd m out (i * bRows + j + j2);
                   x ← rd m a (i * aCols + k + k2);
                   y ← rd m b ((j + j2) * bCols + k + k2);
                   wr m out (i * bRows + j + j2) (f32_add o (f32_mul x y)))
                (seqZ 0 4) s0 = Some s1 -> I s1).
  { intros i j k k2 s0 s1 Hs0. apply (run_inv_Some I); [done|].
    intros j2 s2 s3 _. apply Hbody. }
  assert (Hk2 : forall i j k (s0 s1 : mem), I s0 ->
            run (fun k2 => run (fun j2 m =>
                   o ← rd m out (i * bRows + j + j2);
                   x ← rd m a (i * aCols + k + k2);
                   y ← rd m b ((j + j2) * bCols + k + k2);
                   wr m out (i * bRows + j + j2) (f32_add o (f32_mul x y)))
                (seqZ 0 4)) (seqZ 0 4) s0 = Some s1 -> I s1).
  { intros i j k s0 s1 Hs0. apply (run_inv_Some I); [done|].
    intros k2 s2 s3 _. apply Hj2. }
  assert (Hk : forall i j (s0 s1 : mem), I s0 ->
            run (fun k => run (fun k2 => run (fun j2 m =>
                   o ← rd m out (i * bRows + j + j2);
                   x ← rd m a (i * aCols + k + k2);
                   y ← rd m b ((j + j2) * bCols + k + k2);
                   wr m out (i * bRows + j + j2) (f32_add o (f32_mul x y)))
                (seqZ 0 4)) (seqZ 0 4)) (for_stride 0 aCols 4) s0 = Some s1 -> I s1).
  { intros i j s0 s1 Hs0. apply (run_inv_Some I); [done|].
    intros k s2 s3 _. apply Hk2. }
  assert (Hj : forall i (s0 s1 : mem), I s0 ->
            run (fun j => run (fun k => run (fun k2 => run (fun j2 m =>
                   o ← rd m out (i * bRows + j + j2);
                   x ← rd m a (i * aCols + k + k2);
                   y ← rd m b ((j + j2) * bCols + k + k2);
                   wr m out (i * bRows + j + j2) (f32_add o (f32_mul x y)))
                (seqZ 0 4)) (seqZ 0 4)) (for_stride 0 aCols 4))
              (for_stride 0 bRows 4) s0 = Some s1 -> I s1).
  { intros i s0 s1 Hs0. apply (run_inv_Some I); [done|].
    intros j s2 s3 _. apply Hk. }
  apply (run_fails I _ _ 0); [done|apply elem_of_seqZ; lia| |].
  { intros i s0 s1 _. apply Hj. }
  intros s0 Hs0.
  apply (run_fails I _ _ (bRows `div` 4 * 4)); [done| | |].
  { apply elem_of_for_stride; [lia|]. rewrite Z.sub_0_r.
    split; [|apply Z.mod_mul; lia].
    assert (0 <= bRows `div` 4) by (apply Z.div_pos; lia). lia. }
  { intros j s1 s2 _. apply Hk. }
  intros s1 Hs1.
  apply (run_fails I _ _ 0); [done| | |].
  { apply elem_of_for_stride; [lia|]. split; [lia|done]. }
  { intros k s2 s3 _. apply Hk2. }
  intros s2 Hs2.
  apply (run_fails I _ _ 0); [done|apply elem_of_seqZ; lia| |].
  { intros k2 s3 s4 _. apply Hj2. }
  intros s3 Hs3.
  apply (run_fails I _ _ (bRows `mod` 4)); [done|apply elem_of_seqZ; lia| |].
  { intros j2 s4 s5 _. apply Hbody. }
  intros s4 Hs4.
  destruct (rd s4 out _) as [o|]; [|done]. cbn.
  destruct (rd s4 a _) as [x|]; [|done]. cbn.
  replace (rd s4 b _) with (@None f32); [done|].
  unfold rd. rewrite Hs4. cbn. unfold load.
  rewrite decide_True by nia. symmetry. apply lookup_ge_None. nia.
Qed.

(** ** Embedding gather *)

Lemma row_thread (g : dim3) (n : Z) (t : thread) :
  dim_y g = 1 -> t ∈ grid_threads g (Dim3 n 1) ->
  0 <= dim_x (blockIdx t) < dim_x g /\ 0 <= dim_x (threadIdx t) < n
  /\ dim_x (blockDim t) = n /\ thread_row t = 0
  /\ thread_col t = dim_x (blockIdx t) * n + dim_x (threadIdx t).
Proof.
  intros Hg (Hgd & Hbd & Hbi & Hti)%elem_of_grid_threads.
  apply elem_of_indices in Hbi, Hti. cbn in Hti.
  unfold thread_row, thread_col. rewrite Hbd. cbn. lia.
Qed.

(** X14: [embeddingsCUDA] stores in [line[t * DIM + d]], for every token
    [t] and every dimension [d], the word-table entry
    [wte[tokens[t] * DIM + d]] plus the positional entry [wpe[d * 1024 + t]],
    and leaves the rest of [line] alone. *)
Theorem embeddings_gather (hp : mem) (line wte wpe : Matrix) (tokens : list Z)
  (N DIM : Z) (cl cw cp : list f32) :
  hp !! dat line = Some cl -> hp !! dat wte = Some cw -> hp !! dat wpe = Some cp ->
  dat line ≠ dat wte -> dat line ≠ dat wpe ->
  0 <= N -> 0 < DIM ->
  N <= Z.of_nat (length tokens) ->
  (forall t tok, 0 <= t < N -> tokens !! Z.to_nat t = Some tok ->
     0 <= tok /\ (tok + 1) * DIM <= Z.of_nat (length cw)) ->
  (forall t d, 0 <= t < N -> 0 <= d < DIM -> d * 1024 + t < Z.of_nat (length cp)) ->
  N * DIM <= Z.of_nat (length cl) ->
  exists cl',
    embeddingsCUDA hp line wte wpe tokens N DIM = Some (<[dat line := cl']> hp)
    /\ length cl' = length cl
    /\ (forall t d, 0 <= t < N -> 0 <= d < DIM ->
          exists tok x y,
            tokens !! Z.to_nat t = Some tok
            /\ cw !! Z.to_nat (tok * DIM + d) = Some x
            /\ cp !! Z.to_nat (d * 1024 + t) = Some y
            /\ cl' !! Z.to_nat (t * DIM + d) = Some (f32_add x y))
    /\ (forall j, (Z.to_nat (N * DIM) <= j)%nat -> cl' !! j = cl !! j).
Proof.
  intros Hl Hw Hp Hlw Hlp HN HD Htok Hvocab Hpos Hlen. unfold embeddingsCUDA.
  set (g := Dim3 (CEIL_DIV (N * DIM) 1024) 1).
  set (idx := fun t : thread => Z.to_nat (thread_col t)).
  set (final := fun t : thread =>
         let i := thread_col t `quot` DIM in
         let j := thread_col t `rem` DIM in
         f32_add
           (default f32_zero
              (cw !! Z.to_nat (default 0 (tokens !! Z.to_nat i) * DIM + j)))
           (default f32_zero (cp !! Z.to_nat (j * 1024 + i)))).
  assert (Hcell : forall n, 0 <= n < N * DIM ->
            0 <= n `quot` DIM < N /\ 0 <= n `rem` DIM < DIM
            /\ n `quot` DIM * DIM + n `rem` DIM = n).
  { intros n Hn. rewrite Z.quot_div_nonneg, Z.rem_mod_nonneg by lia.
    pose proof (Z.div_mod n DIM ltac:(lia)).
    pose proof (Z.mod_pos_bound n DIM ltac:(lia)).
    assert (0 <= n `div` DIM) by (apply Z.div_pos; lia).
    assert (n `div` DIM < N) by (apply Z.div_lt_upper_bound; lia). lia. }
  destruct (run_cells (dat line) hp cl
              (embeddingsKernel line wpe tokens N DIM wte)
              (fun t => bool_decide (thread_col t < N * DIM)) idx final
              (grid_threads g (Dim3 1024 1)))
    as (cl' & Hrun & Hlen' & Hdone & Hrest).
  - intros t Ht Hg%bool_decide_eq_true. apply row_thread in Ht; [|done].
    unfold idx. lia.
  - intros t c Ht [Hlc _] _.
    pose proof (row_thread g 1024 t eq_refl Ht) as (Hbx & Htx & Hbd & _ & Hcol).
    unfold embeddingsKernel. rewrite decide_False by lia.
    rewrite Hbd, <- Hcol.
    destruct (decide (thread_col t < N * DIM)) as [Hin|Hout].
    + rewrite bool_decide_eq_true_2 by done.
      destruct (Hcell (thread_col t) ltac:(lia)) as (Hi & Hj & Heq).
      rewrite decide_True by lia.
      destruct (lookup_lt_is_Some_2 tokens (Z.to_nat (thread_col t `quot` DIM))
                  ltac:(lia)) as [tok Ht'].
      rewrite Ht'. cbn [mbind option_bind].
      destruct (Hvocab _ tok Hi Ht') as [Htok0 Htok1].
      rewrite !rd_insert_ne by done.
      rewrite (rd_lookup hp (dat wte) cw) by (try done; nia).
      cbn [mbind option_bind].
      rewrite (rd_lookup hp (dat wpe) cp)
        by (try done; specialize (Hpos _ _ Hi Hj); lia).
      cbn [mbind option_bind]. rewrite Heq. rewrite wr_insert by lia.
      unfold final, idx. cbn zeta. rewrite Ht'. done.
    + by rewrite bool_decide_eq_false_2.
  - done.
  - apply NoDup_fmap_2_strong; [|apply NoDup_filter, NoDup_grid_threads].
    intros t1 t2 [_ H1]%list_elem_of_filter [_ H2]%list_elem_of_filter Heq.
    pose proof (row_thread g 1024 t1 eq_refl H1) as (? & ? & _ & Hr1 & Hc1).
    pose proof (row_thread g 1024 t2 eq_refl H2) as (? & ? & _ & Hr2 & Hc2).
    apply (thread_eq g (Dim3 1024 1)); try done; [congruence|].
    unfold idx in Heq. lia.
  - exists cl'. split; [exact Hrun|]. split; [exact Hlen'|]. split.
    + intros t d Ht Hd.
      set (n := t * DIM + d).
      assert (Hn : 0 <= n < N * DIM) by (unfold n; nia).
      set (th := Thread g (Dim3 1024 1) (Dim3 (n `div` 1024) 0) (Dim3 (n `mod` 1024) 0)).
      assert (Hth : th ∈ grid_threads g (Dim3 1024 1)).
      { apply elem_of_grid_threads. split_and!; try done.
        - apply elem_of_indices. cbn. split; [|lia].
          apply (CEIL_DIV_covers n (N * DIM) 1024); lia.
        - apply elem_of_indices. cbn. split; [|lia].
          apply Z.mod_pos_bound. lia. }
      assert (Hcol : thread_col th = n).
      { unfold thread_col, th. cbn. pose proof (Z.div_mod n 1024 ltac:(lia)). lia. }
      specialize (Hdone th Hth). rewrite Hcol in Hdone.
      unfold idx, final in Hdone. rewrite Hcol in Hdone. cbn zeta in Hdone.
      assert (n `quot` DIM = t /\ n `rem` DIM = d) as [Hq Hr].
      { unfold n. by rewrite quot_cell, rem_cell by lia. }
      rewrite Hq, Hr in Hdone.
      destruct (lookup_lt_is_Some_2 tokens (Z.to_nat t) ltac:(lia)) as [tok Ht'].
      destruct (Hvocab _ tok Ht Ht') as [Htok0 Htok1].
      destruct (lookup_lt_is_Some_2 cw (Z.to_nat (tok * DIM + d)) ltac:(nia)) as [x Hx].
      destruct (lookup_lt_is_Some_2 cp (Z.to_nat (d * 1024 + t))
                  ltac:(specialize (Hpos _ _ Ht Hd); lia)) as [y Hy].
      exists tok, x, y. split; [done|]. split; [done|]. split; [done|].
      rewrite Hdone by (apply bool_decide_eq_true_2; lia).
      rewrite Ht'. simpl. rewrite Hx, Hy. done.
    + intros j Hj. apply Hrest. intros t Ht Hg%bool_decide_eq_true.
      pose proof (row_thread g 1024 t eq_refl Ht) as (? & ? & _ & _ & Hc).
      unfold idx. lia.
Qed.

(** ** The comparison used by the tests *)

Lemma tolerance_nan_l (y : f32) :
  f64_gtb (f64_of_f32 (f32_abs (f32_sub S754_nan y))) (f64_lit 1 2) = false.
Proof. by destruct y. Qed.

Lemma tolerance_nan_r (x : f32) :
  f64_gtb (f64_of_f32 (f32_abs (f32_sub x S754_nan))) (f64_lit 1 2) = false.
Proof. by destruct x. Qed.

Lemma tolerance_refl (x : f32) :
  f64_gtb (f64_of_f32 (f32_abs (f32_sub x x))) (f64_lit 1 2) = false.
Proof.
  destruct x as [[]|[]| |s m e]; try (vm_compute; reflexivity).
  unfold f32_sub, SFsub. rewrite Z.sub_diag. vm_compute. reflexivity.
Qed.

Lemma compare_scan_true (hp : mem) (a b : positive) (ca cb : list f32)
  (l : list Z) :
  hp !! a = Some ca -> hp !! b = Some cb ->
  (forall i, i ∈ l -> 0 <= i < Z.of_nat (length ca) /\ i < Z.of_nat (length cb)) ->
  (forall i x y, i ∈ l -> ca !! Z.to_nat i = Some x -> cb !! Z.to_nat i = Some y ->
     x = y \/ x = S754_nan \/ y = S754_nan) ->
  compare_scan hp a b l = Some true.
Proof.
  intros Ha Hb. induction l as [|i l IH]; intros Hr Hxy; [done|].
  cbn [compare_scan].
  destruct (Hr i ltac:(by left)) as [Hia Hib].
  destruct (lookup_lt_is_Some_2 ca (Z.to_nat i) ltac:(lia)) as [x Hx].
  destruct (lookup_lt_is_Some_2 cb (Z.to_nat i) ltac:(lia)) as [y Hy].
  rewrite (rd_lookup hp a ca), (rd_lookup hp b cb) by (done || lia).
  rewrite Hx, Hy. cbn [mbind option_bind default].
  replace (f64_gtb _ _) with false.
  - apply IH; [intros j Hj; apply Hr; by right|].
    intros j x' y' Hj. apply Hxy. by right.
  - destruct (Hxy i x y ltac:(by left) Hx Hy) as [->|[->| ->]];
      by rewrite ?tolerance_refl, ?tolerance_nan_l, ?tolerance_nan_r.
Qed.

(** X15: [compareMatrices] reports two buffers as equal whenever, at every
    index below [rows * cols], the two entries are the same float or one of
    them is a NaN: a NaN is never farther than the tolerance from
    anything. *)
Theorem compareMatrices_blind_to_nan (hp : mem) (a b : positive)
  (ca cb : list f32) (rows cols : Z) :
  hp !! a = Some ca -> hp !! b = Some cb ->
  rows * cols <= Z.of_nat (length ca) -> rows * cols <= Z.of_nat (length cb) ->
  (forall i x y, 0 <= i < rows * cols ->
     ca !! Z.to_nat i = Some x -> cb !! Z.to_nat i = Some y ->
     x = y \/ x = S754_nan \/ y = S754_nan) ->
  compareMatrices hp a b rows cols = Some true.
Proof.
  intros Ha Hb Hla Hlb Hxy. unfold compareMatrices.
  apply (compare_scan_true hp a b ca cb); try done.
  - intros i Hi%elem_of_seqZ. lia.
  - intros i x y Hi%elem_of_seqZ. apply Hxy. lia.
Qed.

(** ** Global max *)

Lemma run_seqZ_inv {St : Type} (J : Z -> St -> Prop) (step : Z -> St -> option St)
  (n : Z) (s : St) :
  J 0 s ->
  (forall t s0, 0 <= t < n -> J t s0 -> exists s1, step t s0 = Some s1 /\ J (t + 1) s1) ->
  exists s', run step (seqZ 0 n) s = Some s' /\ J (Z.max 0 n) s'.
Proof.
  intros H0 Hstep.
  assert (Hgen : forall (k : nat) (m : Z) (s0 : St),
            0 <= m -> m + Z.of_nat k <= Z.max 0 n -> J m s0 ->
            exists s', run step (seqZ m (Z.of_nat k)) s0 = Some s'
                       /\ J (m + Z.of_nat k) s').
  { induction k as [|k IH]; intros m s0 Hm Hk Hs0.
    - exists s0. rewrite Z.add_0_r. done.
    - rewrite seqZ_cons by lia. cbn [run].
      destruct (Hstep m s0 ltac:(lia) Hs0) as (s1 & -> & Hs1). cbn.
      replace (Z.pred (Z.of_nat (S k))) with (Z.of_nat k) by lia.
      destruct (IH (Z.succ m) s1) as (s' & Hrun & Hs'); [lia|lia| |].
      { by replace (Z.succ m) with (m + 1) by lia. }
      exists s'. split; [done|].
      by replace (m + Z.of_nat (S k)) with (Z.succ m + Z.of_nat k) by lia. }
  destruct (decide (0 <= n)).
  - destruct (Hgen (Z.to_nat n) 0 s) as (s' & Hrun & Hs'); [lia|lia|done|].
    rewrite Z2Nat.id in Hrun, Hs' by lia. exists s'.
    by rewrite Z.max_r by lia.
  - exists s. rewrite seqZ_nil by lia. by rewrite Z.max_l by lia.
Qed.

Lemma mapM_inv {T U : Type} (f : T -> option U) (Q : T -> U -> Prop) (l : list T) :
  (forall t, t ∈ l -> exists u, f t = Some u /\ Q t u) ->
  exists us, mapM f l = Some us /\ Forall2 Q l us.
Proof.
  induction l as [|t l IH]; intros H.
  - by exists [].
  - destruct (H t ltac:(by left)) as (u & Hu & HQ).
    destruct IH as (us & Hus & HQs); [intros t' Ht'; apply H; by right|].
    exists (u :: us). split; [|by constructor].
    cbn. rewrite Hu. cbn. rewrite Hus. done.
Qed.

Section FindMaxSpec.
Variable fmaxf : f32 -> f32 -> f32.
Variable le : f32 -> f32 -> Prop.
Hypothesis le_refl : forall x, le x x.
Hypothesis le_trans : forall x y z, le x y -> le y z -> le x z.
Hypothesis fmaxf_sel : forall x y, fmaxf x y = x \/ fmaxf x y = y.
Hypothesis fmaxf_ub : forall x y, le x (fmaxf x y) /\ le y (fmaxf x y).

Variable hp : mem.
Variables pa pm : positive.
Variable ca : list f32.
Variable v0 : f32.
Variable len : Z.
Hypothesis Ha : hp !! pa = Some ca.
Hypothesis Hne : pa ≠ pm.
Hypothesis Hlen : 0 <= len <= Z.of_nat (length ca).


Lemma findMax_local_spec (M : f32) (start stride : Z) :
  0 <= start -> 0 < stride ->
  exists v, findMax_local fmaxf pa len start stride (<[pm := [M]]> hp) = Some v
    /\ findMax_candidate ca v0 len v /\ le (S754_infinity true) v
    /\ forall i x, i ∈ for_stride start len stride ->
         ca !! Z.to_nat i = Some x -> le x v.
Proof.
  intros Hs Hst. unfold findMax_local. rewrite decide_False by lia.
  assert (Hin : forall i, i ∈ for_stride start len stride -> 0 <= i < len).
  { intros i Hi%elem_of_for_stride; lia. }
  revert Hin. generalize (for_stride start len stride). intros l.
  assert (Hgen : forall acc, findMax_candidate ca v0 len acc ->
            (forall i, i ∈ l -> 0 <= i < len) ->
            exists v, run (fun thread_idx localMax =>
                             x ← rd (<[pm := [M]]> hp) pa thread_idx;
                             Some (fmaxf localMax x)) l acc = Some v
              /\ findMax_candidate ca v0 len v /\ le acc v
              /\ forall i x, i ∈ l -> ca !! Z.to_nat i = Some x -> le x v).
  { induction l as [|i l IH]; intros acc Hacc Hin.
    - exists acc. split_and!; try done. intros i x Hi. by apply elem_of_nil in Hi.
    - cbn [run]. pose proof (Hin i ltac:(by left)) as Hi.
      rewrite rd_insert_ne by done. rewrite (rd_lookup hp pa ca) by (done || lia).
      destruct (lookup_lt_is_Some_2 ca (Z.to_nat i) ltac:(lia)) as [x Hx].
      rewrite Hx. cbn.
      destruct (IH (fmaxf acc x)) as (v & Hrun & Hv & Hle & Hall).
      { destruct (fmaxf_sel acc x) as [-> | ->]; [done|].
        right. right. by exists i. }
      { intros j Hj. apply Hin. by right. }
      exists v. split; [done|]. split; [done|].
      destruct (fmaxf_ub acc x) as [Hl Hr]. split; [by eapply le_trans|].
      intros j y [->|Hj]%elem_of_cons Hy.
      + rewrite Hx in Hy. injection Hy as <-. by eapply le_trans.
      + by eapply Hall. }
  intros Hin. apply Hgen; [|done]. right. by left.
Qed.


Lemma findMax_round_spec (bdx s : Z) (sdata : list f32) :
  0 < s -> 2 * s <= bdx -> Z.of_nat (length sdata) = bdx ->
  Forall (findMax_candidate ca v0 len) sdata ->
  exists sdata',
    findMax_round fmaxf bdx s sdata = Some sdata'
    /\ Z.of_nat (length sdata') = bdx /\ Forall (findMax_candidate ca v0 len) sdata'
    /\ forall x, findMax_covers le (2 * s) sdata x -> findMax_covers le s sdata' x.
Proof.
  intros Hs Hbdx Hl HP. unfold findMax_round.
  set (J := fun (t : Z) (cur : list f32) =>
              Z.of_nat (length cur) = bdx /\ Forall (findMax_candidate ca v0 len) cur
              /\ (forall i, t <= i -> cur !! Z.to_nat i = sdata !! Z.to_nat i)
              /\ (forall i, 0 <= i < t -> i < s ->
                    exists a b v, sdata !! Z.to_nat i = Some a
                                  /\ sdata !! Z.to_nat (i + s) = Some b
                                  /\ cur !! Z.to_nat i = Some v
                                  /\ le a v /\ le b v)).
  destruct (run_seqZ_inv J
              (fun tid sdata0 =>
                 if decide (tid < s) then
                   x ← load sdata0 tid; y ← load sdata0 (tid + s);
                   store sdata0 tid (fmaxf x y)
                 else Some sdata0) bdx sdata) as (cur & Hrun & Hcur).
  - split_and!; try done. intros i Hi. lia.
  - intros t cur Ht (Hlc & HPc & Hkeep & Hdone).
    destruct (decide (t < s)) as [Hts|Hts].
    + destruct (lookup_lt_is_Some_2 sdata (Z.to_nat t) ltac:(lia)) as [a Ha'].
      destruct (lookup_lt_is_Some_2 sdata (Z.to_nat (t + s)) ltac:(lia)) as [b Hb'].
      rewrite !load_lookup by lia.
      rewrite (Hkeep t), (Hkeep (t + s)) by lia. rewrite Ha', Hb'. cbn.
      rewrite store_Some by lia. eexists. split; [done|].
      split_and!.
      * by rewrite length_insert.
      * apply Forall_insert; [done|].
        rewrite Forall_lookup in HP.
        destruct (fmaxf_sel a b) as [-> | ->]; by eapply HP.
      * intros i Hi. rewrite list_lookup_insert_ne by lia. apply Hkeep. lia.
      * intros i Hi His. destruct (decide (i = t)) as [->|Hne'].
        -- exists a, b, (fmaxf a b). split_and!; try done;
             [|apply fmaxf_ub|apply fmaxf_ub].
           apply list_lookup_insert_eq. lia.
        -- destruct (Hdone i ltac:(lia) His) as (a' & b' & v & ? & ? & ? & ? & ?).
           exists a', b', v. split_and!; try done.
           by rewrite list_lookup_insert_ne by lia.
    + exists cur. split; [done|]. split_and!; try done.
      * intros i Hi. apply Hkeep. lia.
      * intros i Hi His. apply Hdone; lia.
  - rewrite Z.max_r in Hcur by lia. destruct Hcur as (Hlc & HPc & _ & Hdone).
    exists cur. split; [done|]. split; [done|]. split; [done|].
    intros x (i & v & Hi & Hv & Hxv).
    destruct (decide (i < s)) as [His|His].
    + destruct (Hdone i ltac:(lia) His) as (a & b & w & Ha' & _ & Hw & Haw & _).
      exists i, w. split; [lia|]. split; [done|].
      rewrite Ha' in Hv. injection Hv as <-. by eapply le_trans.
    + destruct (Hdone (i - s) ltac:(lia) ltac:(lia))
        as (a & b & w & _ & Hb' & Hw & _ & Hbw).
      exists (i - s), w. split; [lia|]. split; [done|].
      replace (i - s + s) with i in Hb' by lia.
      rewrite Hb' in Hv. injection Hv as <-. by eapply le_trans.
Qed.

Lemma findMax_rounds_spec (j fuel : nat) (bdx k : Z) (sdata : list f32) :
  k = 2 ^ Z.of_nat j -> (j <= fuel)%nat -> k <= bdx ->
  Z.of_nat (length sdata) = bdx -> Forall (findMax_candidate ca v0 len) sdata ->
  exists sdata',
    run (findMax_round fmaxf bdx) (halvings fuel (k `div` 2)) sdata = Some sdata'
    /\ Z.of_nat (length sdata') = bdx /\ Forall (findMax_candidate ca v0 len) sdata'
    /\ forall x, findMax_covers le k sdata x -> findMax_covers le 1 sdata' x.
Proof.
  revert fuel k sdata. induction j as [|j IH]; intros fuel k sdata -> Hf Hb Hl HP.
  - exists sdata. change (2 ^ Z.of_nat 0 `div` 2) with 0.
    destruct fuel; cbn; done.
  - destruct fuel as [|fuel]; [lia|].
    assert (Hpow : 2 ^ Z.of_nat (S j) = 2 * 2 ^ Z.of_nat j).
    { rewrite Nat2Z.inj_succ, Z.pow_succ_r by lia. done. }
    assert (0 < 2 ^ Z.of_nat j) by (apply Z.pow_pos_nonneg; lia).
    rewrite Hpow in *. rewrite (Z.mul_comm 2), Z.div_mul by lia.
    cbn [halvings]. rewrite decide_True by done. cbn [run].
    destruct (findMax_round_spec bdx (2 ^ Z.of_nat j) sdata)
      as (sd1 & -> & Hl1 & HP1 & Hc1); [lia|lia|done|done|]. cbn.
    destruct (IH fuel (2 ^ Z.of_nat j) sd1) as (sd2 & Hrun & Hl2 & HP2 & Hc2);
      [done|lia|lia|done|done|].
    exists sd2. split; [done|]. split; [done|]. split; [done|].
    intros x Hx. apply Hc2, Hc1. by rewrite (Z.mul_comm 2).
Qed.


Lemma findMaxKernel_block (j : nat) (gdx bx : Z) (M : f32) :
  let bdx := 2 ^ Z.of_nat j in
  0 < gdx -> 0 <= bx < gdx -> (j <= Z.to_nat bdx)%nat -> findMax_candidate ca v0 len M ->
  exists M',
    findMaxKernel fmaxf pa pm len (Dim3 gdx 1) (Dim3 bdx 1) (Dim3 bx 0)
      (<[pm := [M]]> hp)
    = Some (<[pm := [M']]> hp)
    /\ findMax_candidate ca v0 len M' /\ le M M'
    /\ forall i x, 0 <= i < len -> findMax_block gdx bdx i = bx ->
         ca !! Z.to_nat i = Some x -> le x M'.
Proof.
  intros bdx Hg Hbx Hj HM. unfold findMaxKernel. cbn [dim_x].
  assert (Hbdx : 0 < bdx) by (apply Z.pow_pos_nonneg; lia).
  destruct (mapM_inv
              (fun tx => findMax_local fmaxf pa len (bdx * bx + tx) (bdx * gdx)
                           (<[pm := [M]]> hp))
              (fun tx v => findMax_candidate ca v0 len v /\ forall i x,
                   i ∈ for_stride (bdx * bx + tx) len (bdx * gdx) ->
                   ca !! Z.to_nat i = Some x -> le x v)
              (seqZ 0 bdx)) as (sdata & -> & Hsd).
  { intros tx Htx%elem_of_seqZ.
    destruct (findMax_local_spec M (bdx * bx + tx) (bdx * gdx))
      as (v & Hv & HPv & _ & Hall); [nia|nia|].
    by exists v. }
  cbn [mbind option_bind].
  assert (Hl : Z.of_nat (length sdata) = bdx).
  { apply Forall2_length in Hsd. rewrite length_seqZ in Hsd. lia. }
  assert (HPs : Forall (findMax_candidate ca v0 len) sdata).
  { apply Forall_lookup. intros n v Hn.
    destruct (Forall2_lookup_r _ _ _ _ _ Hsd Hn) as (tx & _ & HPv & _). done. }
  destruct (findMax_rounds_spec j (Z.to_nat bdx) bdx bdx sdata)
    as (sd' & -> & Hl' & HP' & Hcov); [done|done|done|done|done|].
  cbn [mbind option_bind].
  destruct (lookup_lt_is_Some_2 sd' 0 ltac:(lia)) as [v Hv].
  rewrite load_lookup by lia. change (Z.to_nat 0) with 0%nat. rewrite Hv.
  cbn [mbind option_bind]. unfold atomicMax.
  unfold rd. rewrite lookup_insert_eq. cbn [mbind option_bind].
  change (load [M] 0) with (Some M). cbn [mbind option_bind].
  rewrite wr_insert by (cbn; lia). cbn.
  exists (fmaxf v M). split; [done|].
  destruct (fmaxf_ub v M) as [Hvm HMm].
  split; [|split; [done|]].
  { rewrite Forall_lookup in HP'.
    destruct (fmaxf_sel v M) as [-> | ->]; [by eapply HP'|done]. }
  intros i x Hi Hblock Hx.
  assert (Hcx : findMax_covers le bdx sdata x).
  { set (t0 := i `mod` (bdx * gdx)).
    pose proof (Z.mod_pos_bound i (bdx * gdx) ltac:(nia)) as Ht0.
    pose proof (Z.div_mod t0 bdx ltac:(lia)) as Hdm.
    pose proof (Z.mod_pos_bound t0 bdx ltac:(lia)) as Hmb.
    unfold findMax_block in Hblock. fold t0 in Hblock, Ht0.
    destruct (Forall2_lookup_l _ _ _ (Z.to_nat (t0 `mod` bdx)) (t0 `mod` bdx) Hsd)
      as (w & Hw & _ & Hall).
    { rewrite lookup_seqZ. split; lia. }
    exists (t0 `mod` bdx), w. split; [fold bdx; lia|]. split; [done|].
    apply (Hall i x); [|done].
    apply elem_of_for_stride; [nia|].
    replace (bdx * bx + t0 `mod` bdx) with t0 by lia.
    pose proof (Z.div_mod i (bdx * gdx) ltac:(nia)) as Hi'. fold t0 in Hi'.
    assert (0 <= i `div` (bdx * gdx)) by (apply Z.div_pos; nia).
    split; [nia|].
    replace (i - t0) with (i `div` (bdx * gdx) * (bdx * gdx)) by lia.
    apply Z.mod_mul. nia. }
  destruct (Hcov x Hcx) as (i' & w & Hi' & Hw & Hxw).
  assert (i' = 0) as -> by lia. change (Z.to_nat 0) with 0%nat in Hw.
  rewrite Hv in Hw. injection Hw as <-.
  by eapply le_trans.
Qed.

Lemma findMax_launch (j : nat) (gdx : Z) :
  let bdx := 2 ^ Z.of_nat j in
  0 < gdx -> (j <= Z.to_nat bdx)%nat ->
  exists M,
    launch_blocks (Dim3 gdx 1) (Dim3 bdx 1) (findMaxKernel fmaxf pa pm len)
      (<[pm := [v0]]> hp)
    = Some (<[pm := [M]]> hp)
    /\ findMax_candidate ca v0 len M /\ le v0 M
    /\ forall i x, 0 <= i < len -> ca !! Z.to_nat i = Some x -> le x M.
Proof.
  intros bdx Hg Hj. unfold launch_blocks.
  rewrite indices_row, run_fmap.
  assert (Hbdx : 0 < bdx) by (apply Z.pow_pos_nonneg; lia).
  set (G := fun (b : Z) (m : mem) =>
              exists M, m = <[pm := [M]]> hp /\ findMax_candidate ca v0 len M /\ le v0 M
                /\ forall i x, 0 <= i < len -> findMax_block gdx bdx i < b ->
                     ca !! Z.to_nat i = Some x -> le x M).
  destruct (run_seqZ_inv G
              (fun t => findMaxKernel fmaxf pa pm len (Dim3 gdx 1) (Dim3 bdx 1) (Dim3 t 0))
              gdx (<[pm := [v0]]> hp)) as (m' & Hrun & HG).
  - exists v0. split; [done|]. split; [by left|]. split; [done|].
    intros i x Hi Hb. unfold findMax_block in Hb.
    assert (0 <= (i `mod` (bdx * gdx)) `div` bdx); [|lia].
    apply Z.div_pos; [|lia]. apply Z.mod_pos_bound. nia.
  - intros bx m Hbx (M & -> & HM & Hv0 & Hcov).
    destruct (findMaxKernel_block j gdx bx M) as (M' & Hrun & HM' & Hle & Hnew);
      try done.
    exists (<[pm := [M']]> hp). split; [exact Hrun|].
    exists M'. split; [done|]. split; [done|]. split; [by eapply le_trans|].
    intros i x Hi Hb Hx.
    destruct (decide (findMax_block gdx bdx i = bx)) as [Heq|Hneq].
    + by eapply Hnew.
    + eapply le_trans; [|exact Hle]. eapply Hcov; try done. lia.
  - rewrite Z.max_r in HG by lia. destruct HG as (M & -> & HM & Hv0 & Hcov).
    exists M. split; [exact Hrun|]. split; [done|]. split; [done|].
    intros i x Hi Hx. eapply Hcov; try done. unfold findMax_block.
    apply Z.div_lt_upper_bound; [lia|]. apply Z.mod_pos_bound. nia.
Qed.

End FindMaxSpec.

(** X16: [findMaxKernel], launched as the sampler launches it, leaves in
    the accumulator the maximum of what the accumulator held, of
    [-INFINITY] and of the first [length] entries: the result is one of
    these values and is above all of them, in any order [le] for which
    [fmaxf] returns one of its arguments, above both. *)
Theorem findMax_is_maximum (fmaxf : f32 -> f32 -> f32) (le : f32 -> f32 -> Prop)
  (hp : mem) (pa pm : positive) (ca : list f32) (v0 : f32) (len : Z) :
  (forall x, le x x) ->
  (forall x y z, le x y -> le y z -> le x z) ->
  (forall x y, fmaxf x y = x \/ fmaxf x y = y) ->
  (forall x y, le x (fmaxf x y) /\ le y (fmaxf x y)) ->
  hp !! pa = Some ca -> hp !! pm = Some [v0] -> pa ≠ pm ->
  0 <= len <= Z.of_nat (length ca) ->
  exists M,
    launch_blocks (Dim3 128 1) (Dim3 256 1) (findMaxKernel fmaxf pa pm len) hp
    = Some (<[pm := [M]]> hp)
    /\ (M = v0 \/ M = S754_infinity true
        \/ exists i, 0 <= i < len /\ ca !! Z.to_nat i = Some M)
    /\ le v0 M
    /\ forall i x, 0 <= i < len -> ca !! Z.to_nat i = Some x -> le x M.
Proof.
  intros Hrefl Htrans Hsel Hub Ha Hm Hne Hlen.
  destruct (findMax_launch fmaxf le Hrefl Htrans Hsel Hub hp pa pm ca v0 len
              Ha Hne Hlen 8 128 eq_refl ltac:(vm_compute; lia))
    as (M & Hrun & HM & Hv0 & Hall).
  rewrite insert_id in Hrun by done.
  exists M. split; [exact Hrun|]. split; [exact HM|]. split; [exact Hv0|].
  exact Hall.
Qed.

(** ** Softmax sampler *)

Lemma fresh_not_in (hp : mem) (p : positive) (c : list f32) :
  hp !! p = Some c -> p ≠ fresh (dom hp).
Proof.
  intros Hp Heq. apply (is_fresh (dom hp)). rewrite <- Heq.
  apply elem_of_dom. by exists c.
Qed.

Lemma singleton_of_length (c : list f32) (v : f32) :
  length c = 1%nat -> c !! 0%nat = Some v -> c = [v].
Proof. destruct c as [|x [|y c]]; cbn; intros; simplify_eq; done. Qed.

(** X17: on a matrix of one row, [softmaxSampleCUDA] leaves in the row the
    values [exp(x - max) / sum] and returns what the scan of that row
    yields, an index between 0 and the width, the width included.  [max] is
    the maximum of the row, of [-INFINITY] and of the float that
    [cudaMemset(.., -10000, ..)] writes, which is [-15790320 * 2^75] and not
    -10000; [sum] is a sum of the exponentials; and the two device buffers
    the function allocates for them are still in the store when it
    returns. *)
Theorem softmaxSample_one_row (expf : f32 -> f32) (fmaxf : f32 -> f32 -> f32)
  (le : f32 -> f32 -> Prop) (junk : f32) (r : f64) (hp : mem) (a : Matrix)
  (c0 : list f32) :
  (forall x, le x x) ->
  (forall x y z, le x y -> le y z -> le x z) ->
  (forall x y, fmaxf x y = x \/ fmaxf x y = y) ->
  (forall x y, le x (fmaxf x y) /\ le y (fmaxf x y)) ->
  hp !! dat a = Some c0 -> rows a = 1 -> 0 < cols a ->
  Z.of_nat (length c0) = cols a ->
  exists p1 p2 M S i,
    softmaxSampleCUDA expf fmaxf junk r hp a
    = Some (<[dat a := softmax_prob expf M S <$> c0]>
              (<[p2 := [S]]> (<[p1 := [M]]> hp)), i)
    /\ (p1 ∉ dom hp) /\ (p2 ∉ dom hp) /\ p1 ≠ p2
    /\ memset_float (-10000) = S754_finite true 15790320 75
    /\ (M = memset_float (-10000) \/ M = S754_infinity true \/ M ∈ c0)
    /\ le (memset_float (-10000)) M /\ (forall x, x ∈ c0 -> le x M)
    /\ sum_of f32_add f32_zero (softmax_exp expf M <$> c0) S
    /\ weightedSampleKernel (softmax_prob expf M S <$> c0) r (cols a) = Some i
    /\ 0 <= i <= cols a.
Proof.
  intros Hrefl Htrans Hsel Hub Ha HR HC Hlen.
  unfold softmaxSampleCUDA, cudaMalloc.
  set (p1 := fresh (dom hp)).
  assert (Hp1 : p1 ∉ dom hp) by apply is_fresh.
  assert (Hap1 : dat a ≠ p1) by (by eapply fresh_not_in).
  destruct (findMax_launch fmaxf le Hrefl Htrans Hsel Hub hp (dat a) p1 c0
              (memset_float (-10000)) (cols a) Ha Hap1 ltac:(lia) 8 128 eq_refl
              ltac:(vm_compute; lia))
    as (M & Hrun & HM & Hv0 & Hall).
  change (2 ^ Z.of_nat 8) with 256 in Hrun. rewrite Hrun. clear Hrun.
  cbn [mbind option_bind].
  rewrite (rd_lookup _ p1 [M]) by (first [apply lookup_insert_eq | cbn; lia]).
  change (default f32_zero ([M] !! Z.to_nat 0)) with M.
  cbn [mbind option_bind].
  set (k := f32_of_f64 (f64_mul (f64_of_int (-1)) (f64_of_f32 M))).
  set (h1 := <[p1 := [M]]> hp).
  assert (Hh1 : h1 !! dat a = Some c0) by (unfold h1; by rewrite lookup_insert_ne).
  destruct (UNARY_pointwise f32_add add_const_opr h1 a k c0) as [Hadd _];
    [done|done|lia|lia|lia|].
  unfold add_constCUDA. rewrite Hadd. clear Hadd. cbn [mbind option_bind fst].
  set (c1 := (fun x => f32_add (plus_zero x) k) <$> c0).
  destruct (UNARY_pointwise (fun b _ => expf b) (mat_exp_opr expf)
              (<[dat a := c1]> h1) a (f32_of_int 1) c1) as [Hexp _];
    [done|apply lookup_insert_eq|unfold c1; rewrite length_fmap; lia|lia|lia|].
  unfold mat_expCUDA. rewrite Hexp. clear Hexp. cbn [mbind option_bind fst].
  rewrite insert_insert_eq.
  set (c2 := (fun x => expf (plus_zero x)) <$> c1).
  assert (Hc2 : c2 = softmax_exp expf M <$> c0).
  { unfold c2, c1. rewrite <- list_fmap_compose. done. }
  set (h3 := <[dat a := c2]> h1).
  set (p2 := fresh (dom h3)).
  assert (Hp2 : p2 ∉ dom h3) by apply is_fresh.
  assert (Hap2 : dat a ≠ p2).
  { apply (fresh_not_in h3 (dat a) c2). apply lookup_insert_eq. }
  assert (Hp12 : p1 ≠ p2).
  { apply (fresh_not_in h3 p1 [M]). unfold h3, h1.
    rewrite lookup_insert_ne by done. apply lookup_insert_eq. }
  assert (Hp2' : p2 ∉ dom hp).
  { intros Hin. apply Hp2. unfold h3, h1. rewrite !dom_insert_L.
    do 2 apply elem_of_union_r. exact Hin. }
  set (h4 := <[p2 := [junk]]> h3).
  destruct (sumCudaKernel_launch h4 (dat a) p2 c2 [junk] 1 (cols a) 128 256)
    as (co & Hsum & Hlco & Hco & _).
  { unfold h4. rewrite lookup_insert_ne by done. apply lookup_insert_eq. }
  { apply lookup_insert_eq. }
  { done. }
  { unfold c2, c1. rewrite !length_fmap. lia. }
  { lia. } { lia. } { done. } { done. } { cbn. lia. }
  rewrite HR. rewrite Hsum. clear Hsum. cbn [mbind option_bind].
  specialize (Hco 0 ltac:(lia)). change (Z.to_nat (0 * cols a)) with 0%nat in Hco.
  set (S := row_total c2 (cols a) 0 256) in *.
  assert (Hco' : co = [S]) by (by apply singleton_of_length).
  subst co.
  rewrite (rd_lookup _ p2 [S]) by (first [apply lookup_insert_eq | cbn; lia]).
  change (default f32_zero ([S] !! Z.to_nat 0)) with S.
  cbn [mbind option_bind].
  set (h5 := <[p2 := [S]]> h4).
  destruct (UNARY_pointwise f32_div divide_const_opr h5 a S c2) as [Hdiv _];
    [done| |unfold c2, c1; rewrite !length_fmap; lia|lia|lia|].
  { unfold h5, h4, h3. rewrite !lookup_insert_ne by done. apply lookup_insert_eq. }
  unfold divide_constCUDA. rewrite Hdiv. clear Hdiv. cbn [mbind option_bind fst].
  rewrite lookup_insert_eq. cbn [mbind option_bind].
  set (probs := (fun x => f32_div (plus_zero x) S) <$> c2).
  assert (Hprobs : probs = softmax_prob expf M S <$> c0).
  { unfold probs. rewrite Hc2, <- list_fmap_compose. done. }
  destruct (weightedSample_scan_spec probs r (Z.to_nat (cols a)) 0)
    as (i & Hscan & Hi & _); [lia| |].
  { unfold probs, c2, c1. rewrite !length_fmap. lia. }
  unfold weightedSampleKernel. change (cumulative probs (Z.to_nat 0)) with f64_zero in Hscan.
  rewrite Hscan. cbn [mbind option_bind].
  exists p1, p2, M, S, i. split.
  { do 2 f_equal. rewrite <- Hprobs. unfold h5, h4, h3, h1.
    rewrite insert_insert_eq.
    rewrite (insert_insert_ne _ p2 (dat a)) by done.
    by rewrite insert_insert_eq. }
  split; [done|]. split; [done|]. split; [done|].
  split; [vm_compute; reflexivity|]. split.
  { destruct HM as [->|[->|(j & Hj & Hx)]]; [by left|right; by left|].
    right. right. by eapply list_elem_of_lookup_2. }
  split; [done|]. split.
  { intros x (j & Hj)%list_elem_of_lookup_1. apply (Hall (Z.of_nat j)).
    - apply lookup_lt_Some in Hj. lia.
    - by rewrite Nat2Z.id. }
  split.
  { rewrite <- Hc2. unfold S.
    replace c2 with (row_of c2 (cols a) 0) at 1.
    - apply (row_total_sum_of c2 1); [|lia|lia|done].
      unfold c2, c1. rewrite !length_fmap. lia.
    - unfold row_of. cbn. apply take_ge. unfold c2, c1. rewrite !length_fmap. lia. }
  split; [|lia].
  rewrite <- Hprobs. exact Hscan.
Qed.

Lemma wr_length (m m' : mem) (p q : positive) (i : Z) (v : f32) (n : nat) :
  (exists c, m !! q = Some c /\ length c = n) ->
  wr m p i v = Some m' ->
  exists c, m' !! q = Some c /\ length c = n.
Proof.
  intros (c & Hc & Hn). unfold wr, store.
  destruct (m !! p) as [buf|] eqn:Hp; [|done]. cbn.
  destruct (decide _); [|done]. cbn. intros [= <-].
  destruct (decide (p = q)) as [->|Hne].
  - rewrite lookup_insert_eq. eexists. split; [done|].
    rewrite length_insert. congruence.
  - rewrite lookup_insert_ne by done. by exists c.
Qed.

(** X18: [softmaxSampleCUDA] reduces all [rows] rows into a buffer of one
    float: on a matrix with two rows or more (and at least one column) the
    row-sum kernel writes past the end of that buffer. *)
Theorem softmaxSample_needs_one_row (expf : f32 -> f32)
  (fmaxf : f32 -> f32 -> f32) (junk : f32) (r : f64) (hp : mem) (a : Matrix) :
  2 <= rows a -> 1 <= cols a ->
  softmaxSampleCUDA expf fmaxf junk r hp a = None.
Proof.
  intros HR HC. unfold softmaxSampleCUDA, cudaMalloc.
  destruct (launch_blocks _ _ (findMaxKernel _ _ _ _) _) as [h1|]; [|done].
  cbn [mbind option_bind].
  destruct (rd h1 _ 0) as [max_val|]; [|done]. cbn [mbind option_bind].
  destruct (add_constCUDA _ _ _) as [r1|]; [|done]. cbn [mbind option_bind].
  destruct (mat_expCUDA _ _ _ _) as [r2|]; [|done]. cbn [mbind option_bind].
  set (p2 := fresh (dom r2.1)).
  replace (launch_blocks _ _ (sumCudaKernel _ _ _ _) _) with (@None mem); [done|].
  symmetry. unfold launch_blocks. rewrite indices_row, run_fmap.
  set (I := fun m : mem => exists c : list f32, m !! p2 = Some c /\ length c = 1%nat).
  assert (Hrow : forall bdx row (s0 s1 : mem), I s0 ->
            sum_row (dat a) p2 (cols a) bdx row s0 = Some s1 -> I s1).
  { intros bdx row s0 s1 Hs0. unfold sum_row.
    destruct (mapM _ _) as [sh|]; [|done]. cbn.
    destruct (sum_total _ _) as [tot|]; [|done]. cbn.
    by apply wr_length. }
  apply (run_fails I _ _ 1).
  - exists [junk]. split; [apply lookup_insert_eq|done].
  - apply elem_of_seqZ. lia.
  - intros bx s0 s1 _ Hs0. unfold sumCudaKernel. apply (run_inv_Some I); [done|].
    intros row s2 s3 _. apply Hrow.
  - intros s0 Hs0. unfold sumCudaKernel. cbn [dim_x].
    apply (run_fails I _ _ 1); [done| | |].
    + apply elem_of_for_stride; [lia|]. split; [lia|done].
    + intros row s2 s3 _. apply Hrow.
    + intros s1 (c & Hc & Hl). unfold sum_row.
      destruct (mapM _ _) as [sh|]; [|done]. cbn.
      destruct (sum_total _ _) as [tot|]; [|done]. cbn.
      unfold wr. rewrite Hc. cbn. unfold store.
      rewrite decide_False by lia. done.
Qed.

(** ** An instance of [fmaxf] *)

Lemma f32_le_key (x y : f32) : f32_le x y = true <-> lex_le (f32_key x) (f32_key y).
Proof.
  unfold lex_le.
  destruct x as [[]|[]| |[] m e], y as [[]|[]| |[] m' e']; cbn;
    try (split; [intros; lia|intros; first [done | lia]]);
    try (split; [discriminate|lia]).
  all: change (Pos.compare_cont Eq m m') with (Pos.compare m m').
  all: destruct (Z.compare_spec e e'), (Pos.compare_spec m m'); cbn;
    split; try discriminate; try lia; intros; try done.
Qed.

Lemma f32_le_refl (x : f32) : f32_le x x = true.
Proof. apply f32_le_key. unfold lex_le. lia. Qed.

Lemma f32_le_trans (x y z : f32) :
  f32_le x y = true -> f32_le y z = true -> f32_le x z = true.
Proof. rewrite !f32_le_key. unfold lex_le. lia. Qed.

Lemma f32_le_total (x y : f32) : f32_le x y = true \/ f32_le y x = true.
Proof. rewrite !f32_le_key. unfold lex_le. lia. Qed.

Lemma fmax_num_sel (x y : f32) : fmax_num x y = x \/ fmax_num x y = y.
Proof. unfold fmax_num. destruct (f32_le x y); auto. Qed.

Lemma fmax_num_ub (x y : f32) :
  f32_le x (fmax_num x y) = true /\ f32_le y (fmax_num x y) = true.
Proof.
  unfold fmax_num. destruct (f32_le x y) eqn:Hle.
  - split; [done|apply f32_le_refl].
  - split; [apply f32_le_refl|]. destruct (f32_le_total x y); congruence.
Qed.

(** ** Edge cases of the elementwise engine *)

Lemma indices_empty (d : dim3) : dim_x d = 0 \/ dim_y d = 0 -> indices d = [].
Proof.
  intros [H|H]; unfold indices; rewrite H; [|reflexivity].
  apply bind_none. intros j _. reflexivity.
Qed.

Lemma grid_threads_empty (g b : dim3) :
  dim_x g = 0 \/ dim_y g = 0 -> grid_threads g b = [].
Proof. intros H. unfold grid_threads. rewrite (indices_empty g H). reflexivity. Qed.

(** X19: on a matrix without entries ([rows = 0] or [cols = 0]) the unary
    and binary operators, on the GPU and on the CPU, and [transposeCUDA]
    start no thread and run no iteration: the store is left as it is, and
    no buffer needs to exist behind the descriptors. *)
Theorem empty_matrix_is_left_alone (uop : unary_opr) (bop : binary_opr)
  (hp : mem) (m b out : Matrix) (k : f32) :
  0 <= rows m -> 0 <= cols m -> rows m = 0 \/ cols m = 0 ->
  UNARY_CUDA uop hp m k = Some (hp, m)
  /\ UNARY_cpu uop hp m k = Some (hp, m)
  /\ BINARY_CUDA bop hp m b = Some (hp, m)
  /\ BINARY_cpu bop hp m b = Some (hp, m)
  /\ transposeCUDA hp m out = Some hp.
Proof.
  intros HR HC Hz.
  assert (Hg : forall d, 0 < d ->
            dim_x (Dim3 (CEIL_DIV (cols m) d) (CEIL_DIV (rows m) d)) = 0
            \/ dim_y (Dim3 (CEIL_DIV (cols m) d) (CEIL_DIV (rows m) d)) = 0).
  { intros d Hd. unfold CEIL_DIV. cbn.
    destruct Hz as [-> | ->]; [right|left]; apply Z.quot_small; lia. }
  assert (Hn : rows m * cols m = 0) by (destruct Hz as [-> | ->]; lia).
  split_and!.
  - unfold UNARY_CUDA, launch.
    change ((cols m + dim_x (Dim3 32 32) - 1) `quot` dim_x (Dim3 32 32))
      with (CEIL_DIV (cols m) 32).
    change ((rows m + dim_y (Dim3 32 32) - 1) `quot` dim_y (Dim3 32 32))
      with (CEIL_DIV (rows m) 32).
    rewrite grid_threads_empty by (apply Hg; lia). done.
  - unfold UNARY_cpu. rewrite Hn. done.
  - unfold BINARY_CUDA, launch.
    change ((cols m + dim_x (Dim3 32 32) - 1) `quot` dim_x (Dim3 32 32))
      with (CEIL_DIV (cols m) 32).
    change ((rows m + dim_y (Dim3 32 32) - 1) `quot` dim_y (Dim3 32 32))
      with (CEIL_DIV (rows m) 32).
    rewrite grid_threads_empty by (apply Hg; lia). done.
  - unfold BINARY_cpu. rewrite Hn. done.
  - unfold transposeCUDA, launch_blocks.
    rewrite indices_empty by (apply Hg; done). done.
Qed.

(** X20: [tril(k)] computes [i % (int)k].  On a matrix with at least one
    entry, a [k] whose conversion to [int] is 0 (every [k] strictly between
    -1 and 1) or is not defined (NaN, infinities, values out of the range
    of [int]) makes the very first entry undefined, on the GPU and on the
    CPU. *)
Theorem tril_needs_nonzero_int_k (expf : f32 -> f32) (hp : mem) (m : Matrix)
  (k : f32) :
  0 < rows m -> 0 < cols m ->
  f32_to_int k = None \/ f32_to_int k = Some 0 ->
  trilCUDA expf hp m k = None /\ tril expf hp m k = None.
Proof.
  intros HR HC Hk.
  assert (Hopr : forall a i c b, tril_opr expf a i c b k = None).
  { intros a i c b. unfold tril_opr, tril_masked.
    destruct Hk as [-> | ->]; [done|]. cbn. by rewrite decide_True. }
  split.
  - unfold trilCUDA, UNARY_CUDA, launch.
    change ((cols m + dim_x (Dim3 32 32) - 1) `quot` dim_x (Dim3 32 32))
      with (CEIL_DIV (cols m) 32).
    change ((rows m + dim_y (Dim3 32 32) - 1) `quot` dim_y (Dim3 32 32))
      with (CEIL_DIV (rows m) 32).
    destruct (thread_of_grid (rows m) (cols m) 0 0) as (Ht & Hrow & Hcol); [lia..|].
    rewrite (run_fails (fun _ => True) _ _ _ hp I Ht); [done|done|].
    intros s _. unfold UNARY_Kernel_MTP.
    unfold thread_row in Hrow. unfold thread_col in Hcol. rewrite Hrow, Hcol.
    rewrite decide_True by lia.
    destruct (s !! dat m) as [abuf|]; [|done]. cbn.
    destruct (load abuf _) as [x|]; [|done]. cbn. by rewrite Hopr.
  - unfold tril, UNARY_cpu.
    rewrite (run_fails (fun _ => True) _ _ 0 hp I); [done| |done|].
    + apply elem_of_seqZ. nia.
    + intros s _. destruct (s !! dat m) as [abuf|]; [|done]. cbn.
      destruct (load abuf 0) as [x|]; [|done]. cbn. by rewrite Hopr.
Qed.

(** ** Both operands in one buffer *)

Lemma BINARY_self (op : f32 -> f32 -> f32) (hp : mem) (a b : Matrix)
  (c0 : list f32) :
  hp !! dat a = Some c0 -> dat b = dat a ->
  Z.of_nat (length c0) = rows a * cols a -> 0 <= rows a -> 0 <= cols a ->
  let opr : binary_opr :=
    fun (x : f32) (rb : Z -> option f32) (i _ : Z) => y ← rb i; Some (op x y) in
  BINARY_CUDA opr hp a b = Some (<[dat a := (fun x => op x x) <$> c0]> hp, a)
  /\ BINARY_cpu opr hp a b = Some (<[dat a := (fun x => op x x) <$> c0]> hp, a).
Proof.
  intros Hp Hdb Hlen HR HC opr.
  set (val := fun r c : Z =>
         let x := default f32_zero (c0 !! Z.to_nat (r * cols a + c)) in op x x).
  assert (Hmap : forall c1, length c1 = length c0 ->
            (forall r cl, 0 <= r < rows a -> 0 <= cl < cols a ->
               c1 !! Z.to_nat (r * cols a + cl) = Some (val r cl)) ->
            c1 = (fun x => op x x) <$> c0).
  { intros c1 Hl1 H1. apply (buffer_ext (rows a) (cols a)); try done; [lia| |].
    - by rewrite length_fmap.
    - intros r cl Hr Hcl. rewrite H1 by done. rewrite list_lookup_fmap. unfold val.
      destruct (lookup_lt_is_Some_2 c0 (Z.to_nat (r * cols a + cl)) ltac:(nia)) as [x Hx].
      rewrite Hx. done. }
  split.
  - unfold BINARY_CUDA.
    destruct (launch_cells (rows a) (cols a) (dat a) hp c0
                (BINARY_Kernel_MTP opr (dat a) (rows a) (cols a) (dat b) (dat a)) val Hlen)
      as (c' & Hrun & Hl & Hcells); [|done|].
    + intros t c Ht Hmid i Hfresh. unfold BINARY_Kernel_MTP.
      fold (thread_row t) (thread_col t).
      case_decide as Hg; [|done]. destruct Hg as [Hr Hc].
      pose proof (cell_in_range t _ _ (rows a) (cols a) Ht ltac:(simpl; lia)
                    ltac:(simpl; lia) Hr Hc) as (Hr0 & Hc0 & Hi).
      fold (thread_row t) (thread_col t) in Hr0, Hc0, Hi.
      unfold rd. rewrite Hdb, lookup_insert_eq. simpl.
      rewrite load_lookup by lia. fold i. rewrite Hfresh by done.
      destruct (lookup_lt_is_Some_2 c0 i ltac:(unfold i; lia)) as [x Hx].
      rewrite Hx. simpl. unfold opr. rewrite load_lookup by lia. fold i.
      rewrite Hfresh by done. rewrite Hx. simpl.
      rewrite wr_insert by (destruct Hmid as [-> _]; lia).
      unfold val. fold i. rewrite Hx. done.
    + unfold CEIL_DIV in Hrun. cbn [dim_x dim_y]. rewrite Hrun. simpl.
      by rewrite (Hmap c' Hl Hcells).
  - unfold BINARY_cpu.
    destruct (run_cells_matrix (rows a) (cols a) (dat a) hp c0
                (fun i m => x ← rd m (dat a) i; bbuf ← m !! dat b;
                            v ← opr x (load bbuf) i (cols a); wr m (dat a) i v) val)
      as (c' & -> & Hl & Hcells); try done.
    + intros c r cl Hmid Hr Hc Hfresh.
      unfold rd. rewrite Hdb, lookup_insert_eq. cbn [mbind option_bind].
      rewrite load_lookup by nia. rewrite Hfresh.
      destruct (lookup_lt_is_Some_2 c0 (Z.to_nat (r * cols a + cl)) ltac:(nia)) as [x Hx].
      rewrite Hx. cbn [mbind option_bind]. unfold opr.
      rewrite load_lookup by nia. rewrite Hfresh, Hx. cbn [mbind option_bind].
      rewrite wr_insert by (destruct Hmid as [-> _]; nia).
      unfold val. rewrite Hx. done.
    + cbn [mbind option_bind]. by rewrite (Hmap c' Hl Hcells).
Qed.

(** X21: [add], [multiply] and [divide] may be given the same buffer for
    both operands: every entry is then combined with itself ([x + x],
    [x * x], [x / x]), on the GPU and on the CPU. *)
Theorem binary_operators_on_one_buffer (hp : mem) (a b : Matrix) (c0 : list f32) :
  hp !! dat a = Some c0 -> dat b = dat a ->
  Z.of_nat (length c0) = rows a * cols a -> 0 <= rows a -> 0 <= cols a ->
  addCUDA hp a b = Some (<[dat a := (fun x => f32_add x x) <$> c0]> hp, a)
  /\ add hp a b = Some (<[dat a := (fun x => f32_add x x) <$> c0]> hp, a)
  /\ multiplyCUDA hp a b = Some (<[dat a := (fun x => f32_mul x x) <$> c0]> hp, a)
  /\ multiply hp a b = Some (<[dat a := (fun x => f32_mul x x) <$> c0]> hp, a)
  /\ divideCUDA hp a b = Some (<[dat a := (fun x => f32_div x x) <$> c0]> hp, a)
  /\ divide hp a b = Some (<[dat a := (fun x => f32_div x x) <$> c0]> hp, a).
Proof.
  intros Hp Hdb Hlen HR HC.
  destruct (BINARY_self f32_add hp a b c0) as [? ?]; try done.
  destruct (BINARY_self f32_mul hp a b c0) as [? ?]; try done.
  destruct (BINARY_self f32_div hp a b c0) as [? ?]; try done.
Qed.

(** ** A draw of zero *)

(** X22: when the draw is 0 (or below), [weightedSampleKernel] returns
    index 0 even if the first probability is zero: the test is
    [sum >= rand_val], and [0 >= 0] holds. *)
Theorem weightedSample_zero_draw (probs : list f32) (r : f64) (len : Z) (s : bool) :
  probs !! 0%nat = Some (S754_zero s) -> 0 < len ->
  f64_geb f64_zero r = true ->
  weightedSampleKernel probs r len = Some 0.
Proof.
  intros Hp Hlen Hr. unfold weightedSampleKernel.
  destruct (Z.to_nat len) as [|n] eqn:Hn; [lia|].
  cbn [weightedSample_scan]. rewrite load_lookup by lia.
  change (Z.to_nat 0) with 0%nat. unfold f32 in *. rewrite Hp. cbn [mbind option_bind].
  replace (f64_add f64_zero (f64_of_f32 (S754_zero s))) with f64_zero
    by (by destruct s).
  by rewrite Hr.
Qed.

(** ** Row sums written over the input *)

Lemma sum_row_in_place (hp : mem) (p : positive) (ci c : list f32)
  (R C r bdx : Z) :
  Z.of_nat (length ci) = R * C -> length c = length ci ->
  0 <= r < R -> 0 < C -> 0 < bdx ->
  (forall col, 0 <= col < C ->
     c !! Z.to_nat (r * C + col) = ci !! Z.to_nat (r * C + col)) ->
  sum_row p p C bdx r (<[p := c]> hp)
  = Some (<[p := <[Z.to_nat (r * C) := row_total ci C r bdx]> c]> hp).
Proof.
  intros Hlen Hlc Hr HC Hb Hrow. unfold sum_row.
  rewrite (mapM_total _ (row_partial ci C r bdx)).
  - cbn [mbind option_bind]. unfold sum_total.
    rewrite (run_total _ (fun s t => f32_add s (row_partial ci C r bdx t))).
    + cbn [mbind option_bind]. fold (row_total ci C r bdx). apply wr_insert. nia.
    + intros t s Ht. apply elem_of_seqZ in Ht. rewrite load_lookup by lia.
      rewrite list_lookup_fmap, lookup_seqZ_lt by lia.
      cbn [fmap option_fmap option_map mbind option_bind].
      by replace (0 + Z.of_nat (Z.to_nat t)) with t by lia.
  - intros tx Htx. apply elem_of_seqZ in Htx. unfold sum_partial.
    apply run_total. intros col s Hcol.
    apply elem_of_for_stride in Hcol as [Hcol _]; [|lia].
    unfold rd. rewrite lookup_insert_eq. cbn [mbind option_bind].
    rewrite load_lookup by nia. rewrite Hrow by lia.
    destruct (lookup_lt_is_Some_2 ci (Z.to_nat (r * C + col))) as [x ->]; [nia|done].
Qed.

(** X23: [sumCUDA(a, a)], with the matrix itself as output, is well
    defined: the first entry of every row becomes the sum of the row as it
    was on entry, and the other entries stay as they are. *)
Theorem sumCUDA_in_place (hp : mem) (a out : Matrix) (ci : list f32) :
  hp !! dat a = Some ci -> dat out = dat a ->
  Z.of_nat (length ci) = rows a * cols a ->
  0 <= rows a -> 0 < cols a ->
  exists co',
    sumCUDA hp a out = Some (<[dat a := co']> hp)
    /\ length co' = length ci
    /\ (forall r, 0 <= r < rows a ->
          exists v, co' !! Z.to_nat (r * cols a) = Some v
                    /\ sum_of f32_add f32_zero (row_of ci (cols a) r) v)
    /\ (forall r c, 0 <= r < rows a -> 0 < c < cols a ->
          co' !! Z.to_nat (r * cols a + c) = ci !! Z.to_nat (r * cols a + c)).
Proof.
  intros Hin Hdo Hlen HR HC. unfold sumCUDA. rewrite Hdo.
  set (R := rows a) in *. set (C := cols a) in *. set (p := dat a) in *.
  unfold launch_blocks, sumCudaKernel. cbn [dim_x dim_y].
  rewrite <- (run_bind (sum_row p p C 256) (fun bi => for_stride (dim_x bi) R 128)).
  rewrite indices_row, list_fmap_bind.
  change ((fun bi => for_stride (dim_x bi) R 128) ∘ (fun i => Dim3 i 0))
    with (fun t => for_stride t R 128).
  destruct (strided_cover 128 R eq_refl) as [Hnd Hcover].
  set (ts := seqZ 0 128 ≫= fun t => for_stride t R 128) in *.
  destruct (run_cells p hp ci (sum_row p p C 256)
              (fun _ => true) (fun r => Z.to_nat (r * C))
              (fun r => row_total ci C r 256) ts)
    as (co' & Hrun & Hlen' & Hdone & Hkeep); try done.
  - intros r Hr _. apply Hcover in Hr. nia.
  - intros r c Hr [Hl Hmid] Hfresh. apply Hcover in Hr.
    apply (sum_row_in_place hp p ci c R); try done.
    intros col Hcol. destruct (decide (col = 0)) as [->|Hne].
    + rewrite Z.add_0_r. by apply Hfresh.
    + destruct (Hmid (Z.to_nat (r * C + col))) as [?|(r' & Hr' & _ & Hidx & _)];
        [done|].
      apply Hcover in Hr'. exfalso.
      assert (r' * C = r * C + col) by lia.
      destruct (quot_rem_unique C r' 0 r col) as [_ ?]; lia.
  - apply NoDup_fmap_2_strong; [|by apply NoDup_filter].
    intros r1 r2 H1 H2 Heq.
    apply list_elem_of_filter in H1 as [_ H1], H2 as [_ H2].
    apply Hcover in H1, H2. nia.
  - exists co'. split; [exact Hrun|]. split; [exact Hlen'|]. split.
    + intros r Hr. exists (row_total ci C r 256). split.
      * apply Hdone; [by apply Hcover|done].
      * apply (row_total_sum_of ci R); [exact Hlen|exact Hr|lia|reflexivity].
    + intros r c Hr Hc. apply Hkeep. intros r' Hr' _ Heq. apply Hcover in Hr'.
      assert (r' * C = r * C + c) by lia.
      destruct (quot_rem_unique C r' 0 r c) as [_ ?]; lia.
Qed.

(** ** The added theorems at concrete inputs *)

Lemma unary_gpu_matches_cpu_witness :
  divide_constCUDA ex_store ex_M (f32_of_int 2) = divide_const ex_store ex_M (f32_of_int 2)
  /\ add_constCUDA ex_store ex_M (f32_of_int 2) = add_const ex_store ex_M (f32_of_int 2).
Proof.
  apply (unary_gpu_matches_cpu ex_store ex_M (f32_of_int 2)
           (f32_of_int <$> [1; 2; 3; 4; 5; 6])).
  - reflexivity.
  - reflexivity.
  - cbn; lia.
  - cbn; lia.
  - intros x Hx. vm_compute in Hx.
    repeat (apply elem_of_cons in Hx as [->|Hx]; [discriminate|]).
    by apply elem_of_nil in Hx.
Defined.

Lemma mat_isqrt_negative_zero_witness :
  exists c1 c2,
    mat_isqrtCUDA nz_store nz_M f32_zero = Some (<[dat nz_M := c1]> nz_store, nz_M)
    /\ mat_isqrt nz_store nz_M f32_zero = Some (<[dat nz_M := c2]> nz_store, nz_M)
    /\ forall i, [S754_zero true; f32_of_int 4] !! i = Some (S754_zero true) ->
         c1 !! i = Some (S754_infinity false) /\ c2 !! i = Some (S754_infinity true).
Proof.
  apply (mat_isqrt_negative_zero nz_store nz_M f32_zero [S754_zero true; f32_of_int 4]).
  - reflexivity.
  - reflexivity.
  - cbn; lia.
  - cbn; lia.
Defined.

Lemma GELU_of_zero_witness :
  exists c1,
    GELUCUDA (fun x : f64 => x) nz_store nz_M f32_zero
    = Some (<[dat nz_M := c1]> nz_store, nz_M)
    /\ length c1 = length [S754_zero true; f32_of_int 4]
    /\ forall i s, [S754_zero true; f32_of_int 4] !! i = Some (S754_zero s) ->
         c1 !! i = Some (S754_zero false).
Proof.
  apply (GELU_of_zero (fun x : f64 => x) nz_store nz_M f32_zero
           [S754_zero true; f32_of_int 4]).
  - reflexivity.
  - reflexivity.
  - reflexivity.
  - cbn; lia.
  - cbn; lia.
Defined.

Lemma binary_operators_witness :
  addCUDA ex_store ex_M ex_out
  = Some (<[dat ex_M := zip_with f32_add (f32_of_int <$> [1; 2; 3; 4; 5; 6])
                          (f32_of_int <$> [0; 7; 7; 0; 7; 7])]> ex_store, ex_M)
  /\ add ex_store ex_M ex_out
     = Some (<[dat ex_M := zip_with f32_add (f32_of_int <$> [1; 2; 3; 4; 5; 6])
                             (f32_of_int <$> [0; 7; 7; 0; 7; 7])]> ex_store, ex_M)
  /\ multiplyCUDA ex_store ex_M ex_out
     = Some (<[dat ex_M := zip_with f32_mul (f32_of_int <$> [1; 2; 3; 4; 5; 6])
                             (f32_of_int <$> [0; 7; 7; 0; 7; 7])]> ex_store, ex_M)
  /\ multiply ex_store ex_M ex_out
     = Some (<[dat ex_M := zip_with f32_mul (f32_of_int <$> [1; 2; 3; 4; 5; 6])
                             (f32_of_int <$> [0; 7; 7; 0; 7; 7])]> ex_store, ex_M)
  /\ divideCUDA ex_store ex_M ex_out
     = Some (<[dat ex_M := zip_with f32_div (f32_of_int <$> [1; 2; 3; 4; 5; 6])
                             (f32_of_int <$> [0; 7; 7; 0; 7; 7])]> ex_store, ex_M)
  /\ divide ex_store ex_M ex_out
     = Some (<[dat ex_M := zip_with f32_div (f32_of_int <$> [1; 2; 3; 4; 5; 6])
                             (f32_of_int <$> [0; 7; 7; 0; 7; 7])]> ex_store, ex_M).
Proof.
  apply (binary_operators_combine_entrywise ex_store ex_M ex_out
           (f32_of_int <$> [1; 2; 3; 4; 5; 6]) (f32_of_int <$> [0; 7; 7; 0; 7; 7])).
  - reflexivity.
  - reflexivity.
  - cbn; lia.
  - reflexivity.
  - cbn; lia.
  - cbn; lia.
  - cbn; lia.
Defined.

Lemma sum_then_broadcast_witness :
  exists hp1 co2,
    sumCUDA ex_store ex_M ex_out = Some hp1
    /\ broadcastCUDA hp1 ex_out f32_zero = Some (<[dat ex_out := co2]> ex_store, ex_out)
    /\ length co2 = length (f32_of_int <$> [0; 7; 7; 0; 7; 7])
    /\ forall r, 0 <= r < rows ex_M ->
         exists v,
           sum_of f32_add f32_zero
             (row_of (f32_of_int <$> [1; 2; 3; 4; 5; 6]) (cols ex_M) r) v
           /\ forall c, 0 <= c < cols ex_M ->
                co2 !! Z.to_nat (r * cols ex_M + c) = Some v.
Proof.
  apply (sum_then_broadcast ex_store ex_M ex_out f32_zero
           (f32_of_int <$> [1; 2; 3; 4; 5; 6]) (f32_of_int <$> [0; 7; 7; 0; 7; 7])).
  - reflexivity.
  - reflexivity.
  - cbn; lia.
  - reflexivity.
  - reflexivity.
  - reflexivity.
  - reflexivity.
  - cbn; lia.
  - reflexivity.
Defined.

Lemma matMulCUDANaive_may_alias_witness :
  exists cc',
    matMulCUDANaive true [] sq_store 1 2 2 2 2 2 1
    = Some (<[1%positive := cc']> sq_store)
    /\ length cc' = length (f32_of_int <$> [1; 2; 3; 4])
    /\ forall i j, 0 <= i < 2 -> 0 <= j < 2 ->
         cc' !! Z.to_nat (i * 2 + j)
         = Some (dot true (row_of (f32_of_int <$> [1; 2; 3; 4]) 2 i)
                          (row_of (f32_of_int <$> [1; 0; 1; 1]) 2 j)).
Proof.
  apply (matMulCUDANaive_may_alias true [] sq_store 1 2 1
           (f32_of_int <$> [1; 2; 3; 4]) (f32_of_int <$> [1; 0; 1; 1])
           (f32_of_int <$> [1; 2; 3; 4]) 2 2 2).
  - reflexivity.
  - reflexivity.
  - reflexivity.
  - lia.
  - lia.
  - lia.
  - reflexivity.
  - reflexivity.
  - reflexivity.
Defined.

Lemma transposeCPU_matches_witness :
  exists co',
    transposeCPU ex_store (dat ex_M) (dat ex_out) (rows ex_M) (cols ex_M)
    = Some (<[dat ex_out := co']> ex_store)
    /\ transposeCUDA ex_store ex_M ex_out = Some (<[dat ex_out := co']> ex_store)
    /\ length co' = length (f32_of_int <$> [0; 7; 7; 0; 7; 7])
    /\ forall r c, 0 <= r < rows ex_M -> 0 <= c < cols ex_M ->
         co' !! Z.to_nat (c * rows ex_M + r)
         = (f32_of_int <$> [1; 2; 3; 4; 5; 6]) !! Z.to_nat (r * cols ex_M + c).
Proof.
  apply (transposeCPU_matches_transposeCUDA ex_store ex_M ex_out
           (f32_of_int <$> [1; 2; 3; 4; 5; 6]) (f32_of_int <$> [0; 7; 7; 0; 7; 7])).
  - reflexivity.
  - reflexivity.
  - cbn; lia.
  - reflexivity.
  - reflexivity.
  - cbn; lia.
  - cbn; lia.
Defined.

Lemma transposeCUDA_util_in_place_witness :
  exists co',
    transposeCUDA_util [] ex_store ex_M ex_M = Some (<[dat ex_M := co']> ex_store)
    /\ length co' = length (f32_of_int <$> [1; 2; 3; 4; 5; 6])
    /\ (forall r c, 0 <= r < rows ex_M -> 0 <= c < cols ex_M ->
          co' !! Z.to_nat (c * rows ex_M + r)
          = (f32_of_int <$> [1; 2; 3; 4; 5; 6]) !! Z.to_nat (r * cols ex_M + c))
    /\ (forall j, (Z.to_nat (rows ex_M * cols ex_M) <= j)%nat ->
          co' !! j = (f32_of_int <$> [1; 2; 3; 4; 5; 6]) !! j).
Proof.
  apply (transposeCUDA_util_in_place [] ex_store ex_M ex_M
           (f32_of_int <$> [1; 2; 3; 4; 5; 6]) (f32_of_int <$> [1; 2; 3; 4; 5; 6])).
  - reflexivity.
  - reflexivity.
  - cbn; lia.
  - cbn; lia.
  - cbn; lia.
  - cbn; lia.
Defined.

Lemma sumCPU_witness :
  exists co',
    sumCPU ex_store 1 2 2 3 = Some (<[2%positive := co']> ex_store)
    /\ length co' = length (f32_of_int <$> [0; 7; 7; 0; 7; 7])
    /\ forall r c, 0 <= r < 2 -> 0 <= c < 3 ->
         exists v0, (f32_of_int <$> [0; 7; 7; 0; 7; 7]) !! Z.to_nat (r * 3) = Some v0
           /\ co' !! Z.to_nat (r * 3 + c)
              = Some (foldl f32_add v0 (row_of (f32_of_int <$> [1; 2; 3; 4; 5; 6]) 3 r)).
Proof.
  apply (sumCPU_accumulates_row_sums ex_store 1 2
           (f32_of_int <$> [1; 2; 3; 4; 5; 6]) (f32_of_int <$> [0; 7; 7; 0; 7; 7]) 2 3).
  - reflexivity.
  - reflexivity.
  - lia.
  - reflexivity.
  - reflexivity.
  - lia.
  - lia.
Defined.

Lemma matMulCPU_accumulates_witness :
  exists cc',
    matMulCPU mm4_store 1 2 4 2 4 4 3 = Some (<[3%positive := cc']> mm4_store)
    /\ length cc' = length (f32_of_int <$> [0; 0; 0; 0; 0; 0; 0; 0])
    /\ forall i j, 0 <= i < 2 -> 0 <= j < 4 ->
         exists v0, (f32_of_int <$> [0; 0; 0; 0; 0; 0; 0; 0]) !! Z.to_nat (i * 4 + j) = Some v0
           /\ cc' !! Z.to_nat (i * 4 + j)
              = Some (foldl (fun v xy => f32_add v (f32_mul xy.1 xy.2)) v0
                        (zip (row_of (f32_of_int <$> [1; 2; 3; 4; 5; 6; 7; 8]) 4 i)
                             (take (Z.to_nat 4)
                                (row_of (f32_of_int
                                           <$> [1; 0; 0; 0; 0; 1; 0; 0; 0; 0; 1; 0; 1; 1; 1; 1])
                                        4 j)))).
Proof.
  apply (matMulCPU_accumulates mm4_store 1 2 3
           (f32_of_int <$> [1; 2; 3; 4; 5; 6; 7; 8])
           (f32_of_int <$> [1; 0; 0; 0; 0; 1; 0; 0; 0; 0; 1; 0; 1; 1; 1; 1])
           (f32_of_int <$> [0; 0; 0; 0; 0; 0; 0; 0]) 2 4 4 4).
  - reflexivity.
  - reflexivity.
  - reflexivity.
  - lia.
  - lia.
  - lia.
  - lia.
  - lia.
  - lia.
  - reflexivity.
  - reflexivity.
  - reflexivity.
  - reflexivity.
  - reflexivity.
Defined.

Lemma matMulCPU_needs_bRows_witness :
  matMulCPU (mm_store mm_B3) 1 2 3 2 3 4 3 = None.
Proof.
  apply (matMulCPU_needs_bRows_multiple_of_4 (mm_store mm_B3) 1 2 3
           (f32_of_int <$> mm_B3) 2 3 3 4).
  - reflexivity.
  - lia.
  - reflexivity.
  - lia.
  - lia.
  - lia.
  - lia.
  - vm_compute; discriminate.
Defined.

Lemma embeddings_gather_witness :
  exists cl',
    embeddingsCUDA emb_store emb_line emb_wte emb_wpe [2; 0] 2 2
    = Some (<[dat emb_line := cl']> emb_store)
    /\ length cl' = length (f32_of_int <$> [9; 9; 9; 9; 9])
    /\ (forall t d, 0 <= t < 2 -> 0 <= d < 2 ->
          exists tok x y,
            [2; 0] !! Z.to_nat t = Some tok
            /\ (f32_of_int <$> [10; 11; 20; 21; 30; 31]) !! Z.to_nat (tok * 2 + d) = Some x
            /\ (f32_of_int <$> replicate 1026 1) !! Z.to_nat (d * 1024 + t) = Some y
            /\ cl' !! Z.to_nat (t * 2 + d) = Some (f32_add x y))
    /\ (forall j, (Z.to_nat (2 * 2) <= j)%nat ->
          cl' !! j = (f32_of_int <$> [9; 9; 9; 9; 9]) !! j).
Proof.
  apply (embeddings_gather emb_store emb_line emb_wte emb_wpe [2; 0] 2 2
           (f32_of_int <$> [9; 9; 9; 9; 9]) (f32_of_int <$> [10; 11; 20; 21; 30; 31])
           (f32_of_int <$> replicate 1026 1)).
  - reflexivity.
  - reflexivity.
  - reflexivity.
  - cbn; lia.
  - cbn; lia.
  - lia.
  - lia.
  - cbn; lia.
  - intros t tok Ht Htok.
    assert (t = 0 \/ t = 1) as [-> | ->] by lia; vm_compute in Htok;
      injection Htok as <-; vm_compute; split; discriminate.
  - intros t d Ht Hd. rewrite length_fmap, length_replicate. lia.
  - cbn; lia.
Defined.

Lemma compareMatrices_blind_to_nan_witness :
  compareMatrices nan_store 1 2 2 2 = Some true.
Proof.
  apply (compareMatrices_blind_to_nan nan_store 1 2
           [f32_of_int 1; S754_nan; S754_infinity false; f32_of_int 4]
           [f32_of_int 1; f32_of_int 7; S754_infinity false; S754_nan] 2 2).
  - reflexivity.
  - reflexivity.
  - cbn; lia.
  - cbn; lia.
  - intros i x y Hi Hx Hy.
    assert (i = 0 \/ i = 1 \/ i = 2 \/ i = 3) as [-> |[-> |[-> | ->]]] by lia;
      vm_compute in Hx, Hy; injection Hx as <-; injection Hy as <-;
      [left|right; left|left|right; right]; reflexivity.
Defined.

Lemma findMax_is_maximum_witness :
  exists M,
    launch_blocks (Dim3 128 1) (Dim3 256 1) (findMaxKernel fmax_num 1 2 3) fm_store
    = Some (<[2%positive := [M]]> fm_store)
    /\ (M = f32_of_int 0 \/ M = S754_infinity true
        \/ exists i, 0 <= i < 3 /\ (f32_of_int <$> [1; 2; 3]) !! Z.to_nat i = Some M)
    /\ f32_le (f32_of_int 0) M = true
    /\ forall i x, 0 <= i < 3 -> (f32_of_int <$> [1; 2; 3]) !! Z.to_nat i = Some x ->
         f32_le x M = true.
Proof.
  apply (findMax_is_maximum fmax_num (fun x y => f32_le x y = true) fm_store 1 2
           (f32_of_int <$> [1; 2; 3]) (f32_of_int 0) 3).
  - exact f32_le_refl.
  - exact f32_le_trans.
  - exact fmax_num_sel.
  - exact fmax_num_ub.
  - reflexivity.
  - reflexivity.
  - lia.
  - cbn; lia.
Defined.

Lemma softmaxSample_one_row_witness :
  exists p1 p2 M S i,
    softmaxSampleCUDA (f32_add (f32_of_int 1)) fmax_num f32_zero (f64_of_int 1)
      sm_store sm_row
    = Some (<[dat sm_row := softmax_prob (f32_add (f32_of_int 1)) M S
                              <$> (f32_of_int <$> [1; 2; 3])]>
              (<[p2 := [S]]> (<[p1 := [M]]> sm_store)), i)
    /\ (p1 ∉ dom sm_store) /\ (p2 ∉ dom sm_store) /\ p1 ≠ p2
    /\ memset_float (-10000) = S754_finite true 15790320 75
    /\ (M = memset_float (-10000) \/ M = S754_infinity true
        \/ M ∈ (f32_of_int <$> [1; 2; 3]))
    /\ f32_le (memset_float (-10000)) M = true
    /\ (forall x, x ∈ (f32_of_int <$> [1; 2; 3]) -> f32_le x M = true)
    /\ sum_of f32_add f32_zero
         (softmax_exp (f32_add (f32_of_int 1)) M <$> (f32_of_int <$> [1; 2; 3])) S
    /\ weightedSampleKernel
         (softmax_prob (f32_add (f32_of_int 1)) M S <$> (f32_of_int <$> [1; 2; 3]))
         (f64_of_int 1) (cols sm_row) = Some i
    /\ 0 <= i <= cols sm_row.
Proof.
  apply (softmaxSample_one_row (f32_add (f32_of_int 1)) fmax_num
           (fun x y => f32_le x y = true) f32_zero (f64_of_int 1) sm_store sm_row
           (f32_of_int <$> [1; 2; 3])).
  - exact f32_le_refl.
  - exact f32_le_trans.
  - exact fmax_num_sel.
  - exact fmax_num_ub.
  - reflexivity.
  - reflexivity.
  - cbn; lia.
  - reflexivity.
Defined.

Lemma softmaxSample_needs_one_row_witness :
  softmaxSampleCUDA (f32_add (f32_of_int 1)) fmax_num f32_zero (f64_of_int 1)
    sm_store sm_two_rows = None.
Proof.
  apply (softmaxSample_needs_one_row (f32_add (f32_of_int 1)) fmax_num f32_zero
           (f64_of_int 1) sm_store sm_two_rows).
  - cbn; lia.
  - cbn; lia.
Defined.
Lemma weightedSampleKernel_spec_witness :
  exists i, weightedSampleKernel uniform25 (f64_of_int 1) 25 = Some i
    /\ 0 <= i <= 25
    /\ (forall j, 0 <= j < i ->
          f64_geb (cumulative uniform25 (Z.to_nat j + 1)) (f64_of_int 1) = false)
    /\ (i < 25 -> f64_geb (cumulative uniform25 (Z.to_nat i + 1)) (f64_of_int 1) = true).
Proof.
  apply (weightedSampleKernel_spec uniform25 (f64_of_int 1) 25).
  vm_compute. split; discriminate.
Defined.

Lemma unary_operators_map_witness :
  divide_constCUDA ex_store ex_M (f32_of_int 2)
  = Some (<[dat ex_M := (fun x => f32_div (plus_zero x) (f32_of_int 2))
                          <$> (f32_of_int <$> [1; 2; 3; 4; 5; 6])]> ex_store, ex_M)
  /\ add_constCUDA ex_store ex_M (f32_of_int 2)
     = Some (<[dat ex_M := (fun x => f32_add (plus_zero x) (f32_of_int 2))
                             <$> (f32_of_int <$> [1; 2; 3; 4; 5; 6])]> ex_store, ex_M)
  /\ mat_isqrtCUDA ex_store ex_M (f32_of_int 2)
     = Some (<[dat ex_M := (fun x => f32_of_f64 (f64_div (f64_of_int 1)
                                       (f64_of_f32 (f32_sqrt (plus_zero x)))))
                             <$> (f32_of_int <$> [1; 2; 3; 4; 5; 6])]> ex_store, ex_M)
  /\ mat_expCUDA (f32_add (f32_of_int 1)) ex_store ex_M (f32_of_int 2)
     = Some (<[dat ex_M := (fun x => f32_add (f32_of_int 1) (plus_zero x))
                             <$> (f32_of_int <$> [1; 2; 3; 4; 5; 6])]> ex_store, ex_M).
Proof.
  apply (unary_operators_map_every_entry (f32_add (f32_of_int 1)) ex_store ex_M
           (f32_of_int 2) (f32_of_int <$> [1; 2; 3; 4; 5; 6])).
  - reflexivity.
  - reflexivity.
  - cbn; lia.
  - cbn; lia.
Defined.

Lemma empty_matrix_witness :
  UNARY_CUDA broadcast_opr ex_store {| dat := 7; rows := 0; cols := 3 |} f32_zero
  = Some (ex_store, {| dat := 7; rows := 0; cols := 3 |})
  /\ UNARY_cpu broadcast_opr ex_store {| dat := 7; rows := 0; cols := 3 |} f32_zero
     = Some (ex_store, {| dat := 7; rows := 0; cols := 3 |})
  /\ BINARY_CUDA add_opr ex_store {| dat := 7; rows := 0; cols := 3 |} ex_M
     = Some (ex_store, {| dat := 7; rows := 0; cols := 3 |})
  /\ BINARY_cpu add_opr ex_store {| dat := 7; rows := 0; cols := 3 |} ex_M
     = Some (ex_store, {| dat := 7; rows := 0; cols := 3 |})
  /\ transposeCUDA ex_store {| dat := 7; rows := 0; cols := 3 |} ex_out = Some ex_store.
Proof.
  apply (empty_matrix_is_left_alone broadcast_opr add_opr ex_store
           {| dat := 7; rows := 0; cols := 3 |} ex_M ex_out f32_zero).
  - cbn; lia.
  - cbn; lia.
  - left. reflexivity.
Defined.

Lemma tril_needs_nonzero_int_k_witness :
  trilCUDA (f32_add (f32_of_int 1)) tril_hp tril_M
    (f32_div (f32_of_int 1) (f32_of_int 2)) = None
  /\ tril (f32_add (f32_of_int 1)) tril_hp tril_M
       (f32_div (f32_of_int 1) (f32_of_int 2)) = None.
Proof.
  apply (tril_needs_nonzero_int_k (f32_add (f32_of_int 1)) tril_hp tril_M
           (f32_div (f32_of_int 1) (f32_of_int 2))).
  - cbn; lia.
  - cbn; lia.
  - right. vm_compute. reflexivity.
Defined.

Lemma binary_operators_on_one_buffer_witness :
  addCUDA ex_store ex_M ex_M
  = Some (<[dat ex_M := (fun x => f32_add x x) <$> (f32_of_int <$> [1; 2; 3; 4; 5; 6])]>
            ex_store, ex_M)
  /\ add ex_store ex_M ex_M
     = Some (<[dat ex_M := (fun x => f32_add x x) <$> (f32_of_int <$> [1; 2; 3; 4; 5; 6])]>
               ex_store, ex_M)
  /\ multiplyCUDA ex_store ex_M ex_M
     = Some (<[dat ex_M := (fun x => f32_mul x x) <$> (f32_of_int <$> [1; 2; 3; 4; 5; 6])]>
               ex_store, ex_M)
  /\ multiply ex_store ex_M ex_M
     = Some (<[dat ex_M := (fun x => f32_mul x x) <$> (f32_of_int <$> [1; 2; 3; 4; 5; 6])]>
               ex_store, ex_M)
  /\ divideCUDA ex_store ex_M ex_M
     = Some (<[dat ex_M := (fun x => f32_div x x) <$> (f32_of_int <$> [1; 2; 3; 4; 5; 6])]>
               ex_store, ex_M)
  /\ divide ex_store ex_M ex_M
     = Some (<[dat ex_M := (fun x => f32_div x x) <$> (f32_of_int <$> [1; 2; 3; 4; 5; 6])]>
               ex_store, ex_M).
Proof.
  apply (binary_operators_on_one_buffer ex_store ex_M ex_M
           (f32_of_int <$> [1; 2; 3; 4; 5; 6])).
  - reflexivity.
  - reflexivity.
  - reflexivity.
  - cbn; lia.
  - cbn; lia.
Defined.

Lemma weightedSample_zero_draw_witness :
  weightedSampleKernel [S754_zero false; f32_of_int 1] (f64_of_int 0) 2 = Some 0.
Proof.
  apply (weightedSample_zero_draw [S754_zero false; f32_of_int 1] (f64_of_int 0) 2 false).
  - reflexivity.
  - lia.
  - reflexivity.
Defined.

Lemma sumCUDA_in_place_witness :
  exists co',
    sumCUDA ex_store ex_M ex_M = Some (<[dat ex_M := co']> ex_store)
    /\ length co' = length (f32_of_int <$> [1; 2; 3; 4; 5; 6])
    /\ (forall r, 0 <= r < rows ex_M ->
          exists v, co' !! Z.to_nat (r * cols ex_M) = Some v
                    /\ sum_of f32_add f32_zero
                         (row_of (f32_of_int <$> [1; 2; 3; 4; 5; 6]) (cols ex_M) r) v)
    /\ (forall r c, 0 <= r < rows ex_M -> 0 < c < cols ex_M ->
          co' !! Z.to_nat (r * cols ex_M + c)
          = (f32_of_int <$> [1; 2; 3; 4; 5; 6]) !! Z.to_nat (r * cols ex_M + c)).
Proof.
  apply (sumCUDA_in_place ex_store ex_M ex_M (f32_of_int <$> [1; 2; 3; 4; 5; 6])).
  - reflexivity.
  - reflexivity.
  - reflexivity.
  - cbn; lia.
  - reflexivity.
Defined.
